(** * pi-agentic-compaction: a shallow embedding of [src/index.ts]

    The development follows the layout of the source file: JavaScript
    primitives the code relies on, the utility functions
    ([uniqStrings], [mapWithConcurrency], [extractUserCompactionNote],
    [isLikelyTempArtifactPath], [detectFileOpsFromConversation]), model
    selection, tool execution and the agent loop.  Definitions come first,
    the theorems about them follow.

    Conventions.
    - A JavaScript string is a [string]: a sequence of code units, here the
      code units 0..255, on which [trim] and [toLowerCase] are exact.
    - A JavaScript [number] is a [jsnum]: a rational, an infinity or NaN.
    - [undefined] is [None].
    - Asynchrony is made explicit: a pending promise is settled by a
      scheduler, an arbitrary function choosing which one settles next. *)

From Stdlib Require Import ZArith QArith Qround Ascii String.
From stdpp Require Import base decidable option list gmap strings pretty.

Local Open Scope string_scope.
Local Open Scope list_scope.
Local Open Scope nat_scope.

(* ====================================================================== *)
(** * JavaScript primitives                                                *)
(* ====================================================================== *)

Module Js.

(** ** Numbers *)

Inductive jsnum : Type :=
| Finite (q : Q)
| PosInf
| NegInf
| NaN.

Definition of_nat (n : nat) : jsnum := Finite (inject_Z (Z.of_nat n)).
Definition of_Z (z : Z) : jsnum := Finite (inject_Z z).

(** [Math.floor] *)
Definition Math_floor (x : jsnum) : jsnum :=
  match x with
  | Finite q => Finite (inject_Z (Qfloor q))
  | _ => x
  end.

(** [Math.max] and [Math.min] on two arguments: NaN is contagious. *)
Definition Math_max (a b : jsnum) : jsnum :=
  match a, b with
  | NaN, _ | _, NaN => NaN
  | PosInf, _ | _, PosInf => PosInf
  | NegInf, x | x, NegInf => x
  | Finite p, Finite q => if Qle_bool p q then Finite q else Finite p
  end.

Definition Math_min (a b : jsnum) : jsnum :=
  match a, b with
  | NaN, _ | _, NaN => NaN
  | NegInf, _ | _, NegInf => NegInf
  | PosInf, x | x, PosInf => x
  | Finite p, Finite q => if Qle_bool p q then Finite p else Finite q
  end.

(** Truncation towards zero of a rational. *)
Definition Qtrunc (q : Q) : Z := Z.quot (Qnum q) (Zpos (Qden q)).

(** [ToLength]: the length [Array.from({ length: x })] allocates. *)
Definition ToLength (x : jsnum) : N :=
  match x with
  | NaN | NegInf => 0%N
  | PosInf => (2 ^ 53 - 1)%N
  | Finite q => N.min (Z.to_N (Qtrunc q)) (2 ^ 53 - 1)%N
  end.

(** The end index [String.prototype.slice(0, x)] uses on a string of
    length [len]: [ToIntegerOrInfinity], negative values counted from the
    end, the result clamped to the string. *)
Definition slice_end (len : nat) (x : jsnum) : nat :=
  match x with
  | NaN => 0
  | PosInf => len
  | NegInf => 0
  | Finite q =>
      let z := Qtrunc q in
      if (z <? 0)%Z then Z.to_nat (Z.max 0 (Z.of_nat len + z))
      else Nat.min len (Z.to_nat z)
  end.

(** [x > y] on numbers (false as soon as NaN is involved). *)
Definition gt (x y : jsnum) : bool :=
  match x, y with
  | NaN, _ | _, NaN => false
  | PosInf, PosInf => false
  | PosInf, _ => true
  | _, PosInf => false
  | NegInf, _ => false
  | Finite _, NegInf => true
  | Finite p, Finite q => negb (Qle_bool p q)
  end.


(** ** Strings *)

Definition code (c : ascii) : nat := nat_of_ascii c.

(** White space and line terminators removed by [String.prototype.trim]
    (TAB, LF, VT, FF, CR, SP, NBSP among the code units 0..255). *)
Definition is_white_space (c : ascii) : bool :=
  let n := code c in
  ((9 <=? n) && (n <=? 13)) || (n =? 32) || (n =? 160).

Fixpoint trimStart (s : string) : string :=
  match s with
  | EmptyString => EmptyString
  | String c s' => if is_white_space c then trimStart s' else s
  end.

Fixpoint trimEnd (s : string) : string :=
  match s with
  | EmptyString => EmptyString
  | String c s' =>
      match trimEnd s' with
      | EmptyString => if is_white_space c then EmptyString
                       else String c EmptyString
      | r => String c r
      end
  end.

(** [s.trim()] *)
Definition trim (s : string) : string := trimEnd (trimStart s).

(** Truthiness of a string: [Boolean(s)], [!!s]. *)
Definition truthy (s : string) : bool :=
  match s with EmptyString => false | _ => true end.

(** [s.startsWith(p)] *)
Fixpoint startsWith (s p : string) {struct p} : bool :=
  match p, s with
  | EmptyString, _ => true
  | String _ _, EmptyString => false
  | String a p', String b s' =>
      if Ascii.eqb a b then startsWith s' p' else false
  end.

(** [s.endsWith(p)]: [p] is one of the suffixes of [s]. *)
Fixpoint endsWith (s p : string) : bool :=
  if String.eqb s p then true
  else match s with
       | EmptyString => false
       | String _ s' => endsWith s' p
       end.

(** [s.includes(p)]: [p] starts at some position of [s]. *)
Fixpoint includes (s p : string) : bool :=
  if startsWith s p then true
  else match s with
       | EmptyString => false
       | String _ s' => includes s' p
       end.

(** [s.toLowerCase()] on the code units 0..255: A-Z, and the Latin-1
    capitals U+00C0..U+00DE except the multiplication sign U+00D7. *)
Definition lower_char (c : ascii) : ascii :=
  let n := code c in
  if ((65 <=? n) && (n <=? 90)) ||
     ((192 <=? n) && (n <=? 222) && negb (n =? 215))
  then ascii_of_nat (n + 32) else c.

Fixpoint toLowerCase (s : string) : string :=
  match s with
  | EmptyString => EmptyString
  | String c s' => String (lower_char c) (toLowerCase s')
  end.

(** [s.slice(0, n)] for an end index already resolved by [slice_end]. *)
Fixpoint take (n : nat) (s : string) : string :=
  match n, s with
  | S n', String c s' => String c (take n' s')
  | _, _ => EmptyString
  end.

(** [s.slice(n)] for [n] within the string. *)
Fixpoint skip (n : nat) (s : string) : string :=
  match n, s with
  | S n', String _ s' => skip n' s'
  | _, _ => s
  end.

Definition slice0 (s : string) (x : jsnum) : string :=
  take (slice_end (String.length s) x) s.

(** The line feed, ["\n"]. *)
Definition LF : string := String (ascii_of_nat 10) EmptyString.

(** [parts.join(sep)] *)
Definition join (sep : string) (parts : list string) : string :=
  String.concat sep parts.

(** ** [path.basename] (POSIX flavour of Node's [path] module): trailing
    slashes are ignored, the result is what follows the last remaining
    slash. *)

Definition is_slash (c : ascii) : bool := Ascii.eqb c "/"%char.

Fixpoint strip_trailing_slashes (s : string) : string :=
  match s with
  | EmptyString => EmptyString
  | String c s' =>
      match strip_trailing_slashes s' with
      | EmptyString => if is_slash c then EmptyString else String c EmptyString
      | r => String c r
      end
  end.

Fixpoint has_slash (s : string) : bool :=
  match s with
  | EmptyString => false
  | String c s' => is_slash c || has_slash s'
  end.

Fixpoint last_segment (s : string) : string :=
  match s with
  | EmptyString => EmptyString
  | String c s' =>
      if has_slash s' then last_segment s'
      else if is_slash c then s' else s
  end.

Definition basename (p : string) : string :=
  last_segment (strip_trailing_slashes p).

(** ** Regular-expression ingredients *)

(** [\w] without the [u] flag. *)
Definition is_word_char (c : ascii) : bool :=
  let n := code c in
  ((48 <=? n) && (n <=? 57)) || ((65 <=? n) && (n <=? 90)) ||
  ((97 <=? n) && (n <=? 122)) || (n =? 95).

(** Canonicalisation used by the [i] flag without the [u] flag: a code
    unit is compared through its upper-case form, and a code unit outside
    ASCII never becomes an ASCII one. *)
Definition canonicalize (c : ascii) : ascii :=
  let n := code c in
  if (97 <=? n) && (n <=? 122) then ascii_of_nat (n - 32) else c.

(** A literal pattern matched at the start of [s] under the [i] flag;
    the rest of the input on success. *)
Fixpoint match_literal_i (pat s : string) : option string :=
  match pat, s with
  | EmptyString, _ => Some s
  | String _ _, EmptyString => None
  | String a pat', String b s' =>
      if Ascii.eqb (canonicalize a) (canonicalize b)
      then match_literal_i pat' s' else None
  end.

(** The greedy class [[ \t]*]. *)
Fixpoint skip_blanks (s : string) : string :=
  match s with
  | String c s' =>
      if (code c =? 32) || (code c =? 9) then skip_blanks s' else s
  | EmptyString => EmptyString
  end.

End Js.

(* ====================================================================== *)
(** * mapWithConcurrency                                                   *)
(* ====================================================================== *)

Section MapWithConcurrency.

Context {T U E : Type}.

(** How the promise returned by one mapper call settles. *)
Inductive settled : Type :=
| Fulfilled (u : U)
| Rejected (e : E).

(** The state shared by the workers: the cursor [nextIndex], the [results]
    array (a hole is [None]), what each worker is waiting for
    ([Some i]: its [await mapper(items[i], i)] is pending, [None]: its loop
    has ended) and, as ghost state, the indices the mapper has been invoked
    with, in invocation order. *)
Record pool : Type := Pool {
  nextIndex : nat;
  results : list (option U);
  workers : list (option nat);
  calls : list nat;
}.

Variable items : list T.
Variable mapper : T → nat → settled.

(** One worker from the head of its [while] loop to its next [await], or
    to the end of the loop. *)
Definition worker_enter (w : nat) (st : pool) : pool :=
  if decide (nextIndex st < length items) then
    let currentIndex := nextIndex st in
    {| nextIndex := nextIndex st + 1;
       results := results st;
       workers := <[w := Some currentIndex]> (workers st);
       calls := calls st ++ [currentIndex] |}
  else
    {| nextIndex := nextIndex st;
       results := results st;
       workers := <[w := None]> (workers st);
       calls := calls st |}.

(** [worker()]: a new worker starts and runs to its first [await]. *)
Definition spawn_worker (st : pool) : pool :=
  worker_enter (length (workers st))
    {| nextIndex := nextIndex st;
       results := results st;
       workers := workers st ++ [None];
       calls := calls st |}.

(** The promise worker [w] awaits settles: on fulfilment the value is
    stored in the worker's own slot and the loop goes on, on rejection the
    worker throws. *)
Definition settle (w : nat) (st : pool) : E + pool :=
  match workers st !! w with
  | Some (Some currentIndex) =>
      match items !! currentIndex with
      | Some x =>
          match mapper x currentIndex with
          | Fulfilled u =>
              inr (worker_enter w
                     {| nextIndex := nextIndex st;
                        results := <[currentIndex := Some u]> (results st);
                        workers := workers st;
                        calls := calls st |})
          | Rejected e => inl e
          end
      | None => inr st
      end
  | _ => inr st
  end.

(** The workers with a pending [await], by worker number. *)
Fixpoint awaiting_from (k : nat) (ws : list (option nat)) : list nat :=
  match ws with
  | [] => []
  | Some _ :: ws' => k :: awaiting_from (S k) ws'
  | None :: ws' => awaiting_from (S k) ws'
  end.

Definition awaiting (st : pool) : list nat := awaiting_from 0 (workers st).

(** What [await Promise.all(...)] observes. *)
Inductive all_result : Type :=
| AllResolved (st : pool)
| AllRejected (e : E) (st : pool)
| AllPending (st : pool).

(** The event loop: while some worker awaits, the scheduler picks the
    one whose promise settles next ([sched t] at the [t]-th settlement,
    read modulo the number of waiting workers).  [Promise.all] resolves
    when every worker has returned and rejects at the first rejection. *)
Fixpoint run_workers (sched : nat → nat) (fuel t : nat) (st : pool)
  : all_result :=
  match awaiting st with
  | [] => AllResolved st
  | w0 :: ws =>
      match fuel with
      | 0 => AllPending st
      | S fuel' =>
          let w := nth (sched t mod length (w0 :: ws)) (w0 :: ws) w0 in
          match settle w st with
          | inl e => AllRejected e st
          | inr st' => run_workers sched fuel' (S t) st'
          end
      end
  end.

(** The promise [mapWithConcurrency] returns, with the mapper invocations
    made by the time it settles. *)
Inductive promise (A : Type) : Type :=
| Resolves (a : A) (invoked : list nat)
| Rejects (e : E) (invoked : list nat)
| NeverSettles.

Definition mapWithConcurrency (concurrency : Js.jsnum) (sched : nat → nat)
  : promise (list (option U)) :=
  if decide (length items = 0) then Resolves _ [] []
  else
    let effectiveConcurrency :=
      Js.Math_max (Js.of_nat 1) (Js.Math_floor concurrency) in
    let results0 : list (option U) := replicate (length items) None in
    let workerCount :=
      Js.Math_min effectiveConcurrency (Js.of_nat (length items)) in
    let st0 := Nat.iter (N.to_nat (Js.ToLength workerCount)) spawn_worker
                 {| nextIndex := 0; results := results0;
                    workers := []; calls := [] |} in
    match run_workers sched (length items) 0 st0 with
    | AllResolved st => Resolves _ (results st) (calls st)
    | AllRejected e st => Rejects _ e (calls st)
    | AllPending _ => NeverSettles _
    end.

(** A strictly sequential map, a [for] loop over the indices that awaits
    [mapper(items[i], i)] and pushes the value, the specification
    [mapWithConcurrency] is compared with. *)
Fixpoint sequentialMap_from (i : nat) (l : list T) (acc : list (option U))
  : promise (list (option U)) :=
  match l with
  | [] => Resolves _ acc (seq 0 i)
  | x :: l' =>
      match mapper x i with
      | Fulfilled u => sequentialMap_from (S i) l' (acc ++ [Some u])
      | Rejected e => Rejects _ e (seq 0 (S i))
      end
  end.

End MapWithConcurrency.

Arguments settled : clear implicits.
Arguments pool : clear implicits.
Arguments promise : clear implicits.
Arguments Resolves {E A}.
Arguments Rejects {E A}.
Arguments NeverSettles {E A}.

Definition sequentialMap {T U E} (items : list T)
    (mapper : T → nat → settled U E) : promise E (list (option U)) :=
  sequentialMap_from mapper 0 items [].

(** ** The invariant of the worker pool *)

Section PoolInvariant.

Context {T U E : Type}.
Variable items : list T.
Variable mapper : T → nat → settled U E.

(** [mapper(items[i], i)] fulfils with [u]. *)
Definition fulfils_with (i : nat) (u : U) : Prop :=
  ∃ x, items !! i = Some x ∧ mapper x i = Fulfilled u.

(** Every claimed index is either being awaited by a worker or already
    stored in its slot; unclaimed work keeps every worker alive; the
    mapper has been invoked once per claimed index, in index order. *)
Record pool_inv (st : pool U) : Prop := PoolInv {
  inv_next : nextIndex st ≤ length items;
  inv_length : length (results st) = length items;
  inv_calls : calls st = seq 0 (nextIndex st);
  inv_claimed : ∀ i, i < nextIndex st →
    (∃ w, workers st !! w = Some (Some i)) ∨
    (∃ u, results st !! i = Some (Some u) ∧ fulfils_with i u);
  inv_bound : ∀ w i, workers st !! w = Some (Some i) → i < nextIndex st;
  inv_alive : nextIndex st < length items →
    workers st ≠ [] ∧ ∀ w o, workers st !! w = Some o → is_Some o;
}.

(** Settlements still to come. *)
Definition remaining (st : pool U) : nat :=
  (length items - nextIndex st) + length (awaiting st).

End PoolInvariant.

(* ====================================================================== *)
(** * Configuration                                                        *)
(* ====================================================================== *)

Inductive ThinkingLevel : Type :=
| off | minimal | low | medium | high | xhigh.

Record CompactionModelConfig : Type := {
  cfg_provider : string;
  cfg_id : string;
  cfg_thinkingLevel : option ThinkingLevel;
}.

Record ExtensionConfig : Type := {
  compactionModels : list CompactionModelConfig;
  thinkingLevel : ThinkingLevel;
  debugCompactions : bool;
  toolResultMaxChars : Js.jsnum;
  toolCallPreviewChars : Js.jsnum;
  toolCallConcurrency : Js.jsnum;
  minSummaryChars : Js.jsnum;
}.

Definition DEFAULT_CONFIG : ExtensionConfig := {|
  compactionModels :=
    [ {| cfg_provider := "cerebras"; cfg_id := "qwen-3-32b";
         cfg_thinkingLevel := None |};
      {| cfg_provider := "anthropic"; cfg_id := "claude-haiku-4-5";
         cfg_thinkingLevel := None |} ];
  thinkingLevel := off;
  debugCompactions := false;
  toolResultMaxChars := Js.of_Z 50000;
  toolCallPreviewChars := Js.of_Z 60;
  toolCallConcurrency := Js.of_Z 6;
  minSummaryChars := Js.of_Z 100;
|}.

(** A value read from [config.json], as far as its [typeof] goes. *)
Inductive jsvalue : Type :=
| VUndefined
| VNull
| VBoolean (b : bool)
| VNumber (x : Js.jsnum)
| VString (s : string)
| VObject.

Definition parsePositiveNumber (value : jsvalue) (defaultValue : Js.jsnum)
  : Js.jsnum :=
  match value with
  | VNumber x => if Js.gt x (Js.of_nat 0) then x else defaultValue
  | _ => defaultValue
  end.

Definition parsePositiveInt (value : jsvalue) (defaultValue : Js.jsnum)
  : Js.jsnum :=
  match value with
  | VNumber x => if Js.gt x (Js.of_nat 0) then Js.Math_floor x
                 else defaultValue
  | _ => defaultValue
  end.

(* ====================================================================== *)
(** * Conversation analysis                                                *)
(* ====================================================================== *)

(** [LlmContentBlock]: every field is optional. *)
Record LlmContentBlock : Type := {
  block_type : option string;
  block_text : option string;
  block_id : option string;
  block_name : option string;
  block_arguments : option (gmap string jsvalue);
}.

(** [LlmMessage] *)
Record LlmMessage : Type := {
  role : option string;
  content : option (list LlmContentBlock);
  isError : option bool;
  toolCallId : option string;
}.

Record ToolCallInfo : Type := {
  name : string;
  args : gmap string jsvalue;
}.

Record DetectedFileOps : Type := {
  modifiedFiles : list string;
  deletedFiles : list string;
}.

(** [new Set(values)] spread back into an array: the values in the order
    of their first insertion. *)
Definition Set_of (values : list string) : list string :=
  foldl (λ acc v, if decide (v ∈ acc) then acc else acc ++ [v]) [] values.

Definition uniqStrings (values : list string) : list string :=
  Set_of (filter (λ v, Js.truthy v = true) (Js.trim <$> values)).

Definition extractTextFromLlmMessageContent
    (content : option (list LlmContentBlock)) : string :=
  match content with
  | None => EmptyString
  | Some blocks =>
      Js.trim
        (Js.join Js.LF
           (filter (λ t, Js.truthy t = true)
              ((λ b, if decide (block_type b = Some "text")
                     then default EmptyString (block_text b)
                     else EmptyString) <$> blocks)))
  end.

(** [trimmed.match(re)] for the regular expression of the source, flags
    [i] and [s]: from the start of the input the literal /compact, a word
    boundary, any number of spaces and tabs, then a group taking the rest
    up to the end of the input.  The result is the capture group on a
    match.  The literal is matched ignoring case, the boundary asks that
    no word character follows it, the blanks are skipped greedily and,
    with the [s] flag, the group takes all the rest. *)
Definition match_compact (trimmed : string) : option string :=
  match Js.match_literal_i "/compact" trimmed with
  | None => None
  | Some rest =>
      match rest with
      | String c _ =>
          if Js.is_word_char c then None else Some (Js.skip_blanks rest)
      | EmptyString => Some (Js.skip_blanks rest)
      end
  end.

(** The [for] loop of [extractUserCompactionNote] over the reversed user
    messages. *)
Fixpoint scan_for_note (reversed : list LlmMessage) : option string :=
  match reversed with
  | [] => None
  | msg :: rest =>
      let text := extractTextFromLlmMessageContent (content msg) in
      if negb (Js.truthy text) then scan_for_note rest
      else
        let trimmed := Js.trim text in
        match match_compact trimmed with
        | None => scan_for_note rest
        | Some group =>
            let note := Js.trim group in
            if 0 <? String.length note then Some note else None
        end
  end.

Definition extractUserCompactionNote (llmMessages : list LlmMessage)
  : option string :=
  let userMessages := filter (λ m, role m = Some "user") llmMessages in
  let reversed := reverse userMessages in
  scan_for_note reversed.

Definition isLikelyTempArtifactPath (filePath : string) : bool :=
  let normalized := Js.trim filePath in
  if negb (Js.truthy normalized) then false
  else
    let base := Js.toLowerCase (Js.basename normalized) in
    if Js.startsWith base "__tmp" then true
    else if Js.endsWith base ".tmp" then true
    else if Js.includes base ".tmp." then true
    else false.

(** The inner loop of [extractToolCallsFromMessages] over the blocks of
    one assistant message. *)
Definition index_block (toolCallsById : gmap string ToolCallInfo)
    (block : LlmContentBlock) : gmap string ToolCallInfo :=
  if decide (block_type block = Some "toolCall") then
    match block_id block, block_name block with
    | Some id, Some nm =>
        <[id := {| name := nm;
                   args := default ∅ (block_arguments block) |}]>
          toolCallsById
    | _, _ => toolCallsById
    end
  else toolCallsById.

Definition extractToolCallsFromMessages (llmMessages : list LlmMessage)
  : gmap string ToolCallInfo :=
  foldl (λ toolCallsById msg,
           if decide (role msg = Some "assistant")
           then foldl index_block toolCallsById (default [] (content msg))
           else toolCallsById)
        ∅ llmMessages.

Definition extractModifiedPathFromToolResult (msg : LlmMessage)
    (toolCallsById : gmap string ToolCallInfo) : option string :=
  match toolCallId msg with
  | None => None
  | Some toolCallId =>
      match toolCallsById !! toolCallId with
      | None => None
      | Some toolCall =>
          let toolName := name toolCall in
          if bool_decide (toolName ≠ "write") && bool_decide (toolName ≠ "edit")
          then None
          else match args toolCall !! "path" with
               | Some (VString p) => Some p
               | _ => None
               end
      end
  end.

(** The paths pushed to [modifiedFiles] by the loop of
    [detectFileOpsFromConversation]. *)
Definition collect_modified (toolCallsById : gmap string ToolCallInfo)
    (llmMessages : list LlmMessage) : list string :=
  foldl (λ modifiedFiles msg,
           if bool_decide (role msg ≠ Some "toolResult")
              || default false (isError msg)
           then modifiedFiles
           else match extractModifiedPathFromToolResult msg toolCallsById with
                | Some modifiedPath =>
                    if Js.truthy modifiedPath
                    then modifiedFiles ++ [modifiedPath]
                    else modifiedFiles
                | None => modifiedFiles
                end)
        [] llmMessages.

Definition detectFileOpsFromConversation (llmMessages : list LlmMessage)
  : DetectedFileOps :=
  let toolCallsById := extractToolCallsFromMessages llmMessages in
  let modifiedFiles := collect_modified toolCallsById llmMessages in
  let deletedFiles : list string := [] in
  let deleted := uniqStrings deletedFiles in
  let modified :=
    filter (λ p, ¬ p ∈ deleted) (uniqStrings modifiedFiles) in
  {| modifiedFiles := modified; deletedFiles := deleted |}.

(* ====================================================================== *)
(** * Definitions that follow the words of the specification              *)
(* ====================================================================== *)

(** "starts with", "ends with", "contains the substring". *)
Definition starts_with (s p : string) : Prop := ∃ r, s = p +:+ r.
Definition ends_with (s p : string) : Prop := ∃ r, s = r +:+ p.
Definition contains (s p : string) : Prop := ∃ a b, s = a +:+ p +:+ b.

(** The temp-artifact test on a case-folded basename. *)
Definition temp_like (base : string) : Prop :=
  starts_with base "__tmp" ∨ ends_with base ".tmp" ∨ contains base ".tmp.".

(** The temp-artifact classification read on the path as it is given:
    the basename of the path, case-folded. *)
Definition claimed_temp_artifact (filePath : string) : Prop :=
  temp_like (Js.toLowerCase (Js.basename filePath)).

(** Deduplication that keeps first occurrences, in their order. *)
Fixpoint dedup_first (l : list string) : list string :=
  match l with
  | [] => []
  | x :: l' => x :: filter (λ y, y ≠ x) (dedup_first l')
  end.

(** The string-valued "path" argument of the indexed "write" or "edit"
    call a tool-result message answers, unless the message signals
    failure or its linkage id is not indexed. *)
Definition mutated_path (index : gmap string ToolCallInfo)
    (msg : LlmMessage) : option string :=
  if decide (role msg = Some "toolResult" ∧ isError msg ≠ Some true) then
    id ← toolCallId msg;
    call ← index !! id;
    if decide (name call = "write" ∨ name call = "edit") then
      match args call !! "path" with
      | Some (VString p) => Some p
      | _ => None
      end
    else None
  else None.

(** [modifiedFiles] as the specification words it: the deduplicated
    mutated paths, those also present in [deleted] removed. *)
Definition claimed_modifiedFiles (llmMessages : list LlmMessage)
    (deleted : list string) : list string :=
  filter (λ p, p ∉ deleted)
    (dedup_first
       (omap (mutated_path (extractToolCallsFromMessages llmMessages))
             llmMessages)).

(** The trimmed text of a message. *)
Definition trimmed_text (msg : LlmMessage) : string :=
  Js.trim (extractTextFromLlmMessageContent (content msg)).

(** "The case-insensitive prefix /compact": the first eight code units,
    case-folded. *)
Definition has_compact_prefix (trimmed : string) : bool :=
  bool_decide (Js.toLowerCase (Js.take 8 trimmed) = "/compact").

(** The note of a message that carries the command: the remainder,
    trimmed; no note when that is empty. *)
Definition note_of (trimmed : string) : option string :=
  let note := Js.trim (Js.skip 8 trimmed) in
  if Js.truthy note then Some note else None.

(** User-note extraction as the specification words it: the most recent
    user message with the prefix decides. *)
Fixpoint claimed_scan (reversed : list LlmMessage) : option string :=
  match reversed with
  | [] => None
  | msg :: rest =>
      if has_compact_prefix (trimmed_text msg)
      then note_of (trimmed_text msg)
      else claimed_scan rest
  end.

Definition claimed_extractUserCompactionNote (llmMessages : list LlmMessage)
  : option string :=
  claimed_scan (reverse (filter (λ m, role m = Some "user") llmMessages)).

(** The command as the code recognises it: the prefix, not followed by a
    letter, a digit or an underscore. *)
Definition is_compact_command (trimmed : string) : bool :=
  has_compact_prefix trimmed &&
  match Js.skip 8 trimmed with
  | String c _ => negb (Js.is_word_char c)
  | EmptyString => true
  end.

(** "The concatenation of the text blocks". *)
Definition concatenation (texts : list string) : string :=
  String.concat EmptyString texts.

(** A pattern character is well behaved when matching it under the [i]
    flag is the same as comparing with the case-folded input. *)
Fixpoint folded_pattern (pat : string) : Prop :=
  match pat with
  | EmptyString => True
  | String a pat' =>
      (∀ b, Ascii.eqb (Js.canonicalize a) (Js.canonicalize b)
            = Ascii.eqb (Js.lower_char b) a) ∧
      folded_pattern pat'
  end.

(* ====================================================================== *)
(** * Sample conversations                                                 *)
(* ====================================================================== *)

Definition text_block (text : string) : LlmContentBlock :=
  {| block_type := Some "text"; block_text := Some text;
     block_id := None; block_name := None; block_arguments := None |}.

Definition tool_call_block (id name path : string) : LlmContentBlock :=
  {| block_type := Some "toolCall"; block_text := None;
     block_id := Some id; block_name := Some name;
     block_arguments := Some {[ "path" := VString path ]} |}.

Definition user_message (text : string) : LlmMessage :=
  {| role := Some "user"; content := Some [text_block text];
     isError := None; toolCallId := None |}.

Definition assistant_message (blocks : list LlmContentBlock) : LlmMessage :=
  {| role := Some "assistant"; content := Some blocks;
     isError := None; toolCallId := None |}.

Definition tool_result_message (id : string) (failed : bool) : LlmMessage :=
  {| role := Some "toolResult"; content := Some [];
     isError := Some failed; toolCallId := Some id |}.

(* ====================================================================== *)
(** * Model selection                                                      *)
(* ====================================================================== *)

Section ModelSelection.

(** [Model<Api>] comes from the completion library; the code reads its
    [provider] and [id]. *)
Context {Model : Type}.
Variable model_provider : Model → string.
Variable model_id : Model → string.

(** [ModelRegistry]: [getApiKey] yields [None] for [undefined]. *)
Record ModelRegistry : Type := {
  getAll : list Model;
  getApiKey : Model → option string;
}.

Record ModelSelection : Type := {
  model : Model;
  apiKey : string;
  sel_thinkingLevel : ThinkingLevel;
}.

Variable CONFIG : ExtensionConfig.
Variable modelRegistry : ModelRegistry.

(** [getAll().find((m) => m.provider === cfg.provider && m.id === cfg.id)] *)
Definition find_registered (cfg : CompactionModelConfig) : option Model :=
  snd <$> list_find
    (λ m, model_provider m = cfg_provider cfg ∧ model_id m = cfg_id cfg)
    (getAll modelRegistry).

(** The [for] loop over [CONFIG.compactionModels]. *)
Fixpoint select_configured (candidates : list CompactionModelConfig)
  : option ModelSelection :=
  match candidates with
  | [] => None
  | cfg :: rest =>
      match find_registered cfg with
      | None => select_configured rest
      | Some registryModel =>
          match getApiKey modelRegistry registryModel with
          | Some key =>
              if Js.truthy key then
                Some {| model := registryModel;
                        apiKey := key;
                        sel_thinkingLevel :=
                          default (thinkingLevel CONFIG)
                                  (cfg_thinkingLevel cfg) |}
              else select_configured rest
          | None => select_configured rest
          end
      end
  end.

Definition selectCompactionModel (sessionModel : option Model)
  : option ModelSelection :=
  match select_configured (compactionModels CONFIG) with
  | Some selection => Some selection
  | None =>
      match sessionModel with
      | Some sessionModel =>
          match getApiKey modelRegistry sessionModel with
          | Some key =>
              if Js.truthy key then
                Some {| model := sessionModel;
                        apiKey := key;
                        sel_thinkingLevel := thinkingLevel CONFIG |}
              else None
          | None => None
          end
      | None => None
      end
  end.

End ModelSelection.

Arguments ModelRegistry : clear implicits.
Arguments ModelSelection : clear implicits.

(* ====================================================================== *)
(** * Tool execution                                                       *)
(* ====================================================================== *)

(** What [bash.exec] returns. *)
Record BashExecResult : Type := {
  stdout : string;
  stderr : string;
  exitCode : Z;
}.

(** A thrown value: an [Error] with its message, or anything else with
    its [String(...)] form. *)
Inductive thrown : Type :=
| ThrownError (message : string)
| ThrownOther (asString : string).

(** The sandbox: constructing the interpreter on the file snapshot and
    running one command either returns or throws. *)
Inductive exec_outcome : Type :=
| ExecReturns (r : BashExecResult)
| ExecThrows (error : thrown).

(** What [tc.arguments.command] holds in a block of a provider response.
    The blocks are kept by [isToolCallContent], which looks at [type]
    only, so the command need not be the string the interface declares.
    An array is given by the texts its elements are joined with;
    [CommandObject] is an object that is not an array. *)
Inductive CommandValue : Type :=
| CommandString (command : string)
| CommandArray (rendered : list string)
| CommandUndefined
| CommandNull
| CommandBoolean (b : bool)
| CommandNumber (x : Js.jsnum)
| CommandObject.

(** [tc.arguments]: missing, [null], or a value whose property [command]
    holds what is given ([CommandUndefined] when it has none). *)
Inductive ToolArguments : Type :=
| ArgumentsUndefined
| ArgumentsNull
| Arguments (command : CommandValue).

(** [ToolCallContent].  [id] and [name] are copied into the notification
    and the tool-result turn and never inspected. *)
Record ToolCallContent : Type := {
  tc_id : string;
  tc_name : string;
  tc_arguments : ToolArguments;
}.

Record ToolCallExecResult : Type := {
  result : string;
  isErrorFlag : bool;
}.

Inductive level : Type := info | warning.

(** [try { body } catch (error) { handler }] for a body that returns a
    value or throws. *)
Definition try_catch {A : Type} (body : thrown + A) (handler : thrown → A)
  : A :=
  match body with
  | inr a => a
  | inl error => handler error
  end.

(** Sequencing of two steps the first of which may throw. *)
Definition and_then {A B : Type} (x : thrown + A) (f : A → thrown + B)
  : thrown + B :=
  match x with
  | inl error => inl error
  | inr a => f a
  end.

(** [const { command } = tc.arguments]: the TypeError of a missing or
    [null] [arguments], in the engine's words. *)
Definition destructure_command (tc : ToolCallContent)
  : thrown + CommandValue :=
  match tc_arguments tc with
  | ArgumentsUndefined =>
      inl (ThrownError
             "Cannot destructure property 'command' of 'tc.arguments' as it is undefined.")
  | ArgumentsNull =>
      inl (ThrownError
             "Cannot destructure property 'command' of 'tc.arguments' as it is null.")
  | Arguments command => inr command
  end.

Section ToolExecution.

Variable CONFIG : ExtensionConfig.
Variable bash_exec : gmap string string → CommandValue → exec_outcome.

Definition executeSingleToolCall (tc : ToolCallContent)
    (bashFiles : gmap string string)
  : settled ToolCallExecResult thrown :=
  match destructure_command tc with
  | inl error => Rejected error
  | inr command =>
      let '(result, isError) :=
        try_catch
          (match bash_exec bashFiles command with
           | ExecThrows error => inl error
           | ExecReturns r =>
               let result :=
                 stdout r +:+
                 (if Js.truthy (stderr r)
                  then Js.LF +:+ "stderr: " +:+ stderr r else EmptyString) in
               let '(result, isError) :=
                 if decide (exitCode r ≠ 0%Z)
                 then (result +:+ Js.LF +:+ "exit code: " +:+
                       pretty (exitCode r), true)
                 else (result, false) in
               let result := Js.slice0 result (toolResultMaxChars CONFIG) in
               inr (result, isError)
           end)
          (λ error,
             let errorMessage :=
               match error with
               | ThrownError message => message
               | ThrownOther asString => asString
               end in
             ("Error: " +:+ errorMessage, true)) in
      Fulfilled {| result := result; isErrorFlag := isError |}
  end.

(** [command.slice(0, n)] as the template literal renders it, together
    with [command.length]: strings and arrays have both; reading [slice]
    of [undefined] or [null] throws, and so does calling what is not a
    function. *)
Definition slice_preview (command : CommandValue) (n : Js.jsnum)
  : thrown + (string * nat) :=
  match command with
  | CommandString s => inr (Js.slice0 s n, String.length s)
  | CommandArray rendered =>
      inr (Js.join "," (take (Js.slice_end (length rendered) n) rendered),
           length rendered)
  | CommandUndefined =>
      inl (ThrownError "Cannot read properties of undefined (reading 'slice')")
  | CommandNull =>
      inl (ThrownError "Cannot read properties of null (reading 'slice')")
  | CommandBoolean _ | CommandNumber _ | CommandObject =>
      inl (ThrownError "command.slice is not a function")
  end.

(** The synchronous part of the mapper of [executeToolCalls]: the
    notification it emits before it dispatches [tc], or what it throws
    before emitting any. *)
Definition dispatch_notification (tc : ToolCallContent)
  : thrown + (string * level) :=
  and_then (destructure_command tc) (λ command,
  and_then (slice_preview command (toolCallPreviewChars CONFIG))
    (λ '(preview, length),
  let suffix :=
    if Js.gt (Js.of_nat length) (toolCallPreviewChars CONFIG)
    then "..." else EmptyString in
  inr (tc_name tc +:+ ": " +:+ preview +:+ suffix, info))).

(** The mapper of [executeToolCalls]: a throw of its synchronous part
    rejects the worker that called it. *)
Definition tool_mapper (bashFiles : gmap string string)
    (tc : ToolCallContent) : settled ToolCallExecResult thrown :=
  match dispatch_notification tc with
  | inl error => Rejected error
  | inr _ => executeSingleToolCall tc bashFiles
  end.

(** [executeToolCalls]: the promise of [mapWithConcurrency] and the
    notifications sent, one per mapper invocation that got as far as
    [notifyFn], in invocation order. *)
Definition executeToolCalls (toolCalls : list ToolCallContent)
    (bashFiles : gmap string string) (sched : nat → nat)
  : promise thrown (list (option ToolCallExecResult)) :=
  mapWithConcurrency toolCalls
    (λ tc _, tool_mapper bashFiles tc)
    (toolCallConcurrency CONFIG) sched.

(** The notification of one mapper invocation, if it got as far as
    [notifyFn]. *)
Definition notification_of (tc : ToolCallContent) : option (string * level) :=
  match dispatch_notification tc with
  | inr notification => Some notification
  | inl _ => None
  end.

Definition notifications_of (toolCalls : list ToolCallContent)
    (invoked : list nat) : list (string * level) :=
  omap (λ i, toolCalls !! i ≫= notification_of) invoked.

End ToolExecution.

(* ====================================================================== *)
(** * The agent loop                                                       *)
(* ====================================================================== *)

Section AgentLoop.

(** What a response carries besides its content ([api], [provider],
    [model], [usage], [stopReason]); the loop copies it and never reads
    it.  Timestamps ([Date.now()]) are left out of the messages. *)
Context {Meta : Type}.

Inductive Content : Type :=
| TextContent (text : string)
| ThinkingContent (thinking : string)
| ToolCall (tc : ToolCallContent).

Definition isToolCallContent (c : Content) : bool :=
  match c with ToolCall _ => true | _ => false end.

Definition isTextContent (c : Content) : bool :=
  match c with TextContent _ => true | _ => false end.

Record AssistantResponse : Type := {
  resp_content : list Content;
  resp_meta : Meta;
}.

Inductive Message : Type :=
| AssistantMessage (content : list Content) (meta : option Meta)
| ToolResultMessage (toolCallId toolName text : string) (isError : bool).

(** [await complete(...)] returns a response or throws. *)
Inductive completion : Type :=
| Completes (response : AssistantResponse)
| CompleteThrows (error : thrown).

(** The collaborators of one loop.  [signal_aborted t] is
    [signal.aborted] as read at logical time [t].  [complete signal k
    messages] answers the [k]-th completion request: the provider is
    handed the signal with the options and may make of it what it wants
    (model, system prompt, tools, key and reasoning level are the same in
    every request).  [tool_sched k] schedules the settlements of the tool
    batch that follows the [k]-th request. *)
Record Environment : Type := {
  complete : (nat → bool) → nat → list Message → completion;
  bash_exec : gmap string string → CommandValue → exec_outcome;
  tool_sched : nat → nat → nat;
  signal_aborted : nat → bool;
}.

(** The state of the loop.  [messages] and [trajectory] are the two
    arrays of the source; the rest is ghost state: the notifications sent,
    the number of completion requests issued, a logical clock advanced by
    every awaited settlement, and the clock values at which the signal was
    read. *)
Record LoopState : Type := {
  messages : list Message;
  trajectory : list Message;
  notified : list (string * level);
  requests : nat;
  now : nat;
  polls : list nat;
}.

Inductive outcome : Type :=
| Done (summary : string)
| Aborted
| Failed (error : thrown)
| Running.

Inductive step : Type :=
| Continue (st : LoopState)
| Stop (o : outcome) (st : LoopState).

Variable CONFIG : ExtensionConfig.
Variable bashFiles : gmap string string.
Variable env : Environment.

Definition initial_state : LoopState :=
  {| messages := []; trajectory := []; notified := [];
     requests := 0; now := 0; polls := [] |}.

Definition undefined_result : thrown :=
  ThrownError "Cannot read properties of undefined (reading 'result')".

(** The [for] loop that turns the results into tool-result turns: turn
    [i] is built from [toolCalls[i]] and [results[i]]. *)
Fixpoint result_turns (i : nat) (toolCalls : list ToolCallContent)
    (results : list (option ToolCallExecResult)) : thrown + list Message :=
  match toolCalls with
  | [] => inr []
  | tc :: rest =>
      match results !! i with
      | Some (Some r) =>
          match result_turns (S i) rest results with
          | inr turns =>
              inr (ToolResultMessage (tc_id tc) (tc_name tc) (result r)
                     (isErrorFlag r) :: turns)
          | inl e => inl e
          end
      | _ => inl undefined_result
      end
  end.

(** The branch [toolCalls.length > 0]: the assistant turn is appended,
    the batch is dispatched and awaited as a whole, the tool-result turns
    are appended. *)
Definition executing (st : LoopState) (response : AssistantResponse)
    (toolCalls : list ToolCallContent) : step :=
  let assistantMsg :=
    AssistantMessage (resp_content response) (Some (resp_meta response)) in
  let st1 :=
    {| messages := messages st ++ [assistantMsg];
       trajectory := trajectory st ++ [assistantMsg];
       notified := notified st;
       requests := requests st; now := now st; polls := polls st |} in
  match executeToolCalls CONFIG (bash_exec env) toolCalls bashFiles
          (tool_sched env (requests st)) with
  | Resolves results invoked =>
      let st2 :=
        {| messages := messages st1; trajectory := trajectory st1;
           notified := notified st1 ++
                       notifications_of CONFIG toolCalls invoked;
           requests := requests st1;
           now := now st1 + length invoked;
           polls := polls st1 |} in
      match result_turns 0 toolCalls results with
      | inr turns =>
          Continue
            {| messages := messages st2 ++ turns;
               trajectory := trajectory st2 ++ turns;
               notified := notified st2; requests := requests st2;
               now := now st2; polls := polls st2 |}
      | inl e => Stop (Failed e) st2
      end
  | Rejects e invoked =>
      Stop (Failed e)
        {| messages := messages st1; trajectory := trajectory st1;
           notified := notified st1 ++
                       notifications_of CONFIG toolCalls invoked;
           requests := requests st1;
           now := now st1 + length invoked;
           polls := polls st1 |}
  | NeverSettles => Stop Running st1
  end.

Definition tool_calls_of (content : list Content) : list ToolCallContent :=
  omap (λ c, match c with ToolCall tc => Some tc | _ => None end) content.

Definition texts_of (content : list Content) : list string :=
  omap (λ c, match c with TextContent text => Some text | _ => None end)
       content.

(** One turn of the [while (true)] loop. *)
Definition requesting (st : LoopState) : step :=
  let st0 :=
    {| messages := messages st; trajectory := trajectory st;
       notified := notified st; requests := requests st;
       now := now st; polls := polls st ++ [now st] |} in
  if signal_aborted env (now st) then Stop Aborted st0
  else
    let st1 :=
      {| messages := messages st0; trajectory := trajectory st0;
         notified := notified st0; requests := requests st0 + 1;
         now := now st0 + 1; polls := polls st0 |} in
    match complete env (signal_aborted env) (requests st) (messages st) with
    | CompleteThrows error => Stop (Failed error) st1
    | Completes response =>
        let toolCalls := tool_calls_of (resp_content response) in
        if 0 <? length toolCalls then executing st1 response toolCalls
        else
          let summary :=
            Js.trim (Js.join Js.LF (texts_of (resp_content response))) in
          Stop (Done summary)
            {| messages := messages st1;
               trajectory := trajectory st1 ++
                 [AssistantMessage (resp_content response) None];
               notified := notified st1; requests := requests st1;
               now := now st1; polls := polls st1 |}
    end.

Fixpoint agent_loop (fuel : nat) (st : LoopState) : outcome * LoopState :=
  match fuel with
  | 0 => (Running, st)
  | S fuel' =>
      match requesting st with
      | Continue st' => agent_loop fuel' st'
      | Stop o st' => (o, st')
      end
  end.

Definition runAgentLoop (fuel : nat) : outcome * LoopState :=
  agent_loop fuel initial_state.

(** [Promise<string | undefined>]: the value the promise of
    [runAgentLoop] resolves with, if it resolves. *)
Definition resolved_value (o : outcome) : option (option string) :=
  match o with
  | Done summary => Some (Some summary)
  | Aborted => Some None
  | Failed _ | Running => None
  end.

End AgentLoop.

Arguments Content : clear implicits.
Arguments AssistantResponse : clear implicits.
Arguments Message : clear implicits.
Arguments completion : clear implicits.
Arguments Environment : clear implicits.
Arguments LoopState : clear implicits.
Arguments step : clear implicits.

(* ====================================================================== *)
(** * Model selection in the words of the specification                   *)
(* ====================================================================== *)

Section UsableCandidates.

Context {Model : Type}.
Variable model_provider : Model → string.
Variable model_id : Model → string.
Variable modelRegistry : ModelRegistry Model.

(** [m] is the registered model the lookup by provider and id finds for
    the candidate: the first model of the registry with both. *)
Definition registered_match (cfg : CompactionModelConfig) (m : Model) : Prop :=
  ∃ i, getAll modelRegistry !! i = Some m ∧
       (model_provider m = cfg_provider cfg ∧ model_id m = cfg_id cfg) ∧
       ∀ j m', getAll modelRegistry !! j = Some m' → j < i →
               ¬ (model_provider m' = cfg_provider cfg ∧
                  model_id m' = cfg_id cfg).

(** The credential of [m] is present and not empty. *)
Definition credential_present (m : Model) (key : string) : Prop :=
  getApiKey modelRegistry m = Some key ∧ key ≠ EmptyString.

(** A candidate is usable when it has both. *)
Definition usable (cfg : CompactionModelConfig) : Prop :=
  ∃ m key, registered_match cfg m ∧ credential_present m key.

(** Model selection as the specification words it: a credential counts
    as soon as it is not absent. *)
Fixpoint claimed_select_configured (CONFIG : ExtensionConfig)
    (candidates : list CompactionModelConfig)
  : option (ModelSelection Model) :=
  match candidates with
  | [] => None
  | cfg :: rest =>
      match find_registered model_provider model_id modelRegistry cfg with
      | Some registryModel =>
          match getApiKey modelRegistry registryModel with
          | Some key =>
              Some {| model := registryModel; apiKey := key;
                      sel_thinkingLevel :=
                        default (thinkingLevel CONFIG)
                                (cfg_thinkingLevel cfg) |}
          | None => claimed_select_configured CONFIG rest
          end
      | None => claimed_select_configured CONFIG rest
      end
  end.

Definition claimed_selectCompactionModel (CONFIG : ExtensionConfig)
    (sessionModel : option Model) : option (ModelSelection Model) :=
  match claimed_select_configured CONFIG (compactionModels CONFIG) with
  | Some selection => Some selection
  | None =>
      session ← sessionModel;
      key ← getApiKey modelRegistry session;
      Some {| model := session; apiKey := key;
              sel_thinkingLevel := thinkingLevel CONFIG |}
  end.

End UsableCandidates.

(** A registry whose only model has an empty key, while the session
    model has a key. *)
Definition empty_key_registry : ModelRegistry (string * string) :=
  {| getAll := [("cerebras", "qwen-3-32b")];
     getApiKey := λ m, if decide (m.1 = "cerebras")
                       then Some EmptyString else Some "session-key" |}.

(** A registry of two models, given by provider and id, the second of
    which has a key. *)
Definition sample_registry : ModelRegistry (string * string) :=
  {| getAll := [("cerebras", "qwen-3-32b"); ("anthropic", "claude-haiku-4-5")];
     getApiKey := λ m, if decide (m.1 = "anthropic")
                       then Some "anthropic-key" else None |}.

(* ====================================================================== *)
(** * Loaded configurations and sample environments                       *)
(* ====================================================================== *)

(** What [loadConfig] guarantees about [toolCallConcurrency]: it is the
    default or comes out of [parsePositiveInt]. *)
Definition config_loaded (CONFIG : ExtensionConfig) : Prop :=
  ∃ value, toolCallConcurrency CONFIG
           = parsePositiveInt value (toolCallConcurrency DEFAULT_CONFIG).

(** A tool call as the mapper of [executeToolCalls] can take it: its
    command has a [slice] method and a [length], that is, it is a string
    (what the interface declares) or an array. *)
Definition command_sliceable (tc : ToolCallContent) : Prop :=
  match tc_arguments tc with
  | Arguments (CommandString _) | Arguments (CommandArray _) => True
  | _ => False
  end.

(** The tool-result turn of one call, as the loop builds it from the
    settled execution of that call. *)
Definition tool_result_turn {Meta : Type} (CONFIG : ExtensionConfig)
    (exec : gmap string string → CommandValue → exec_outcome)
    (bashFiles : gmap string string) (tc : ToolCallContent)
    (turn : Message Meta) : Prop :=
  ∃ r, executeSingleToolCall CONFIG exec tc bashFiles = Fulfilled r ∧
       turn = ToolResultMessage (tc_id tc) (tc_name tc) (result r)
                (isErrorFlag r).

(** The same collaborators with another cancellation signal. *)
Definition with_signal {Meta : Type} (env : Environment Meta)
    (signal : nat → bool) : Environment Meta :=
  {| complete := complete env; bash_exec := bash_exec env;
     tool_sched := tool_sched env; signal_aborted := signal |}.

(** The summary of a text-only response. *)
Definition summary_of {Meta : Type} (response : AssistantResponse Meta)
  : string :=
  Js.trim (Js.join Js.LF (texts_of (resp_content response))).

Definition with_limits (maxChars concurrency : Z) : ExtensionConfig :=
  {| compactionModels := compactionModels DEFAULT_CONFIG;
     thinkingLevel := thinkingLevel DEFAULT_CONFIG;
     debugCompactions := debugCompactions DEFAULT_CONFIG;
     toolResultMaxChars := Js.of_Z maxChars;
     toolCallPreviewChars := toolCallPreviewChars DEFAULT_CONFIG;
     toolCallConcurrency := Js.of_Z concurrency;
     minSummaryChars := minSummaryChars DEFAULT_CONFIG |}.

(** A sandbox that echoes a command that is a string, fails on the
    command "false", and throws on anything that is not a string. *)
Definition echo_exec (files : gmap string string) (command : CommandValue)
  : exec_outcome :=
  match command with
  | CommandString command =>
      ExecReturns
        {| stdout := command; stderr := EmptyString;
           exitCode := if decide (command = "false") then 1%Z else 0%Z |}
  | _ => ExecThrows (ThrownError "the command is not a string")
  end.

(** A sandbox that throws. *)
Definition throwing_exec (files : gmap string string)
    (command : CommandValue) : exec_outcome :=
  ExecThrows (ThrownError "command failed").

Definition sample_call (id command : string) : ToolCallContent :=
  {| tc_id := id; tc_name := "bash";
     tc_arguments := Arguments (CommandString command) |}.

(** A tool-call block whose [arguments] is the empty object. *)
Definition call_without_command (id : string) : ToolCallContent :=
  {| tc_id := id; tc_name := "bash";
     tc_arguments := Arguments CommandUndefined |}.

Definition sample_files : gmap string string :=
  {[ "/conversation.json" := "[]" ]}.

(** A provider that first asks for two commands, then answers with two
    text blocks, and pays no attention to the signal; the second command
    of a batch settles first; the signal is given apart. *)
Definition sample_env (signal : nat → bool) : Environment unit :=
  {| complete := λ _ k _,
       match k with
       | 0 => Completes
                {| resp_content :=
                     [ToolCall (sample_call "first" "jq length /conversation.json");
                      ToolCall (sample_call "second" "false")];
                   resp_meta := tt |}
       | _ => Completes
                {| resp_content := [TextContent "## Summary";
                                    ThinkingContent "done";
                                    TextContent "All good. "];
                   resp_meta := tt |}
       end;
     bash_exec := echo_exec;
     tool_sched := λ _ _, 1;
     signal_aborted := signal |}.

(** A provider that honours the signal it is handed: it asks for one
    command, and answers the second request with a summary unless the
    signal is raised at the instant that request would settle, in which
    case it throws. *)
Definition signal_honouring_env (signal : nat → bool) : Environment unit :=
  {| complete := λ handed k _,
       match k with
       | 0 => Completes
                {| resp_content := [ToolCall (sample_call "only" "jq .")];
                   resp_meta := tt |}
       | _ => if handed 3
              then CompleteThrows (ThrownError "Request was aborted")
              else Completes {| resp_content := [TextContent "summary"];
                                resp_meta := tt |}
       end;
     bash_exec := echo_exec;
     tool_sched := λ _ _, 0;
     signal_aborted := signal |}.

(* ====================================================================== *)
(** * The worker pool over time                                            *)
(* ====================================================================== *)

(** [workerCount]: the number of workers [mapWithConcurrency] starts for
    [n] items. *)
Definition workerCount (n : nat) (concurrency : Js.jsnum) : nat :=
  N.to_nat
    (Js.ToLength
       (Js.Math_min (Js.Math_max (Js.of_nat 1) (Js.Math_floor concurrency))
                    (Js.of_nat n))).

Section PoolReachability.

Context {T U E : Type}.
Variable items : list T.
Variable mapper : T → nat → settled U E.

(** The states the pool goes through with [k] workers: the state after
    the synchronous start-up, then one settlement after the other, of
    whichever pending promise. *)
Inductive reachable (k : nat) : pool U → Prop :=
| reachable_start :
    reachable k
      (Nat.iter k (spawn_worker items)
         {| nextIndex := 0; results := replicate (length items) None;
            workers := []; calls := [] |})
| reachable_settle (st st' : pool U) (w : nat) :
    reachable k st → settle items mapper w st = inr st' → reachable k st'.

(** What [mapWithConcurrency] makes of the end of the event loop. *)
Definition promise_of (r : all_result (U:=U) (E:=E))
  : promise E (list (option U)) :=
  match r with
  | AllResolved st => Resolves (results st) (calls st)
  | AllRejected e st => Rejects e (calls st)
  | AllPending _ => NeverSettles
  end.

End PoolReachability.

(* ====================================================================== *)
(** * The tool calls of a conversation, in order                          *)
(* ====================================================================== *)

(** What a block adds to the index of tool calls: its id and its record,
    when it is a tool call with an id and a name. *)
Definition block_entry (block : LlmContentBlock)
  : option (string * ToolCallInfo) :=
  if decide (block_type block = Some "toolCall") then
    id ← block_id block;
    nm ← block_name block;
    Some (id, {| name := nm; args := default ∅ (block_arguments block) |})
  else None.

(** The entries of the assistant messages, in conversation order. *)
Definition tool_call_entries (llmMessages : list LlmMessage)
  : list (string * ToolCallInfo) :=
  llmMessages ≫= λ msg,
    if decide (role msg = Some "assistant")
    then omap block_entry (default [] (content msg))
    else [].

(** [getUserCompactionNote]: a non-blank string passed as custom
    instructions wins over the conversation. *)
Definition getUserCompactionNote (customInstructions : jsvalue)
    (llmMessages : list LlmMessage) : option string :=
  match customInstructions with
  | VString s =>
      if 0 <? String.length (Js.trim s) then Some (Js.trim s)
      else extractUserCompactionNote llmMessages
  | _ => extractUserCompactionNote llmMessages
  end.

(* ====================================================================== *)
(** * Transcripts of the agent loop                                        *)
(* ====================================================================== *)

Section Transcripts.

Context {Meta : Type}.
Variable CONFIG : ExtensionConfig.
Variable exec : gmap string string → CommandValue → exec_outcome.
Variable bashFiles : gmap string string.

(** A transcript made of whole rounds: an assistant turn that asks for at
    least one command, followed by the tool-result turns of exactly its
    calls, in call order. *)
Inductive paired_transcript : list (Message Meta) → Prop :=
| paired_empty : paired_transcript []
| paired_round (ms : list (Message Meta)) (content : list Content)
    (meta : Meta) (turns : list (Message Meta)) :
    paired_transcript ms →
    tool_calls_of content ≠ [] →
    Forall2 (tool_result_turn CONFIG exec bashFiles)
            (tool_calls_of content) turns →
    paired_transcript (ms ++ AssistantMessage content (Some meta) :: turns).

(** The notifications the assistant turns of a transcript give rise to:
    one per tool call, in the order of the calls. *)
Definition notifications_for (ms : list (Message Meta))
  : list (string * level) :=
  ms ≫= λ m,
    match m with
    | AssistantMessage content _ =>
        omap (notification_of CONFIG) (tool_calls_of content)
    | ToolResultMessage _ _ _ _ => []
    end.

End Transcripts.


(* ====================================================================== *)
(** * Loading the configuration                                            *)
(* ====================================================================== *)

(** The values [JSON.parse] produces.  An object keeps its members in the
    order of the text. *)
Inductive json : Type :=
| JNull
| JBoolean (b : bool)
| JNumber (x : Js.jsnum)
| JString (s : string)
| JArray (elements : list json)
| JObject (members : list (string * json)).

(** The own property [key] of a parsed object: of two members with the
    same name the later one stays. *)
Fixpoint own_property (members : list (string * json)) (key : string)
  : option json :=
  match members with
  | [] => None
  | (k, v) :: rest =>
      match own_property rest key with
      | Some later => Some later
      | None => if decide (k = key) then Some v else None
      end
  end.

(** [m[key]] for a parsed value that is not [null]: numbers, strings,
    booleans and arrays have none of the properties the code reads
    ([None] is [undefined]). *)
Definition member (m : json) (key : string) : option json :=
  match m with
  | JObject members => own_property members key
  | _ => None
  end.

(** [parsed.key]: reading a property of [null] throws. *)
Definition get_property (parsed : json) (key : string)
  : thrown + option json :=
  match parsed with
  | JNull =>
      inl (ThrownError
             ("Cannot read properties of null (reading '" +:+ key +:+ "')"))
  | _ => inr (member parsed key)
  end.

(** A property as the [typeof] tests see it. *)
Definition as_value (v : option json) : jsvalue :=
  match v with
  | None => VUndefined
  | Some JNull => VNull
  | Some (JBoolean b) => VBoolean b
  | Some (JNumber x) => VNumber x
  | Some (JString s) => VString s
  | Some (JArray _) | Some (JObject _) => VObject
  end.

Definition level_name (l : ThinkingLevel) : string :=
  match l with
  | off => "off"
  | minimal => "minimal"
  | low => "low"
  | medium => "medium"
  | high => "high"
  | xhigh => "xhigh"
  end.

Definition VALID_THINKING_LEVELS : list ThinkingLevel :=
  [off; minimal; low; medium; high; xhigh].

Definition isValidModelConfig (m : json) : bool :=
  match m with
  | JObject members =>
      match own_property members "provider", own_property members "id" with
      | Some (JString _), Some (JString _) => true
      | _, _ => false
      end
  | _ => false
  end.

Definition normalizeThinkingLevel (value : option json)
  : option ThinkingLevel :=
  match value with
  | Some (JString s) =>
      let lower := Js.trim (Js.toLowerCase s) in
      snd <$> list_find (λ l, level_name l = lower) VALID_THINKING_LEVELS
  | _ => None
  end.

Definition parseBoolean (value : jsvalue) (defaultValue : bool) : bool :=
  match value with
  | VBoolean b => b
  | _ => defaultValue
  end.

(** [m.key] for a member the filter has found to be a string. *)
Definition string_member (m : json) (key : string) : string :=
  match member m key with
  | Some (JString s) => s
  | _ => EmptyString
  end.

Definition parseCompactionModels (models : option json)
  : list CompactionModelConfig :=
  match models with
  | Some (JArray elements) =>
      (λ m, {| cfg_provider := string_member m "provider";
               cfg_id := string_member m "id";
               cfg_thinkingLevel :=
                 normalizeThinkingLevel (member m "thinkingLevel") |})
      <$> filter (λ m, isValidModelConfig m = true) elements
  | _ => compactionModels DEFAULT_CONFIG
  end.

(** What [loadConfig] finds next to the extension: no [config.json], a
    file that cannot be read or parsed, or a parsed value. *)
Inductive config_file : Type :=
| NoFile
| Unparsable (error : thrown)
| Parsed (parsed : json).

Definition loadConfig (file : config_file) : ExtensionConfig :=
  match file with
  | NoFile => DEFAULT_CONFIG
  | Unparsable error => try_catch (inl error) (λ _, DEFAULT_CONFIG)
  | Parsed parsed =>
      try_catch
        (and_then (get_property parsed "compactionModels") (λ models,
         and_then (get_property parsed "thinkingLevel") (λ level,
         and_then (get_property parsed "debugCompactions") (λ debug,
         and_then (get_property parsed "toolResultMaxChars") (λ maxChars,
         and_then (get_property parsed "toolCallPreviewChars") (λ preview,
         and_then (get_property parsed "toolCallConcurrency") (λ concurrency,
         and_then (get_property parsed "minSummaryChars") (λ minChars,
         inr {| compactionModels := parseCompactionModels models;
                thinkingLevel :=
                  default (thinkingLevel DEFAULT_CONFIG)
                          (normalizeThinkingLevel level);
                debugCompactions :=
                  parseBoolean (as_value debug)
                    (debugCompactions DEFAULT_CONFIG);
                toolResultMaxChars :=
                  parsePositiveNumber (as_value maxChars)
                    (toolResultMaxChars DEFAULT_CONFIG);
                toolCallPreviewChars :=
                  parsePositiveNumber (as_value preview)
                    (toolCallPreviewChars DEFAULT_CONFIG);
                toolCallConcurrency :=
                  parsePositiveInt (as_value concurrency)
                    (toolCallConcurrency DEFAULT_CONFIG);
                minSummaryChars :=
                  parsePositiveNumber (as_value minChars)
                    (minSummaryChars DEFAULT_CONFIG) |}))))))))
        (λ _, DEFAULT_CONFIG)
  end.

(** The names of the settings [loadConfig] reads. *)
Definition config_keys : list string :=
  ["compactionModels"; "thinkingLevel"; "debugCompactions";
   "toolResultMaxChars"; "toolCallPreviewChars"; "toolCallConcurrency";
   "minSummaryChars"].

(** A configuration with one well-formed model, one model without an
    [id], and a fractional concurrency. *)
Definition sample_config : json :=
  JObject
    [("compactionModels",
      JArray [JObject [("provider", JString "openai");
                       ("id", JString "gpt-5-mini");
                       ("thinkingLevel", JString " High ")];
              JObject [("provider", JString "openai")];
              JString "anthropic/claude-haiku-4-5"]);
     ("toolCallConcurrency", JNumber (Js.Finite (5 # 2)));
     ("minSummaryChars", JNumber (Js.of_Z (-1)));
     ("debugCompactions", JString "yes")].

(* ====================================================================== *)
(** * Prompt building                                                      *)
(* ====================================================================== *)

(** The double quote. *)
Definition DQ : string := String (ascii_of_nat 34) EmptyString.

Definition formatFileList (files : list string) (defaultText : string)
  : string :=
  if 0 <? length files
  then Js.join Js.LF ((λ p, "- " +:+ p) <$> files)
  else defaultText.

Definition buildFileOpsContext (llmMessages : list LlmMessage) : string :=
  let detectedFileOps := detectFileOpsFromConversation llmMessages in
  let relevantModifiedFiles :=
    filter (λ p, negb (isLikelyTempArtifactPath p) = true)
           (modifiedFiles detectedFileOps) in
  let tempLikeModifiedFiles :=
    filter (λ p, isLikelyTempArtifactPath p = true)
           (modifiedFiles detectedFileOps) in
  let relevantFilesList :=
    formatFileList relevantModifiedFiles "- (none detected)" in
  let tempFilesList :=
    formatFileList tempLikeModifiedFiles "- (none detected)" in
  let deletedFilesList :=
    formatFileList (deletedFiles detectedFileOps) "- (none detected)" in
  "## Deterministic Modified Files (tool-result verified)" +:+ Js.LF +:+
  "The extension extracted these by pairing tool calls with successful tool results." +:+ Js.LF +:+
  "Use the 'Relevant modified files' section for the compaction summary unless the user explicitly asks about temp artifacts." +:+ Js.LF +:+
  Js.LF +:+
  "### Relevant modified files" +:+ Js.LF +:+
  relevantFilesList +:+ Js.LF +:+
  Js.LF +:+
  "### Other modified artifacts (likely temporary; exclude from summary by default)" +:+ Js.LF +:+
  tempFilesList +:+ Js.LF +:+
  Js.LF +:+
  "### Deleted paths (best effort)" +:+ Js.LF +:+
  deletedFilesList.

(** [!userCompactionNote]: no note, or an empty one. *)
Definition note_given (userCompactionNote : option string) : option string :=
  match userCompactionNote with
  | Some note => if Js.truthy note then Some note else None
  | None => None
  end.

Definition buildUserNoteContext (userCompactionNote : option string)
  : string :=
  match note_given userCompactionNote with
  | None => EmptyString
  | Some note =>
      Js.LF +:+ Js.LF +:+ "## User note passed to /compact" +:+ Js.LF +:+
      "The user invoked manual compaction with the following extra instruction. Use it to guide what you focus on while exploring and summarizing, but do NOT treat it as the session's main goal (use the first user request for that)." +:+ Js.LF +:+ Js.LF +:+
      DQ +:+ note +:+ DQ +:+ Js.LF
  end.

Definition buildInitialUserPrompt (userCompactionNote : option string)
  : string :=
  match note_given userCompactionNote with
  | Some note =>
      "Summarize the conversation in /conversation.json. Follow the exploration strategy, then output ONLY the summary." +:+ Js.LF +:+ Js.LF +:+
      "Also account for this user instruction (from `/compact ...`). If it requests an extra/dedicated section or special formatting, comply by adding an extra markdown section/subsection (while still keeping the required sections in the output format):" +:+ Js.LF +:+
      "- " +:+ note
  | None =>
      "Summarize the conversation in /conversation.json. Follow the exploration strategy, then output ONLY the summary."
  end.

(* ====================================================================== *)
(** * The compaction handler                                               *)
(* ====================================================================== *)

Section Handler.

(** [Model<Api>], what a response carries besides its content, and the
    messages of a session branch come from the host and the completion
    library. *)
Context {Model Meta SessionMessage : Type}.
Variable model_provider : Model → string.
Variable model_id : Model → string.
Variable CONFIG : ExtensionConfig.

(** [BranchEntry] *)
Record BranchEntry : Type := {
  entry_type : string;
  entry_message : option SessionMessage;
}.

Definition extractMessages (branchEntries : option (list BranchEntry))
  : list SessionMessage :=
  match branchEntries with
  | None => []
  | Some entries =>
      omap entry_message
        (filter (λ e, entry_type e = "message" ∧ is_Some (entry_message e))
                entries)
  end.

(** The event [session_before_compact], with its [preparation] and its
    signal as a function of the logical clock of the agent loop. *)
Record CompactEvent : Type := {
  ev_branchEntries : option (list BranchEntry);
  ev_customInstructions : jsvalue;
  ev_signal : nat → bool;
  ev_tokensBefore : Js.jsnum;
  ev_firstKeptEntryId : string;
  ev_previousSummary : option string;
}.

(** The part of the extension context the handler reads. *)
Record SessionContext : Type := {
  ctx_modelRegistry : ModelRegistry Model;
  ctx_model : option Model;
}.

Record CompactionResult : Type := {
  cr_summary : string;
  cr_firstKeptEntryId : string;
  cr_tokensBefore : Js.jsnum;
}.

(** What the handler's promise does: it resolves with a compaction or with
    [undefined], or the agent loop is still running. *)
Inductive handled : Type :=
| Returns (compaction : option CompactionResult)
| Unsettled.

(** The collaborators of the handler: [convertToLlm] of the host,
    [JSON.stringify(llmMessages, null, 2)], the completion library for a
    model, key, reasoning level and system prompt, the sandbox and the
    scheduler of the tool batches.  The text of [buildSystemPrompt] is
    not part of this development (it holds characters outside the code
    units 0..255); the handler only hands its result to the provider. *)
Variable convertToLlm : list SessionMessage → list LlmMessage.
Variable stringify : list LlmMessage → string.
Variable buildSystemPrompt : string → string → option string → string.
Variable complete_with :
  Model → string → ThinkingLevel → string →
  (nat → bool) → nat → list (Message Meta) → completion Meta.
Variable sandbox : gmap string string → CommandValue → exec_outcome.
Variable scheduler : nat → nat → nat.

Definition error_message (error : thrown) : string :=
  match error with
  | ThrownError message => message
  | ThrownOther asString => asString
  end.

(** [handleCompactionError], as far as the user sees it: the debug record
    apart, a warning unless the signal is aborted. *)
Definition handleCompactionError (error : thrown) (aborted : bool)
  : list (string * level) :=
  if negb aborted
  then [("Compaction failed: " +:+ error_message error, warning)]
  else [].

(** The handler of [session_before_compact] run with [fuel] turns of the
    agent loop: what its promise does and the notifications shown.  The
    debug log and the debug records are left out: they are written inside
    [try] blocks of their own and nothing is read back from them. *)
Definition handleCompaction (event : CompactEvent) (ctx : SessionContext)
    (fuel : nat) : handled * list (string * level) :=
  let allMessages := extractMessages (ev_branchEntries event) in
  if length allMessages =? 0 then (Returns None, [])
  else
    match selectCompactionModel model_provider model_id CONFIG
            (ctx_modelRegistry ctx) (ctx_model ctx) with
    | None => (Returns None, [("No model available for compaction", warning)])
    | Some selection =>
        let llmMessages := convertToLlm allMessages in
        let started :=
          ("Compacting " +:+ pretty (length allMessages) +:+
           " messages with " +:+ model_provider (model selection) +:+
           "/" +:+ model_id (model selection), info) in
        let userCompactionNote :=
          getUserCompactionNote (ev_customInstructions event) llmMessages in
        let systemPrompt :=
          buildSystemPrompt (buildFileOpsContext llmMessages)
            (buildUserNoteContext userCompactionNote)
            (ev_previousSummary event) in
        let bashFiles : gmap string string :=
          {[ "/conversation.json" := stringify llmMessages ]} in
        let env :=
          {| complete :=
               complete_with (model selection) (apiKey selection)
                 (sel_thinkingLevel selection) systemPrompt;
             bash_exec := sandbox;
             tool_sched := scheduler;
             signal_aborted := ev_signal event |} in
        let '(o, final) := runAgentLoop CONFIG bashFiles env fuel in
        let shown := started :: notified final in
        let aborted := ev_signal event (now final) in
        match o with
        | Running => (Unsettled, shown)
        | Failed error =>
            (Returns None, shown ++ handleCompactionError error aborted)
        | Aborted => (Returns None, shown)
        | Done summary =>
            if aborted then (Returns None, shown)
            else if negb (Js.truthy summary) ||
                    Js.gt (minSummaryChars CONFIG)
                          (Js.of_nat (String.length summary))
            then (Returns None, shown)
            else (Returns
                    (Some {| cr_summary := summary;
                             cr_firstKeptEntryId := ev_firstKeptEntryId event;
                             cr_tokensBefore := ev_tokensBefore event |}),
                  shown)
        end
    end.

End Handler.

Arguments BranchEntry : clear implicits.
Arguments CompactEvent : clear implicits.
Arguments SessionContext : clear implicits.

(** A session of two messages, compacted with the sample registry and the
    sample provider; the shortest summary accepted has ten characters. *)
Definition sample_event : CompactEvent LlmMessage :=
  {| ev_branchEntries :=
       Some [ {| entry_type := "message";
                 entry_message := Some (user_message "fix the login bug") |};
              {| entry_type := "label"; entry_message := None |};
              {| entry_type := "message";
                 entry_message :=
                   Some (assistant_message [text_block "done"]) |} ];
     ev_customInstructions := VUndefined;
     ev_signal := λ _, false;
     ev_tokensBefore := Js.of_Z 1200;
     ev_firstKeptEntryId := "entry-7";
     ev_previousSummary := None |}.

Definition sample_session : SessionContext (string * string) :=
  {| ctx_modelRegistry := sample_registry; ctx_model := None |}.

Definition short_summaries : ExtensionConfig :=
  {| compactionModels := compactionModels DEFAULT_CONFIG;
     thinkingLevel := thinkingLevel DEFAULT_CONFIG;
     debugCompactions := debugCompactions DEFAULT_CONFIG;
     toolResultMaxChars := toolResultMaxChars DEFAULT_CONFIG;
     toolCallPreviewChars := toolCallPreviewChars DEFAULT_CONFIG;
     toolCallConcurrency := Js.of_Z 2;
     minSummaryChars := Js.of_Z 10 |}.

(* ====================================================================== *)
(** * Theorems: mapWithConcurrency                                         *)
(* ====================================================================== *)

Section JsNumberFacts.

Lemma Qle_bool_inject_Z (a b : Z) :
  Qle_bool (inject_Z a) (inject_Z b) = (a <=? b)%Z.
Proof. unfold Qle_bool, inject_Z; simpl. by rewrite !Z.mul_1_r. Qed.

Lemma Qtrunc_inject_Z (z : Z) : Js.Qtrunc (inject_Z z) = z.
Proof. unfold Js.Qtrunc, inject_Z; simpl. apply Z.quot_1_r. Qed.

(** The number of workers started: between 1 and the number of items,
    whatever the (non-NaN) concurrency bound. *)
Lemma workerCount_bounds (c : Js.jsnum) (n : nat) :
  c ≠ Js.NaN → 0 < n →
  let k := N.to_nat (Js.ToLength
             (Js.Math_min (Js.Math_max (Js.of_nat 1) (Js.Math_floor c))
                          (Js.of_nat n))) in
  1 ≤ k ≤ n.
Proof.
  intros Hc Hn. destruct c as [q| | |]; [| | |done]; cbn -[N.pow Z.of_nat].
  - rewrite Qle_bool_inject_Z.
    destruct (Z.leb_spec (Z.of_nat 1) (Qfloor q));
      cbn -[N.pow Z.of_nat]; rewrite Qle_bool_inject_Z;
      match goal with |- context [(?a <=? ?b)%Z] =>
        destruct (Z.leb_spec a b) end;
      cbn -[N.pow Z.of_nat]; rewrite Qtrunc_inject_Z; lia.
  - rewrite Qtrunc_inject_Z. lia.
  - rewrite Qle_bool_inject_Z.
    destruct (Z.leb_spec (Z.of_nat 1) (Z.of_nat n));
      cbn -[N.pow Z.of_nat]; rewrite Qtrunc_inject_Z; lia.
Qed.

End JsNumberFacts.

Section AwaitingFacts.

Implicit Types ws : list (option nat).

Lemma awaiting_from_length k ws :
  length (awaiting_from k ws) = length (awaiting_from 0 ws).
Proof.
  revert k. induction ws as [|[i|] ws IH]; intros k; simpl; [done| |].
  - by rewrite (IH (S k)), (IH 1).
  - by rewrite (IH (S k)), (IH 1).
Qed.

Lemma elem_of_awaiting_from k ws w :
  w ∈ awaiting_from k ws ↔ k ≤ w ∧ ∃ i, ws !! (w - k) = Some (Some i).
Proof.
  revert k. induction ws as [|[i|] ws IH]; intros k; simpl.
  - split; [by intros ?%elem_of_nil | by intros [_ [? ?]]].
  - rewrite elem_of_cons, IH. split.
    + intros [->|[Hle [j Hj]]].
      * split; [lia|]. exists i. by replace (k - k) with 0 by lia.
      * split; [lia|]. exists j.
        replace (w - k) with (S (w - S k)) by lia. done.
    + intros [Hle [j Hj]]. destruct (decide (w = k)) as [->|Hne]; [by left|].
      right. split; [lia|]. exists j.
      replace (w - k) with (S (w - S k)) in Hj by lia. done.
  - rewrite IH. split.
    + intros [Hle [j Hj]]. split; [lia|]. exists j.
      replace (w - k) with (S (w - S k)) by lia. done.
    + intros [Hle [j Hj]]. destruct (decide (w = k)) as [->|Hne].
      * replace (k - k) with 0 in Hj by lia. done.
      * split; [lia|]. exists j.
        replace (w - k) with (S (w - S k)) in Hj by lia. done.
Qed.

Lemma awaiting_from_insert_Some k ws w i j :
  ws !! w = Some (Some i) →
  length (awaiting_from k (<[w := Some j]> ws)) = length (awaiting_from k ws).
Proof.
  revert k w. induction ws as [|o ws IH]; intros k w Hw; [done|].
  destruct w as [|w]; simpl in *.
  - by simplify_eq.
  - destruct o; simpl; by rewrite (IH _ _ Hw).
Qed.

Lemma awaiting_from_insert_None k ws w i :
  ws !! w = Some (Some i) →
  S (length (awaiting_from k (<[w := None]> ws))) = length (awaiting_from k ws).
Proof.
  revert k w. induction ws as [|o ws IH]; intros k w Hw; [done|].
  destruct w as [|w]; simpl in *.
  - by simplify_eq.
  - destruct o; simpl; by rewrite <- (IH _ _ Hw).
Qed.

Lemma awaiting_from_all_Some k ws :
  ws ≠ [] → (∀ w o, ws !! w = Some o → is_Some o) → awaiting_from k ws ≠ [].
Proof.
  destruct ws as [|[i|] ws]; intros Hne Hall; [done|done|].
  by destruct (Hall 0 None eq_refl).
Qed.

End AwaitingFacts.

Section PoolSteps.

Context {T U E : Type}.
Variable items : list T.
Variable mapper : T → nat → settled U E.

Local Abbreviation pool_inv := (pool_inv items mapper).
Local Abbreviation remaining := (remaining items).

(** The settlement of a call that fulfils keeps the invariant and uses
    up one unit of the remaining work. *)
Lemma settle_fulfilled (w i : nat) (x : T) (u : U) (st : pool U) :
  pool_inv st → workers st !! w = Some (Some i) →
  items !! i = Some x → mapper x i = Fulfilled u →
  ∃ st', settle items mapper w st = inr st' ∧ pool_inv st' ∧
         S (remaining st') = remaining st.
Proof.
  intros [Hnext Hlen Hcalls Hclaimed Hbound Halive] Hw Hx Hu.
  pose proof (Hbound _ _ Hw) as Hi.
  assert (Hwlt : w < length (workers st)) by (by eapply lookup_lt_Some).
  assert (Hfilled : <[i:=Some u]> (results st) !! i = Some (Some u))
    by (apply list_lookup_insert_eq; lia).
  assert (Hkeep : ∀ j, j < nextIndex st → j ≠ i →
            (∃ w', w' ≠ w ∧ workers st !! w' = Some (Some j)) ∨
            (∃ u', <[i:=Some u]> (results st) !! j = Some (Some u') ∧
                   fulfils_with items mapper j u')).
  { intros j Hj Hne. destruct (Hclaimed j Hj) as [[w' Hw']|[u' [Hr Hf]]].
    - left. exists w'. split; [|done]. intros ->. congruence.
    - right. exists u'. by rewrite list_lookup_insert_ne. }
  unfold settle. rewrite Hw, Hx, Hu. eexists. split; [done|].
  unfold worker_enter; simpl. case_decide as Hlt; simpl.
  - split; [constructor; simpl|].
    + lia.
    + by rewrite length_insert.
    + by rewrite Hcalls, Nat.add_1_r, seq_S.
    + intros j Hj. destruct (decide (j = nextIndex st)) as [->|Hnj].
      { left. exists w. by apply list_lookup_insert_eq. }
      destruct (decide (j = i)) as [->|Hji].
      { right. exists u. split; [done|]. by exists x. }
      destruct (Hkeep j ltac:(lia) Hji) as [[w' [Hne Hw']]|?]; [|by right].
      left. exists w'. by rewrite list_lookup_insert_ne.
    + intros w' i'. destruct (decide (w' = w)) as [->|Hne].
      * rewrite list_lookup_insert_eq by done. intros [= <-]. lia.
      * rewrite list_lookup_insert_ne by done. intros H'%Hbound. lia.
    + intros Hlt'. destruct (Halive Hlt) as [Hne Hall]. split.
      * intros Heq. apply (f_equal length) in Heq.
        rewrite length_insert in Heq. by destruct (workers st).
      * intros w' o. destruct (decide (w' = w)) as [->|Hnw].
        { rewrite list_lookup_insert_eq by done. by intros [= <-]. }
        rewrite list_lookup_insert_ne by done. apply Hall.
    + unfold remaining, awaiting; simpl.
      rewrite (awaiting_from_insert_Some _ _ _ i) by done. lia.
  - split; [constructor; simpl|].
    + lia.
    + by rewrite length_insert.
    + done.
    + intros j Hj. destruct (decide (j = i)) as [->|Hji].
      { right. exists u. split; [done|]. by exists x. }
      destruct (Hkeep j Hj Hji) as [[w' [Hne Hw']]|?]; [|by right].
      left. exists w'. by rewrite list_lookup_insert_ne.
    + intros w' i'. destruct (decide (w' = w)) as [->|Hne].
      * by rewrite list_lookup_insert_eq.
      * rewrite list_lookup_insert_ne by done. apply Hbound.
    + lia.
    + unfold remaining, awaiting; simpl.
      rewrite <- (awaiting_from_insert_None _ _ _ _ Hw). lia.
Qed.

End PoolSteps.

Section PoolProofs.

Context {T U E : Type}.
Variable items : list T.
Variable mapper : T → nat → settled U E.

Hypothesis mapper_fulfils :
  ∀ i x, items !! i = Some x → ∃ u, mapper x i = Fulfilled u.

Local Abbreviation pool_inv := (pool_inv items mapper).
Local Abbreviation remaining := (remaining items).

(** A settlement keeps the invariant and uses up one unit of the
    remaining work. *)
Lemma settle_inv (w i : nat) (st : pool U) :
  pool_inv st → workers st !! w = Some (Some i) →
  ∃ st', settle items mapper w st = inr st' ∧ pool_inv st' ∧
         S (remaining st') = remaining st.
Proof.
  intros Hinv Hw.
  pose proof (inv_bound _ _ _ Hinv _ _ Hw) as Hi.
  pose proof (inv_next _ _ _ Hinv) as Hnext.
  destruct (lookup_lt_is_Some_2 items i ltac:(lia)) as [x Hx].
  destruct (mapper_fulfils _ _ Hx) as [u Hu].
  by eapply settle_fulfilled.
Qed.

Lemma run_workers_unfold (sched : nat → nat) (fuel t : nat) (st : pool U) :
  run_workers items mapper sched (S fuel) t st =
  match awaiting st with
  | [] => AllResolved st
  | w0 :: ws =>
      let w := nth (sched t mod length (w0 :: ws)) (w0 :: ws) w0 in
      match settle items mapper w st with
      | inl e => AllRejected e st
      | inr st' => run_workers items mapper sched fuel (S t) st'
      end
  end.
Proof. done. Qed.

(** With fuel for the remaining settlements the event loop ends with
    every worker returned, whatever the scheduler does. *)
Lemma run_workers_resolves (sched : nat → nat) (fuel t : nat) (st : pool U) :
  pool_inv st → remaining st ≤ fuel →
  ∃ st', run_workers items mapper sched fuel t st = AllResolved st' ∧
         pool_inv st' ∧ awaiting st' = [].
Proof.
  revert t st. induction fuel as [|fuel IH]; intros t st Hinv Hrem.
  - destruct (awaiting st) as [|w0 ws] eqn:Haw.
    + exists st. simpl. by rewrite Haw.
    + unfold remaining in Hrem. rewrite Haw in Hrem. simpl in Hrem. lia.
  - rewrite run_workers_unfold.
    destruct (awaiting st) as [|w0 ws] eqn:Haw; [by exists st|].
    cbv zeta. set (w := nth _ _ w0).
    assert (Hin : w ∈ awaiting st).
    { rewrite Haw. apply list_elem_of_In, nth_In.
      apply Nat.mod_upper_bound. done. }
    apply elem_of_awaiting_from in Hin as [_ [i Hi]].
    rewrite Nat.sub_0_r in Hi.
    destruct (settle_inv w i st Hinv Hi) as (st' & -> & Hinv' & Hrem').
    apply IH; [done|lia].
Qed.

(** Once every worker has returned, every slot holds its own item's
    value and the mapper has been invoked exactly once per index. *)
Lemma pool_inv_final (st : pool U) :
  0 < length items → pool_inv st → awaiting st = [] →
  nextIndex st = length items ∧
  ∀ i, i < length items →
       ∃ u, results st !! i = Some (Some u) ∧ fulfils_with items mapper i u.
Proof.
  intros Hpos [Hnext Hlen Hcalls Hclaimed Hbound Halive] Haw.
  assert (Hn : nextIndex st = length items).
  { destruct (decide (nextIndex st < length items)) as [Hlt|]; [|lia].
    destruct (Halive Hlt) as [Hne Hall].
    by destruct (awaiting_from_all_Some 0 _ Hne Hall). }
  split; [done|]. intros i Hi.
  destruct (Hclaimed i ltac:(lia)) as [[w Hw]|?]; [|done].
  assert (w ∈ awaiting st) as Hin.
  { apply elem_of_awaiting_from. split; [lia|].
    exists i. by rewrite Nat.sub_0_r. }
  rewrite Haw in Hin. by apply elem_of_nil in Hin.
Qed.

Lemma awaiting_from_fmap_Some (k : nat) (l : list nat) :
  length (awaiting_from k (Some <$> l)) = length l.
Proof. revert k. induction l; intros k; simpl; [done|by rewrite IHl]. Qed.

(** The synchronous start-up: worker [w] claims index [w]. *)
Lemma spawn_workers_state (k : nat) :
  k ≤ length items →
  Nat.iter k (spawn_worker (U:=U) items)
    {| nextIndex := 0; results := replicate (length items) None;
       workers := []; calls := [] |}
  = {| nextIndex := k; results := replicate (length items) None;
       workers := Some <$> seq 0 k; calls := seq 0 k |}.
Proof.
  induction k as [|k IH]; intros Hk; [done|].
  rewrite seq_S, fmap_app. simpl Nat.iter. rewrite IH by lia.
  unfold spawn_worker, worker_enter; cbn [nextIndex results workers calls].
  rewrite decide_True by lia.
  rewrite length_fmap, length_seq. f_equal.
  - lia.
  - rewrite insert_app_r_alt by (rewrite length_fmap, length_seq; lia).
    rewrite length_fmap, length_seq, Nat.sub_diag. done.
Qed.

Lemma spawn_workers_inv (k : nat) :
  1 ≤ k ≤ length items →
  let st : pool U := {| nextIndex := k; results := replicate (length items) None;
               workers := Some <$> seq 0 k; calls := seq 0 k |} in
  pool_inv st ∧ remaining st = length items.
Proof.
  intros Hk st. split; [constructor; simpl|].
  - lia.
  - by rewrite length_replicate.
  - done.
  - intros i Hi. left. exists i.
    by rewrite list_lookup_fmap, lookup_seq_lt.
  - intros w i. rewrite list_lookup_fmap.
    destruct (seq 0 k !! w) as [j|] eqn:Hj; [|done].
    apply lookup_seq in Hj as [-> ?]. simpl. intros [= <-]. lia.
  - intros _. split.
    + destruct k; [lia|done].
    + intros w o. rewrite list_lookup_fmap.
      destruct (seq 0 k !! w); simpl; [|done]. by intros [= <-].
  - unfold remaining, awaiting; simpl.
    rewrite awaiting_from_fmap_Some, length_seq. lia.
Qed.

End PoolProofs.

Section SequentialRefinement.

Context {T U E : Type}.
Variable mapper : T → nat → settled U E.

(** What a resolved sequential map returns: one value per item, each the
    value its own mapper call fulfilled with, the mapper invoked on
    0, 1, ..., N-1 in this order. *)
Lemma sequentialMap_from_Resolves (i : nat) (l : list T)
    (acc r : list (option U)) (c : list nat) :
  sequentialMap_from mapper i l acc = Resolves r c →
  c = seq 0 (i + length l) ∧
  ∃ r', r = acc ++ r' ∧ length r' = length l ∧
        ∀ j x, l !! j = Some x →
               ∃ u, r' !! j = Some (Some u) ∧ mapper x (i + j) = Fulfilled u.
Proof.
  revert i acc. induction l as [|x l IH]; intros i acc; simpl.
  - intros [= <- <-]. rewrite Nat.add_0_r. split; [done|].
    exists []. by rewrite app_nil_r.
  - destruct (mapper x i) as [u|e] eqn:Hx; [|done].
    intros (-> & r' & -> & Hlen & Hr')%IH. split; [f_equal; lia|].
    exists (Some u :: r'). rewrite <- app_assoc. split; [done|].
    split; [simpl; lia|]. intros [|j] y Hy; simpl in *.
    + simplify_eq. exists u. by rewrite Nat.add_0_r.
    + destruct (Hr' j y Hy) as (u' & ? & Hu'). exists u'.
      split; [done|]. by rewrite <- Hu', Nat.add_succ_r.
Qed.

(** For every bound other than NaN, every scheduler and every mapper
    whose sequential run resolves, [mapWithConcurrency] resolves with the
    result of the sequential map: slot [i] holds the value of item [i],
    and the mapper is invoked once per index. *)
Lemma mapWithConcurrency_sequential (items : list T) (concurrency : Js.jsnum)
    (sched : nat → nat) (r : list (option U)) (invoked : list nat) :
  concurrency ≠ Js.NaN →
  sequentialMap items mapper = Resolves r invoked →
  mapWithConcurrency items mapper concurrency sched = Resolves r invoked.
Proof.
  intros Hc Hseq. unfold mapWithConcurrency. case_decide as Hlen.
  { destruct items; [|done]. by rewrite <- Hseq. }
  apply sequentialMap_from_Resolves in Hseq
    as (-> & r' & -> & Hlen' & Hr').
  rewrite app_nil_l, Nat.add_0_l.
  assert (Hful : ∀ i x, items !! i = Some x → ∃ u, mapper x i = Fulfilled u).
  { intros i x Hx. destruct (Hr' i x Hx) as (u & _ & Hu). by exists u. }
  cbv zeta.
  pose proof (workerCount_bounds concurrency (length items) Hc ltac:(lia))
    as Hk. cbv zeta in Hk. revert Hk.
  generalize (N.to_nat (Js.ToLength
    (Js.Math_min (Js.Math_max (Js.of_nat 1) (Js.Math_floor concurrency))
                 (Js.of_nat (length items))))).
  intros k Hk. rewrite spawn_workers_state by lia.
  destruct (spawn_workers_inv items mapper k Hk) as [Hinv Hrem].
  destruct (run_workers_resolves items mapper Hful sched (length items) 0 _
              Hinv ltac:(lia)) as (st' & -> & Hinv' & Haw).
  destruct (pool_inv_final items mapper st' ltac:(lia) Hinv' Haw)
    as [Hnext Hres].
  f_equal.
  - apply list_eq. intros i.
    destruct (decide (i < length items)) as [Hi|Hi].
    + destruct (Hres i Hi) as (u & -> & x & Hx & Hu).
      destruct (Hr' i x Hx) as (u' & -> & Hu'). simpl in Hu'. congruence.
    + rewrite !lookup_ge_None_2; [done|lia|].
      rewrite (inv_length _ _ _ Hinv'). lia.
  - by rewrite (inv_calls _ _ _ Hinv'), Hnext.
Qed.

(** The empty input resolves to the empty list and the mapper is never
    invoked, for every bound. *)
Lemma mapWithConcurrency_empty (concurrency : Js.jsnum) (sched : nat → nat) :
  mapWithConcurrency [] mapper concurrency sched = Resolves [] [].
Proof. done. Qed.

(** A NaN bound starts no worker at all: the holes of the freshly
    allocated array are returned and the mapper is never invoked. *)
Lemma mapWithConcurrency_NaN_holes (items : list T) (sched : nat → nat) :
  items ≠ [] →
  mapWithConcurrency items mapper Js.NaN sched
  = Resolves (replicate (length items) None) [].
Proof.
  intros Hne. unfold mapWithConcurrency.
  rewrite decide_False by (by destruct items).
  simpl. by destruct (length items).
Qed.

End SequentialRefinement.

(** C1, at the failing input.  With the bound NaN and two items no
    worker is started: the loop resolves with the two holes of the fresh
    array and the mapper is never invoked, whatever the scheduler, where
    the sequential map returns the two doubled items. *)
Theorem mapWithConcurrency_NaN_returns_holes (sched : nat → nat) :
  mapWithConcurrency [10; 20] (λ x _, Fulfilled (E:=unit) (x * 2)) Js.NaN sched
  = Resolves [None; None] [] ∧
  sequentialMap [10; 20] (λ x _, Fulfilled (E:=unit) (x * 2))
  = Resolves [Some 20; Some 40] [0; 1].
Proof. done. Qed.

(* ====================================================================== *)
(** * Further theorems: mapWithConcurrency                                 *)
(* ====================================================================== *)

Section PoolOutcome.

Context {T U E : Type}.
Variable items : list T.
Variable mapper : T → nat → settled U E.

Local Abbreviation inv := (pool_inv items mapper).
Local Abbreviation todo := (remaining items).

(** With fuel for the remaining settlements the event loop ends: every
    worker has returned, or a call that was made has rejected. *)
Lemma run_workers_outcome (sched : nat → nat) (fuel t : nat) (st : pool U) :
  inv st → todo st ≤ fuel →
  match run_workers items mapper sched fuel t st with
  | AllResolved st' => inv st' ∧ awaiting st' = []
  | AllRejected e st' =>
      inv st' ∧
      ∃ i x, i < nextIndex st' ∧ items !! i = Some x ∧ mapper x i = Rejected e
  | AllPending _ => False
  end.
Proof.
  revert t st. induction fuel as [|fuel IH]; intros t st Hinv Hrem.
  - destruct (awaiting st) as [|w0 ws] eqn:Haw.
    + simpl. by rewrite Haw.
    + unfold remaining in Hrem. rewrite Haw in Hrem. simpl in Hrem. lia.
  - rewrite run_workers_unfold.
    destruct (awaiting st) as [|w0 ws] eqn:Haw; [done|].
    cbv zeta. set (w := nth _ _ w0).
    assert (Hin : w ∈ awaiting st).
    { rewrite Haw. apply list_elem_of_In, nth_In.
      apply Nat.mod_upper_bound. done. }
    apply elem_of_awaiting_from in Hin as [_ [i Hi]].
    rewrite Nat.sub_0_r in Hi.
    pose proof (inv_bound _ _ _ Hinv _ _ Hi) as Hlt.
    pose proof (inv_next _ _ _ Hinv) as Hnext.
    destruct (lookup_lt_is_Some_2 items i ltac:(lia)) as [x Hx].
    destruct (mapper x i) as [u|e] eqn:Hxi.
    + destruct (settle_fulfilled items mapper w i x u st Hinv Hi Hx Hxi)
        as (st' & -> & Hinv' & Hrem').
      apply IH; [done|lia].
    + unfold settle. rewrite Hi, Hx, Hxi. split; [done|]. by exists i, x.
Qed.

End PoolOutcome.

Section ConcurrencyRunner.

Context {T U E : Type}.
Variable items : list T.
Variable mapper : T → nat → settled U E.

Lemma sequentialMap_from_fulfilled (i : nat) (l : list T)
    (acc : list (option U)) :
  (∀ j x, l !! j = Some x → ∃ u, mapper x (i + j) = Fulfilled u) →
  ∃ r, sequentialMap_from mapper i l acc
       = Resolves (acc ++ r) (seq 0 (i + length l)).
Proof.
  revert i acc. induction l as [|x l IH]; intros i acc Hl; simpl.
  - exists []. by rewrite app_nil_r, Nat.add_0_r.
  - destruct (Hl 0 x eq_refl) as [u Hu]. rewrite Nat.add_0_r in Hu.
    rewrite Hu. destruct (IH (S i) (acc ++ [Some u])) as [r Hr].
    { intros j y Hy. destruct (Hl (S j) y Hy) as [u' Hu'].
      exists u'. by rewrite <- Hu', Nat.add_succ_r. }
    exists (Some u :: r). by rewrite Hr, <- app_assoc, Nat.add_succ_r.
Qed.

(** For a non-empty input, [mapWithConcurrency] is the event loop run
    from a state that satisfies the invariant, with fuel for all the
    settlements. *)
Lemma mapWithConcurrency_run (concurrency : Js.jsnum) (sched : nat → nat) :
  items ≠ [] → concurrency ≠ Js.NaN →
  ∃ st0, pool_inv items mapper st0 ∧
         remaining items st0 = length items ∧
         reachable items mapper (workerCount (length items) concurrency) st0 ∧
         mapWithConcurrency items mapper concurrency sched
         = promise_of (run_workers items mapper sched (length items) 0 st0).
Proof.
  intros Hne Hc.
  assert (Hlen : 0 < length items) by (destruct items; [done|simpl; lia]).
  pose proof (workerCount_bounds concurrency (length items) Hc Hlen) as Hk.
  cbv zeta in Hk. fold (workerCount (length items) concurrency) in Hk.
  eexists. split; [|split; [|split]].
  4: { unfold mapWithConcurrency. rewrite decide_False by lia. cbv zeta.
       fold (workerCount (length items) concurrency).
       unfold promise_of. reflexivity. }
  - rewrite spawn_workers_state by lia.
    by apply spawn_workers_inv.
  - rewrite spawn_workers_state by lia.
    by apply (spawn_workers_inv items mapper).
  - constructor.
Qed.

(** How a run ends, read off the final state of the pool. *)
Lemma mapWithConcurrency_ends (concurrency : Js.jsnum) (sched : nat → nat) :
  concurrency ≠ Js.NaN →
  (∃ r invoked,
     mapWithConcurrency items mapper concurrency sched = Resolves r invoked ∧
     ∀ i x, items !! i = Some x → ∃ u, mapper x i = Fulfilled u) ∨
  (∃ e invoked i x,
     mapWithConcurrency items mapper concurrency sched = Rejects e invoked ∧
     items !! i = Some x ∧ mapper x i = Rejected e).
Proof.
  intros Hc. destruct (decide (items = [])) as [Hnil|Hne].
  { left. exists [], []. rewrite Hnil. split; [done|]. by intros i x. }
  destruct (mapWithConcurrency_run concurrency sched Hne Hc)
    as (st0 & Hinv & Hrem & _ & ->).
  pose proof (run_workers_outcome items mapper sched (length items) 0 st0
                Hinv ltac:(lia)) as Hout.
  destruct (run_workers items mapper sched (length items) 0 st0)
    as [st'|e st'|st']; [| |done].
  - left. destruct Hout as [Hinv' Haw]. eexists _, _. split; [done|].
    assert (Hlen : 0 < length items) by (destruct items; [done|simpl; lia]).
    destruct (pool_inv_final items mapper st' Hlen Hinv' Haw) as [_ Hall].
    intros j x Hx.
    destruct (Hall j) as (u & _ & y & Hy & Hu); [by eapply lookup_lt_Some|].
    exists u. congruence.
  - right. destruct Hout as [_ (i & x & _ & Hx & He)].
    by eexists e, _, i, x.
Qed.

(** X1.  What [mapWithConcurrency] can end with, for every bound other than
    NaN and every scheduler: it resolves with the result of the
    sequential map, or it rejects with the rejection of a call that was
    made; it does not stay pending and it never resolves with a partial
    result. *)
Theorem mapWithConcurrency_outcome (concurrency : Js.jsnum)
    (sched : nat → nat) :
  concurrency ≠ Js.NaN →
  match mapWithConcurrency items mapper concurrency sched with
  | Resolves r invoked => sequentialMap items mapper = Resolves r invoked
  | Rejects e invoked =>
      ∃ i x, i ∈ invoked ∧ items !! i = Some x ∧ mapper x i = Rejected e
  | NeverSettles => False
  end.
Proof.
  intros Hc. destruct (decide (items = [])) as [Hnil|Hne].
  { by rewrite Hnil. }
  destruct (mapWithConcurrency_run concurrency sched Hne Hc)
    as (st0 & Hinv & Hrem & _ & Hrun).
  pose proof (run_workers_outcome items mapper sched (length items) 0 st0
                Hinv ltac:(lia)) as Hout.
  destruct (run_workers items mapper sched (length items) 0 st0)
    as [st'|e st'|st'] eqn:Hrw; [| |done].
  - destruct Hout as [Hinv' Haw].
    assert (Hlen : 0 < length items) by (destruct items; [done|simpl; lia]).
    destruct (pool_inv_final items mapper st' Hlen Hinv' Haw) as [_ Hall].
    destruct (sequentialMap_from_fulfilled 0 items []) as [r Hr].
    { intros j x Hx.
      destruct (Hall j) as (u & _ & y & Hy & Hu);
        [by eapply lookup_lt_Some|].
      exists u. simpl. congruence. }
    pose proof (mapWithConcurrency_sequential mapper items concurrency sched
                  _ _ Hc Hr) as Hsame.
    rewrite Hsame. exact Hr.
  - rewrite Hrun. simpl. destruct Hout as [Hinv' (i & x & Hi & Hx & He)].
    exists i, x. split; [|done].
    rewrite (inv_calls _ _ _ Hinv'). apply elem_of_seq. lia.
Qed.

End ConcurrencyRunner.

Section InFlight.

Context {T U E : Type}.
Variable items : list T.
Variable mapper : T → nat → settled U E.

Lemma awaiting_from_le (k : nat) (ws : list (option nat)) :
  length (awaiting_from k ws) ≤ length ws.
Proof.
  revert k. induction ws as [|[i|] ws IH]; intros k; simpl; [done| |].
  - specialize (IH (S k)). lia.
  - specialize (IH (S k)). lia.
Qed.

Lemma worker_enter_workers (w : nat) (st : pool U) :
  length (workers (worker_enter items w st)) = length (workers st).
Proof.
  unfold worker_enter. case_decide; simpl; by rewrite length_insert.
Qed.

Lemma spawn_workers_count (k : nat) (st : pool U) :
  length (workers (Nat.iter k (spawn_worker items) st))
  = length (workers st) + k.
Proof.
  induction k as [|k IH]; simpl; [lia|].
  unfold spawn_worker at 1. rewrite worker_enter_workers. simpl.
  rewrite length_app, IH. simpl. lia.
Qed.

Lemma settle_workers (w : nat) (st st' : pool U) :
  settle items mapper w st = inr st' →
  length (workers st') = length (workers st).
Proof.
  unfold settle. destruct (workers st !! w) as [[i|]|]; [|by intros [= <-]..].
  destruct (items !! i) as [x|]; [|by intros [= <-]].
  destruct (mapper x i); [|done]. intros [= <-].
  by rewrite worker_enter_workers.
Qed.

(** The pool never has more workers than it started. *)
Lemma reachable_workers (k : nat) (st : pool U) :
  reachable items mapper k st → length (workers st) = k.
Proof.
  induction 1 as [|st st' w _ IH Hsettle].
  - by rewrite spawn_workers_count.
  - by rewrite (settle_workers _ _ _ Hsettle).
Qed.

(** The event loop stays within the reachable states. *)
Lemma run_workers_reachable (k : nat) (sched : nat → nat) (fuel t : nat)
    (st : pool U) :
  reachable items mapper k st →
  match run_workers items mapper sched fuel t st with
  | AllResolved st' | AllRejected _ st' | AllPending st' =>
      reachable items mapper k st'
  end.
Proof.
  revert t st. induction fuel as [|fuel IH]; intros t st Hst.
  - simpl. by destruct (awaiting st).
  - rewrite run_workers_unfold. destruct (awaiting st) as [|w0 ws]; [done|].
    cbv zeta. destruct (settle _ _ _ _) as [e|st'] eqn:Hsettle; [done|].
    apply IH. by eapply reachable_settle.
Qed.

Lemma workerCount_finite (n : nat) (q : Q) :
  workerCount n (Js.Finite q) ≤ Z.to_nat (Z.max 1 (Qfloor q)) ∧
  workerCount n (Js.Finite q) ≤ n.
Proof.
  unfold workerCount. cbn -[N.pow Z.of_nat].
  rewrite Qle_bool_inject_Z.
  destruct (Z.leb_spec (Z.of_nat 1) (Qfloor q));
    cbn -[N.pow Z.of_nat]; rewrite Qle_bool_inject_Z;
    match goal with |- context [(?a <=? ?b)%Z] =>
      destruct (Z.leb_spec a b) end;
    cbn -[N.pow Z.of_nat]; rewrite Qtrunc_inject_Z; lia.
Qed.

(** X2.  The concurrency bound.  In every state the pool reaches when started
    for a finite bound [q], the number of mapper calls that have been made
    and have not settled yet is at most max(1, floor q), and at most the
    number of items. *)
Theorem mapWithConcurrency_in_flight_bounded (q : Q) (st : pool U) :
  reachable items mapper (workerCount (length items) (Js.Finite q)) st →
  length (awaiting st) ≤ Z.to_nat (Z.max 1 (Qfloor q)) ∧
  length (awaiting st) ≤ length items.
Proof.
  intros Hst%reachable_workers.
  pose proof (awaiting_from_le 0 (workers st)) as Hle.
  pose proof (workerCount_finite (length items) q) as [H1 H2].
  unfold awaiting. lia.
Qed.

End InFlight.

Lemma mapWithConcurrency_in_flight_bounded_witness :
  length
    (awaiting
       (Nat.iter 2 (spawn_worker [10; 20; 30; 40; 50])
          {| nextIndex := 0; results := replicate 5 (None : option nat);
             workers := []; calls := [] |}))
  ≤ Z.to_nat (Z.max 1 (Qfloor (5 # 2))) ∧
  length
    (awaiting
       (Nat.iter 2 (spawn_worker [10; 20; 30; 40; 50])
          {| nextIndex := 0; results := replicate 5 (None : option nat);
             workers := []; calls := [] |}))
  ≤ length [10; 20; 30; 40; 50].
Proof.
  apply (mapWithConcurrency_in_flight_bounded [10; 20; 30; 40; 50]
           (λ (x i : nat), Fulfilled (E:=unit) (x * 2)) (5 # 2)).
  apply (reachable_start [10; 20; 30; 40; 50]
           (λ (x i : nat), Fulfilled (E:=unit) (x * 2)) 2).
Defined.

Section SingleWorker.

Context {T U E : Type}.
Variable items : list T.
Variable mapper : T → nat → settled U E.

Lemma run_workers_finished (sched : nat → nat) (fuel t : nat) (st : pool U) :
  awaiting st = [] →
  run_workers items mapper sched fuel t st = AllResolved st.
Proof. intros Haw. destruct fuel; simpl; by rewrite Haw. Qed.

(** One worker goes through the items one after the other: from the
    item [k] on, the event loop does what the sequential map does from
    there, rejection included. *)
Lemma single_worker_run (sched : nat → nat) (fuel k t : nat)
    (acc : list (option U)) :
  k < length items → length acc = k → length items - k ≤ fuel →
  promise_of
    (run_workers items mapper sched fuel t
       {| nextIndex := S k;
          results := acc ++ replicate (length items - k) None;
          workers := [Some k];
          calls := seq 0 (S k) |})
  = sequentialMap_from mapper k (drop k items) acc.
Proof.
  revert k t acc. induction fuel as [|fuel IH]; intros k t acc Hk Hacc Hfuel;
    [lia|].
  rewrite run_workers_unfold. cbn [awaiting workers awaiting_from].
  cbv zeta. cbn [length]. rewrite Nat.mod_1_r. cbn [nth].
  destruct (lookup_lt_is_Some_2 items k Hk) as [x Hx].
  rewrite (drop_S _ _ _ Hx). cbn [sequentialMap_from].
  unfold settle. cbn [workers lookup list_lookup]. rewrite Hx.
  destruct (mapper x k) as [u|e]; [|done].
  cbn [nextIndex results workers calls].
  rewrite insert_app_r_alt by lia.
  replace (k - length acc) with 0 by lia.
  replace (length items - k) with (S (length items - S k)) by lia.
  cbn [replicate]. cbn [insert list_insert].
  rewrite (cons_middle (Some u)), app_assoc.
  unfold worker_enter. cbn [nextIndex results workers calls].
  case_decide as Hlt.
  - cbn [insert list_insert]. rewrite Nat.add_1_r, <- seq_S.
    apply IH; [done| |lia]. rewrite length_app. simpl. lia.
  - cbn [insert list_insert]. rewrite run_workers_finished by done.
    cbn [promise_of results calls].
    replace (length items - S k) with 0 by lia.
    rewrite drop_ge by lia. cbn [replicate sequentialMap_from].
    by rewrite app_nil_r.
Qed.

Lemma workerCount_one (n : nat) (concurrency : Js.jsnum) :
  Js.gt (Js.of_nat 2) concurrency = true → 0 < n →
  workerCount n concurrency = 1.
Proof.
  intros Hc Hn. unfold workerCount.
  destruct concurrency as [q| | |]; try done; cbn -[N.pow Z.of_nat] in *.
  - assert (Hfloor : (Qfloor q <= 1)%Z).
    { destruct (Z.le_gt_cases (Qfloor q) 1) as [|Hgt]; [done|].
      apply negb_true_iff in Hc.
      assert (Qle_bool (inject_Z (Z.of_nat 2)) q = true); [|congruence].
      apply Qle_bool_iff.
      apply (Qle_trans _ (inject_Z (Qfloor q))); [|apply Qfloor_le].
      rewrite <- Zle_Qle. lia. }
    rewrite Qle_bool_inject_Z.
    destruct (Z.leb_spec (Z.of_nat 1) (Qfloor q));
      cbn -[N.pow Z.of_nat]; rewrite Qle_bool_inject_Z;
      match goal with |- context [(?a <=? ?b)%Z] =>
        destruct (Z.leb_spec a b) end;
      cbn -[N.pow Z.of_nat]; rewrite Qtrunc_inject_Z; lia.
  - rewrite Qle_bool_inject_Z.
    destruct (Z.leb_spec (Z.of_nat 1) (Z.of_nat n));
      cbn -[N.pow Z.of_nat]; rewrite Qtrunc_inject_Z; lia.
Qed.

(** X3.  A bound below 2 (zero, negative and fractional bounds included, and
    minus infinity) gives one worker, and [mapWithConcurrency] is then
    the strictly sequential map for every mapper and every scheduler:
    same values, same invocations, and on a rejection the same error with
    no call made after the failing one. *)
Theorem mapWithConcurrency_bound_below_two_sequential
    (concurrency : Js.jsnum) (sched : nat → nat) :
  Js.gt (Js.of_nat 2) concurrency = true →
  mapWithConcurrency items mapper concurrency sched
  = sequentialMap items mapper.
Proof.
  intros Hc. unfold mapWithConcurrency. case_decide as Hlen.
  { by destruct items. }
  cbv zeta. fold (workerCount (length items) concurrency).
  rewrite workerCount_one by (done || lia).
  rewrite spawn_workers_state by lia.
  pose proof (single_worker_run sched (length items) 0 0 []
                ltac:(lia) eq_refl ltac:(lia)) as Hrun.
  rewrite Nat.sub_0_r in Hrun. exact Hrun.
Qed.

End SingleWorker.

Lemma mapWithConcurrency_bound_below_two_sequential_witness :
  mapWithConcurrency [1; 2; 3]
    (λ x i, if decide (i = 1) then Rejected "boom" else Fulfilled (x * 2))
    (Js.of_Z 0) (λ t, t)
  = sequentialMap [1; 2; 3]
      (λ x i, if decide (i = 1) then Rejected "boom" else Fulfilled (x * 2)).
Proof.
  apply (mapWithConcurrency_bound_below_two_sequential [1; 2; 3]
           (λ x i, if decide (i = 1) then Rejected "boom"
                   else Fulfilled (x * 2))
           (Js.of_Z 0) (λ t, t)).
  reflexivity.
Defined.

Lemma mapWithConcurrency_outcome_witness :
  match mapWithConcurrency [1; 2; 3]
          (λ x i, if decide (i = 1) then Rejected "boom"
                  else Fulfilled (x * 2))
          (Js.of_Z 3) (λ t, 2) with
  | Resolves r invoked =>
      sequentialMap [1; 2; 3]
        (λ x i, if decide (i = 1) then Rejected "boom" else Fulfilled (x * 2))
      = Resolves r invoked
  | Rejects e invoked =>
      ∃ i x, i ∈ invoked ∧ [1; 2; 3] !! i = Some x ∧
             (if decide (i = 1) then Rejected "boom" else Fulfilled (x * 2))
             = Rejected e
  | NeverSettles => False
  end.
Proof.
  apply (mapWithConcurrency_outcome [1; 2; 3]
           (λ x i, if decide (i = 1) then Rejected "boom"
                   else Fulfilled (x * 2))
           (Js.of_Z 3) (λ t, 2)).
  discriminate.
Defined.


(* ====================================================================== *)
(** * Theorems: strings                                                    *)
(* ====================================================================== *)

(** A fact about every code unit, settled by running through the 256 of
    them. *)
Ltac by_code_units c := by destruct c as [[] [] [] [] [] [] [] []].

Section StringFacts.

Implicit Types s p r : string.

Lemma append_cons c s r : String c s +:+ r = String c (s +:+ r).
Proof. reflexivity. Qed.

Lemma append_nil_l s : EmptyString +:+ s = s.
Proof. reflexivity. Qed.

Lemma startsWith_spec s p : Js.startsWith s p = true ↔ starts_with s p.
Proof.
  unfold starts_with. revert s. induction p as [|a p IH]; intros s; simpl.
  - split; [by exists s|done].
  - destruct s as [|b s].
    + split; [done|by intros [r ?]].
    + destruct (Ascii.eqb_spec a b) as [->|Hne].
      * rewrite IH. split; intros [r Hr]; exists r;
          rewrite ?append_cons in *; congruence.
      * split; [done|]. intros [r Hr]; rewrite append_cons in Hr. congruence.
Qed.

Lemma endsWith_unfold s p :
  Js.endsWith s p =
  if String.eqb s p then true
  else match s with
       | EmptyString => false
       | String _ s' => Js.endsWith s' p
       end.
Proof. by destruct s. Qed.

Lemma includes_unfold s p :
  Js.includes s p =
  if Js.startsWith s p then true
  else match s with
       | EmptyString => false
       | String _ s' => Js.includes s' p
       end.
Proof. by destruct s. Qed.

Lemma endsWith_spec s p : Js.endsWith s p = true ↔ ends_with s p.
Proof.
  unfold ends_with. induction s as [|c s IH]; rewrite endsWith_unfold.
  - destruct (String.eqb_spec EmptyString p) as [<-|Hne].
    + split; [by exists EmptyString|done].
    + split; [done|]. intros [[|? r] Hr];
        rewrite ?append_cons, ?append_nil_l in Hr; congruence.
  - destruct (String.eqb_spec (String c s) p) as [<-|Hne].
    + split; [by exists EmptyString|done].
    + rewrite IH. split.
      * intros [r ->]. by exists (String c r).
      * intros [[|c' r] Hr]; rewrite ?append_cons, ?append_nil_l in Hr;
          [congruence|].
        exists r. congruence.
Qed.

Lemma includes_spec s p : Js.includes s p = true ↔ contains s p.
Proof.
  unfold contains. induction s as [|c s IH]; rewrite includes_unfold.
  - destruct (Js.startsWith EmptyString p) eqn:Hst.
    + apply startsWith_spec in Hst as [r Hr]. split; [|done].
      intros _. by exists EmptyString, r.
    + split; [done|]. intros [[|? a] [b Hb]];
        rewrite ?append_cons, ?append_nil_l in Hb; [|done].
      assert (Js.startsWith EmptyString p = true)
        by (apply startsWith_spec; by exists b).
      congruence.
  - destruct (Js.startsWith (String c s) p) eqn:Hst.
    + apply startsWith_spec in Hst as [r Hr]. split; [|done].
      intros _. by exists EmptyString, r.
    + rewrite IH. split.
      * intros (a & b & ->). by exists (String c a), b.
      * intros ([|c' a] & b & Hb); rewrite ?append_cons, ?append_nil_l in Hb.
        { assert (Js.startsWith (String c s) p = true)
            by (apply startsWith_spec; by exists b).
          congruence. }
        exists a, b. congruence.
Qed.

(** Case folding leaves white space and slashes alone and is idempotent. *)
Lemma is_white_space_lower c :
  Js.is_white_space (Js.lower_char c) = Js.is_white_space c.
Proof. by_code_units c. Qed.

Lemma is_slash_lower c : Js.is_slash (Js.lower_char c) = Js.is_slash c.
Proof. by_code_units c. Qed.

Lemma lower_char_idemp c : Js.lower_char (Js.lower_char c) = Js.lower_char c.
Proof. by_code_units c. Qed.

Lemma toLowerCase_idemp s : Js.toLowerCase (Js.toLowerCase s) = Js.toLowerCase s.
Proof. induction s; simpl; [done|]. by rewrite lower_char_idemp, IHs. Qed.

Lemma trimStart_lower s :
  Js.trimStart (Js.toLowerCase s) = Js.toLowerCase (Js.trimStart s).
Proof.
  induction s as [|c s IH]; simpl; [done|].
  rewrite is_white_space_lower. by destruct (Js.is_white_space c).
Qed.

Lemma trimEnd_lower s :
  Js.trimEnd (Js.toLowerCase s) = Js.toLowerCase (Js.trimEnd s).
Proof.
  induction s as [|c s IH]; simpl; [done|].
  rewrite IH, is_white_space_lower.
  destruct (Js.trimEnd s); simpl; [|done].
  by destruct (Js.is_white_space c).
Qed.

Lemma trim_lower s : Js.trim (Js.toLowerCase s) = Js.toLowerCase (Js.trim s).
Proof. unfold Js.trim. by rewrite trimStart_lower, trimEnd_lower. Qed.

Lemma strip_trailing_slashes_lower s :
  Js.strip_trailing_slashes (Js.toLowerCase s)
  = Js.toLowerCase (Js.strip_trailing_slashes s).
Proof.
  induction s as [|c s IH]; simpl; [done|].
  rewrite IH, is_slash_lower.
  destruct (Js.strip_trailing_slashes s); simpl; [|done].
  by destruct (Js.is_slash c).
Qed.

Lemma has_slash_lower s : Js.has_slash (Js.toLowerCase s) = Js.has_slash s.
Proof. induction s; simpl; [done|]. by rewrite is_slash_lower, IHs. Qed.

Lemma last_segment_lower s :
  Js.last_segment (Js.toLowerCase s) = Js.toLowerCase (Js.last_segment s).
Proof.
  induction s as [|c s IH]; simpl; [done|].
  rewrite has_slash_lower, is_slash_lower, IH.
  destruct (Js.has_slash s); [done|]. by destruct (Js.is_slash c).
Qed.

Lemma basename_lower s :
  Js.basename (Js.toLowerCase s) = Js.toLowerCase (Js.basename s).
Proof.
  unfold Js.basename. by rewrite strip_trailing_slashes_lower, last_segment_lower.
Qed.

Lemma truthy_lower s : Js.truthy (Js.toLowerCase s) = Js.truthy s.
Proof. by destruct s. Qed.

Lemma truthy_false s : Js.truthy s = false ↔ s = EmptyString.
Proof. by destruct s. Qed.

End StringFacts.

(* ====================================================================== *)
(** * Theorems: isLikelyTempArtifactPath                                   *)
(* ====================================================================== *)

Lemma temp_like_empty : ¬ temp_like EmptyString.
Proof.
  intros [[r Hr]|[[r Hr]|(a & b & Hab)]].
  - done.
  - by destruct r.
  - by destruct a.
Qed.

(** The classification is the temp-artifact test on the case-folded
    basename of the trimmed path. *)
Lemma isLikelyTempArtifactPath_spec (filePath : string) :
  isLikelyTempArtifactPath filePath = true ↔
  temp_like (Js.toLowerCase (Js.basename (Js.trim filePath))).
Proof.
  unfold isLikelyTempArtifactPath, temp_like.
  rewrite <- startsWith_spec, <- endsWith_spec, <- includes_spec.
  destruct (Js.truthy (Js.trim filePath)) eqn:Htr; cbn [negb].
  - set (base := Js.toLowerCase _).
    destruct (Js.startsWith base "__tmp"), (Js.endsWith base ".tmp"),
      (Js.includes base ".tmp."); intuition discriminate.
  - apply truthy_false in Htr. rewrite Htr.
    split; [done|]. vm_compute. intuition discriminate.
Qed.

(** C9, as amended.  A path is classified as a temp artifact exactly when
    the case-folded basename of the path with its surrounding white space
    removed starts with "__tmp", ends with ".tmp" or contains ".tmp.";
    the answer does not depend on the case of the path; an empty or
    white-space-only path is never temp-like; and the four sample paths
    are classified as listed. *)
Theorem isLikelyTempArtifactPath_trimmed_basename (filePath : string) :
  (isLikelyTempArtifactPath filePath = true ↔
   temp_like (Js.toLowerCase (Js.basename (Js.trim filePath)))) ∧
  isLikelyTempArtifactPath (Js.toLowerCase filePath)
  = isLikelyTempArtifactPath filePath ∧
  (Js.trim filePath = EmptyString → isLikelyTempArtifactPath filePath = false) ∧
  isLikelyTempArtifactPath EmptyString = false ∧
  isLikelyTempArtifactPath "file.tmp" = true ∧
  isLikelyTempArtifactPath "__tmp_x" = true ∧
  isLikelyTempArtifactPath "a.tmp.bak" = true ∧
  isLikelyTempArtifactPath "A.TMP.BAK" = true.
Proof.
  split; [apply isLikelyTempArtifactPath_spec|].
  split; [|split; [|done]].
  - unfold isLikelyTempArtifactPath.
    by rewrite trim_lower, truthy_lower, basename_lower, toLowerCase_idemp.
  - intros Htr. unfold isLikelyTempArtifactPath. by rewrite Htr.
Qed.

Lemma isLikelyTempArtifactPath_trimmed_basename_witness :
  isLikelyTempArtifactPath "   " = false.
Proof.
  destruct (isLikelyTempArtifactPath_trimmed_basename "   ")
    as (_ & _ & Hblank & _).
  apply Hblank. reflexivity.
Defined.

(** C9, as stated, fails.  A path with a leading blank is classified as a
    temp artifact although its own case-folded basename neither starts
    with "__tmp", nor ends with ".tmp", nor contains ".tmp.". *)
Lemma isLikelyTempArtifactPath_untrimmed_counterexample :
  isLikelyTempArtifactPath " __tmp_x" = true ∧
  ¬ claimed_temp_artifact " __tmp_x".
Proof.
  split; [done|].
  unfold claimed_temp_artifact, temp_like.
  rewrite <- startsWith_spec, <- endsWith_spec, <- includes_spec.
  vm_compute. intuition discriminate.
Qed.

(* ====================================================================== *)
(** * Theorems: extractUserCompactionNote                                  *)
(* ====================================================================== *)

Section CompactCommand.

Lemma match_literal_i_folded (pat s : string) :
  folded_pattern pat →
  Js.match_literal_i pat s =
  if String.eqb (Js.toLowerCase (Js.take (String.length pat) s)) pat
  then Some (Js.skip (String.length pat) s) else None.
Proof.
  revert s. induction pat as [|a pat IH]; intros s Hpat; [done|].
  destruct Hpat as [Ha Hpat]. destruct s as [|b s]; [done|].
  cbn [Js.match_literal_i String.length Js.take Js.skip Js.toLowerCase].
  rewrite Ha, (IH s Hpat).
  change (String.eqb (String ?x ?u) (String ?y ?v))
    with (if Ascii.eqb x y then String.eqb u v else false).
  by destruct (Ascii.eqb (Js.lower_char b) a).
Qed.

Lemma compact_folded : folded_pattern "/compact".
Proof.
  repeat split; intros b; by_code_units b.
Qed.

Lemma match_literal_i_compact (trimmed : string) :
  Js.match_literal_i "/compact" trimmed =
  if has_compact_prefix trimmed then Some (Js.skip 8 trimmed) else None.
Proof.
  rewrite (match_literal_i_folded _ _ compact_folded).
  unfold has_compact_prefix.
  change (String.length "/compact") with 8.
  destruct (String.eqb_spec (Js.toLowerCase (Js.take 8 trimmed)) "/compact").
  - by rewrite bool_decide_eq_true_2.
  - by rewrite bool_decide_eq_false_2.
Qed.

Lemma blank_is_white_space (c : ascii) :
  (Js.code c =? 32) || (Js.code c =? 9) = true → Js.is_white_space c = true.
Proof. by_code_units c. Qed.

Lemma trimStart_skip_blanks (s : string) :
  Js.trimStart (Js.skip_blanks s) = Js.trimStart s.
Proof.
  induction s as [|c s IH]; [done|]. cbn [Js.skip_blanks].
  destruct ((Js.code c =? 32) || (Js.code c =? 9)) eqn:Hc; [|done].
  cbn [Js.trimStart]. by rewrite (blank_is_white_space c Hc).
Qed.

Lemma trim_skip_blanks (s : string) : Js.trim (Js.skip_blanks s) = Js.trim s.
Proof. unfold Js.trim. by rewrite trimStart_skip_blanks. Qed.

Lemma length_pos_truthy (s : string) : (0 <? String.length s) = Js.truthy s.
Proof. by destruct s. Qed.

(** One turn of the scan: a message that carries the command decides,
    any other message is passed over. *)
Lemma scan_for_note_cons (msg : LlmMessage) (rest : list LlmMessage) :
  scan_for_note (msg :: rest) =
  if is_compact_command (trimmed_text msg)
  then note_of (trimmed_text msg)
  else scan_for_note rest.
Proof.
  cbn [scan_for_note]. unfold trimmed_text.
  destruct (extractTextFromLlmMessageContent (content msg)) as [|c text] eqn:Ht.
  { done. }
  cbn [Js.truthy negb]. unfold match_compact, is_compact_command.
  rewrite match_literal_i_compact.
  destruct (has_compact_prefix _); [|done]. cbn [andb]. unfold note_of.
  destruct (Js.skip 8 _) as [|c' rest'] eqn:Hrest.
  - done.
  - destruct (Js.is_word_char c'); [done|]. cbn [negb].
    by rewrite trim_skip_blanks, length_pos_truthy.
Qed.

Lemma scan_for_note_skip (later rest : list LlmMessage) :
  Forall (λ m, is_compact_command (trimmed_text m) = false) later →
  scan_for_note (later ++ rest) = scan_for_note rest.
Proof.
  induction 1 as [|m later Hm _ IH]; [done|].
  rewrite <- app_comm_cons, scan_for_note_cons. by rewrite Hm.
Qed.

End CompactCommand.

(** C7, as amended.  The user messages are scanned from the most recent
    to the oldest and the first one whose trimmed text is the command
    decides: the command is "/compact" in any case, not followed by a
    letter, a digit or an underscore.  Its remainder, trimmed, is the note
    when it is not empty; when it is empty there is no note, whatever the
    earlier messages hold; and without any such message there is no
    note. *)
Theorem extractUserCompactionNote_most_recent_command
    (llmMessages : list LlmMessage) :
  (∀ earlier msg later,
     filter (λ m, role m = Some "user") llmMessages = earlier ++ msg :: later →
     is_compact_command (trimmed_text msg) = true →
     Forall (λ m, is_compact_command (trimmed_text m) = false) later →
     extractUserCompactionNote llmMessages = note_of (trimmed_text msg)) ∧
  (Forall (λ m, is_compact_command (trimmed_text m) = false)
     (filter (λ m, role m = Some "user") llmMessages) →
   extractUserCompactionNote llmMessages = None).
Proof.
  unfold extractUserCompactionNote. split.
  - intros earlier msg later -> Hmsg Hlater.
    rewrite reverse_app, reverse_cons, <- app_assoc.
    rewrite scan_for_note_skip by (by apply Forall_reverse).
    cbn [app]. by rewrite scan_for_note_cons, Hmsg.
  - intros Hnone.
    rewrite <- (app_nil_r (reverse _)).
    by rewrite scan_for_note_skip by (by apply Forall_reverse).
Qed.

Lemma extractUserCompactionNote_most_recent_command_witness :
  extractUserCompactionNote
    [user_message "/compact old note"; user_message "/compact   "]
  = note_of (trimmed_text (user_message "/compact   ")).
Proof.
  apply (proj1 (extractUserCompactionNote_most_recent_command
                  [user_message "/compact old note";
                   user_message "/compact   "])
           [user_message "/compact old note"]
           (user_message "/compact   ") []).
  - reflexivity.
  - reflexivity.
  - constructor.
Defined.

(** C7, as stated, fails.  The text "/compactfoo" has the prefix and the
    remainder "foo", yet the code does not take it for the command: it
    yields no note where the statement yields "foo". *)
Lemma extractUserCompactionNote_prefix_counterexample :
  extractUserCompactionNote [user_message "/compactfoo"] = None ∧
  claimed_extractUserCompactionNote [user_message "/compactfoo"] = Some "foo".
Proof. split; reflexivity. Qed.

(* ====================================================================== *)
(** * Theorems: detectFileOpsFromConversation                              *)
(* ====================================================================== *)

Section FileOps.

Implicit Types l acc : list string.
Implicit Types index : gmap string ToolCallInfo.

Lemma filter_all (P : string → Prop) `{!∀ x, Decision (P x)} l :
  (∀ x, x ∈ l → P x) → filter P l = l.
Proof.
  induction l as [|x l IH]; intros HP; [done|].
  rewrite filter_cons_True by (apply HP; left).
  rewrite IH; [done|]. intros y Hy. apply HP. by right.
Qed.

(** The JavaScript [Set] keeps first occurrences, in their order. *)
Lemma Set_of_acc acc l :
  foldl (λ acc v, if decide (v ∈ acc) then acc else acc ++ [v]) acc l
  = acc ++ filter (λ y, y ∉ acc) (dedup_first l).
Proof.
  revert acc. induction l as [|x l IH]; intros acc; simpl.
  { by rewrite app_nil_r. }
  rewrite IH. case_decide as Hx.
  - rewrite filter_cons_False by (by intros ?).
    f_equal. rewrite list_filter_filter. apply list_filter_iff.
    intros y. split; [intros ?; split; [done|by intros ->]|by intros []].
  - rewrite filter_cons_True by done.
    rewrite <- app_assoc. simpl. do 2 f_equal.
    rewrite list_filter_filter. apply list_filter_iff.
    intros y. rewrite not_elem_of_app, list_elem_of_singleton. tauto.
Qed.

Lemma elem_of_dedup_first l x : x ∈ dedup_first l ↔ x ∈ l.
Proof.
  induction l as [|y l IH]; simpl; [done|].
  rewrite !elem_of_cons, list_elem_of_filter, IH.
  destruct (decide (x = y)); tauto.
Qed.

Lemma NoDup_dedup_first l : NoDup (dedup_first l).
Proof.
  induction l as [|y l IH]; simpl; constructor.
  - rewrite list_elem_of_filter. tauto.
  - by apply NoDup_filter.
Qed.

Lemma Set_of_dedup_first l : Set_of l = dedup_first l.
Proof.
  unfold Set_of. rewrite Set_of_acc. simpl.
  apply filter_all. intros y _. apply not_elem_of_nil.
Qed.

Lemma filter_truthy_trim l :
  filter (λ v, Js.truthy v = true)
    (Js.trim <$> filter (λ v, Js.truthy v = true) l)
  = filter (λ v, Js.truthy v = true) (Js.trim <$> l).
Proof.
  induction l as [|x l IH]; [done|].
  destruct x as [|c x].
  - rewrite filter_cons_False by done. rewrite IH. by rewrite fmap_cons.
  - rewrite filter_cons_True by done. rewrite !fmap_cons.
    destruct (Js.truthy (Js.trim (String c x))) eqn:Ht.
    + rewrite !filter_cons_True by done. by rewrite IH.
    + rewrite !filter_cons_False by (by rewrite Ht). done.
Qed.

(** The lookup of the call and the test of its name, on both sides. *)
Ltac resolve_call index msg :=
  destruct (toolCallId msg) as [id|]; [|done]; simpl;
  destruct (index !! id) as [call|]; [|done]; simpl;
  destruct (decide (name call = "write")) as [Hw|Hw];
  destruct (decide (name call = "edit")) as [He|He];
  rewrite ?(bool_decide_eq_false_2 (name call ≠ "write")) by (by intros ?);
  rewrite ?(bool_decide_eq_false_2 (name call ≠ "edit")) by (by intros ?);
  rewrite ?(bool_decide_eq_true_2 (name call ≠ "write")) by done;
  rewrite ?(bool_decide_eq_true_2 (name call ≠ "edit")) by done;
  simpl; (rewrite decide_True by tauto) || (rewrite decide_False by tauto);
  done.

(** What one message adds to [modifiedFiles], before truthiness. *)
Lemma mutated_path_code index (msg : LlmMessage) :
  (if bool_decide (role msg ≠ Some "toolResult") || default false (isError msg)
   then None
   else extractModifiedPathFromToolResult msg index)
  = mutated_path index msg.
Proof.
  unfold mutated_path, extractModifiedPathFromToolResult.
  destruct (decide (role msg = Some "toolResult")) as [Hrole|Hrole].
  - rewrite bool_decide_eq_false_2 by (by intros ?). simpl.
    destruct (isError msg) as [[]|] eqn:Herr; simpl.
    + rewrite decide_False; [done|]. by intros [_ ?].
    + rewrite decide_True by done. resolve_call index msg.
    + rewrite decide_True by done. resolve_call index msg.
  - rewrite bool_decide_eq_true_2 by done. simpl.
    rewrite decide_False; [done|]. by intros [? _].
Qed.

Lemma collect_modified_acc index acc (llmMessages : list LlmMessage) :
  foldl (λ modifiedFiles msg,
           if bool_decide (role msg ≠ Some "toolResult")
              || default false (isError msg)
           then modifiedFiles
           else match extractModifiedPathFromToolResult msg index with
                | Some modifiedPath =>
                    if Js.truthy modifiedPath
                    then modifiedFiles ++ [modifiedPath]
                    else modifiedFiles
                | None => modifiedFiles
                end)
        acc llmMessages
  = acc ++ filter (λ v, Js.truthy v = true)
             (omap (mutated_path index) llmMessages).
Proof.
  revert acc. induction llmMessages as [|msg l IH]; intros acc; simpl.
  { by rewrite app_nil_r. }
  rewrite IH, <- (mutated_path_code index msg).
  destruct (bool_decide _ || _); [done|].
  destruct (extractModifiedPathFromToolResult msg index) as [p|]; [|done].
  destruct (Js.truthy p) eqn:Hp.
  - rewrite filter_cons_True by done. by rewrite <- app_assoc.
  - rewrite filter_cons_False by (by rewrite Hp). done.
Qed.

Lemma collect_modified_spec index (llmMessages : list LlmMessage) :
  collect_modified index llmMessages
  = filter (λ v, Js.truthy v = true) (omap (mutated_path index) llmMessages).
Proof. unfold collect_modified. by rewrite collect_modified_acc. Qed.

(** Only assistant messages take part in the index of tool calls. *)
Lemma extractToolCallsFromMessages_skip (before after : list LlmMessage)
    (msg : LlmMessage) :
  role msg ≠ Some "assistant" →
  extractToolCallsFromMessages (before ++ msg :: after)
  = extractToolCallsFromMessages (before ++ after).
Proof.
  intros Hrole. unfold extractToolCallsFromMessages.
  rewrite !foldl_app. simpl. by rewrite decide_False.
Qed.

Lemma detect_modifiedFiles (llmMessages : list LlmMessage) :
  modifiedFiles (detectFileOpsFromConversation llmMessages)
  = dedup_first
      (filter (λ v, Js.truthy v = true)
         (Js.trim <$>
            omap (mutated_path (extractToolCallsFromMessages llmMessages))
                 llmMessages)).
Proof.
  unfold detectFileOpsFromConversation. cbn [modifiedFiles].
  change (uniqStrings []) with (@nil string).
  rewrite filter_all by (intros p _; apply not_elem_of_nil).
  unfold uniqStrings.
  by rewrite Set_of_dedup_first, collect_modified_spec, filter_truthy_trim.
Qed.

Lemma detect_deletedFiles (llmMessages : list LlmMessage) :
  deletedFiles (detectFileOpsFromConversation llmMessages) = [].
Proof. done. Qed.

End FileOps.

Lemma mutated_path_none (index : gmap string ToolCallInfo) (msg : LlmMessage) :
  isError msg = Some true ∨ toolCallId msg = None ∨
  (∃ id, toolCallId msg = Some id ∧ index !! id = None) →
  mutated_path index msg = None.
Proof.
  unfold mutated_path. intros [Herr|[Hid|(id & Hid & Hidx)]].
  - rewrite decide_False; [done|]. by intros [_ ?].
  - case_decide; [|done]. by rewrite Hid.
  - case_decide; [|done]. rewrite Hid. simpl. by rewrite Hidx.
Qed.

Lemma detect_eta (llmMessages : list LlmMessage) :
  detectFileOpsFromConversation llmMessages
  = {| modifiedFiles :=
         modifiedFiles (detectFileOpsFromConversation llmMessages);
       deletedFiles := [] |}.
Proof. done. Qed.

(** C2, as amended.  [modifiedFiles] is the first-occurrence-order
    deduplication of the trimmed, non-empty "path" arguments of the
    indexed "write" and "edit" calls whose tool-result message does not
    signal failure, with the paths also present in [deletedFiles]
    removed; a tool-result message that signals failure, or whose
    linkage id is missing or not indexed, contributes nothing, wherever it
    stands, so that a later failed call does not remove an earlier path;
    and a user message, an assistant message with a "write" call to
    "/src/a.ts" and the non-failing result of that call yield
    ["/src/a.ts"] and no deleted path. *)
Theorem detectFileOps_modified_trimmed_paths (llmMessages : list LlmMessage) :
  modifiedFiles (detectFileOpsFromConversation llmMessages)
  = filter
      (λ p, p ∉ deletedFiles (detectFileOpsFromConversation llmMessages))
      (dedup_first
         (filter (λ v, Js.truthy v = true)
            (Js.trim <$>
               omap (mutated_path (extractToolCallsFromMessages llmMessages))
                    llmMessages))) ∧
  (∀ before msg after,
     llmMessages = before ++ msg :: after →
     role msg = Some "toolResult" →
     isError msg = Some true ∨ toolCallId msg = None ∨
     (∃ id, toolCallId msg = Some id ∧
            extractToolCallsFromMessages llmMessages !! id = None) →
     detectFileOpsFromConversation llmMessages
     = detectFileOpsFromConversation (before ++ after)) ∧
  detectFileOpsFromConversation
    [user_message "please add the file";
     assistant_message [tool_call_block "call-1" "write" "/src/a.ts"];
     tool_result_message "call-1" false]
  = {| modifiedFiles := ["/src/a.ts"]; deletedFiles := [] |}.
Proof.
  split; [|split; [|done]].
  { rewrite detect_modifiedFiles. symmetry. apply filter_all.
    intros p _. apply not_elem_of_nil. }
  intros before msg after -> Hrole Hnone.
  rewrite (detect_eta (before ++ msg :: after)), (detect_eta (before ++ after)).
  f_equal. rewrite !detect_modifiedFiles.
  assert (Hidx : extractToolCallsFromMessages (before ++ msg :: after)
                 = extractToolCallsFromMessages (before ++ after)).
  { apply extractToolCallsFromMessages_skip. by rewrite Hrole. }
  rewrite <- Hidx. do 3 f_equal.
  rewrite !omap_app. f_equal. simpl.
  by rewrite (mutated_path_none _ _ Hnone).
Qed.

Lemma detectFileOps_modified_trimmed_paths_witness :
  detectFileOpsFromConversation
    [assistant_message [tool_call_block "call-1" "write" "/src/a.ts";
                        tool_call_block "call-2" "edit" "/src/a.ts"];
     tool_result_message "call-1" false;
     tool_result_message "call-2" true]
  = detectFileOpsFromConversation
      ([assistant_message [tool_call_block "call-1" "write" "/src/a.ts";
                           tool_call_block "call-2" "edit" "/src/a.ts"];
        tool_result_message "call-1" false] ++ []).
Proof.
  apply (proj1 (proj2 (detectFileOps_modified_trimmed_paths _))
           _ (tool_result_message "call-2" true) []).
  - reflexivity.
  - reflexivity.
  - left. reflexivity.
Defined.

(** C2, as stated, fails.  The successful "write" call has the path
    "/src/a.ts " with a trailing blank: the deduplicated path arguments
    are that very string, the code reports the trimmed one. *)
Lemma detectFileOps_untrimmed_counterexample :
  let conversation :=
    [assistant_message [tool_call_block "call-1" "write" "/src/a.ts "];
     tool_result_message "call-1" false] in
  modifiedFiles (detectFileOpsFromConversation conversation) = ["/src/a.ts"] ∧
  claimed_modifiedFiles conversation
    (deletedFiles (detectFileOpsFromConversation conversation))
  = ["/src/a.ts "].
Proof. split; by vm_compute. Qed.

(** A tool call without a tool-result message modifies nothing. *)
Example detectFileOps_call_without_result :
  detectFileOpsFromConversation
    [user_message "please add the file";
     assistant_message [tool_call_block "call-1" "write" "/src/a.ts"]]
  = {| modifiedFiles := []; deletedFiles := [] |}.
Proof. done. Qed.

(** C10.  No path is ever added to the deleted paths: [deletedFiles] is
    empty for every conversation, so the removal of deleted paths from
    [modifiedFiles] keeps every deduplicated modified path, and the two
    lists have no path in common. *)
Theorem detectFileOps_deleted_always_empty (llmMessages : list LlmMessage) :
  deletedFiles (detectFileOpsFromConversation llmMessages) = [] ∧
  modifiedFiles (detectFileOpsFromConversation llmMessages)
  = uniqStrings
      (collect_modified (extractToolCallsFromMessages llmMessages)
                        llmMessages) ∧
  ∀ p, ¬ (p ∈ modifiedFiles (detectFileOpsFromConversation llmMessages) ∧
          p ∈ deletedFiles (detectFileOpsFromConversation llmMessages)).
Proof.
  split; [done|]. split.
  - unfold detectFileOpsFromConversation. cbn [modifiedFiles].
    change (uniqStrings []) with (@nil string).
    apply filter_all. intros p _. apply not_elem_of_nil.
  - intros p [_ Hp]. by apply elem_of_nil in Hp.
Qed.

(* ====================================================================== *)
(** * Theorems: selectCompactionModel                                      *)
(* ====================================================================== *)

Section ModelSelectionProofs.

Context {Model : Type}.
Variable model_provider : Model → string.
Variable model_id : Model → string.
Variable CONFIG : ExtensionConfig.
Variable modelRegistry : ModelRegistry Model.

Local Abbreviation find_registered' :=
  (find_registered model_provider model_id modelRegistry).
Local Abbreviation select_configured' :=
  (select_configured model_provider model_id CONFIG modelRegistry).
Local Abbreviation selectCompactionModel' :=
  (selectCompactionModel model_provider model_id CONFIG modelRegistry).
Local Abbreviation registered_match' :=
  (registered_match model_provider model_id modelRegistry).
Local Abbreviation credential_present' := (credential_present modelRegistry).
Local Abbreviation usable' := (usable model_provider model_id modelRegistry).

Lemma find_registered_Some (cfg : CompactionModelConfig) (m : Model) :
  find_registered' cfg = Some m ↔ registered_match' cfg m.
Proof.
  unfold find_registered, registered_match.
  split.
  - destruct (list_find _ _) as [[i m']|] eqn:Hfind; [|done].
    intros [= <-]. apply list_find_Some in Hfind as (? & ? & ?).
    exists i. eauto.
  - intros (i & Hi & Hm & Hfirst).
    assert (list_find
              (λ m0, model_provider m0 = cfg_provider cfg ∧
                     model_id m0 = cfg_id cfg)
              (getAll modelRegistry) = Some (i, m)) as ->; [|done].
    apply list_find_Some. eauto.
Qed.

Lemma truthy_true (key : string) : Js.truthy key = true ↔ key ≠ EmptyString.
Proof. by destruct key. Qed.

(** A candidate that is not usable is passed over. *)
Lemma select_configured_skip (skipped rest : list CompactionModelConfig) :
  Forall (λ cfg, ¬ usable' cfg) skipped →
  select_configured' (skipped ++ rest) = select_configured' rest.
Proof.
  induction 1 as [|cfg skipped Hcfg _ IH]; [done|].
  rewrite <- app_comm_cons. cbn [select_configured].
  destruct (find_registered' cfg) as [m|] eqn:Hm; [|done].
  destruct (getApiKey modelRegistry m) as [key|] eqn:Hkey; [|done].
  destruct (Js.truthy key) eqn:Htruthy; [|done].
  destruct Hcfg. exists m, key. split.
  - by apply find_registered_Some.
  - split; [done|]. by apply truthy_true.
Qed.

(** The first usable candidate wins. *)
Lemma select_configured_hit (cfg : CompactionModelConfig)
    (rest : list CompactionModelConfig) (m : Model) (key : string) :
  registered_match' cfg m → credential_present' m key →
  select_configured' (cfg :: rest)
  = Some {| model := m; apiKey := key;
            sel_thinkingLevel :=
              default (thinkingLevel CONFIG) (cfg_thinkingLevel cfg) |}.
Proof.
  intros Hm%find_registered_Some [Hkey Hne%truthy_true].
  cbn [select_configured].
  by rewrite Hm, Hkey, Hne.
Qed.

(** C6, as amended.  The candidates are tried in listed order and the
    first one that has both a registered model with its provider and id
    and a credential that is neither absent nor empty is returned, with
    its own thinking level or else the global default; when no candidate
    is usable the session default is returned with the global default
    thinking level if its credential is neither absent nor empty;
    otherwise the answer is "no usable model", in particular for an empty
    candidate list without session default. *)
Theorem selectCompactionModel_first_usable (sessionModel : option Model) :
  (∀ skipped cfg rest m key,
     compactionModels CONFIG = skipped ++ cfg :: rest →
     Forall (λ c, ¬ usable model_provider model_id modelRegistry c) skipped →
     registered_match model_provider model_id modelRegistry cfg m →
     credential_present modelRegistry m key →
     selectCompactionModel model_provider model_id CONFIG modelRegistry
       sessionModel
     = Some {| model := m; apiKey := key;
               sel_thinkingLevel :=
                 default (thinkingLevel CONFIG) (cfg_thinkingLevel cfg) |}) ∧
  (∀ session key,
     Forall (λ c, ¬ usable model_provider model_id modelRegistry c)
            (compactionModels CONFIG) →
     sessionModel = Some session →
     credential_present modelRegistry session key →
     selectCompactionModel model_provider model_id CONFIG modelRegistry
       sessionModel
     = Some {| model := session; apiKey := key;
               sel_thinkingLevel := thinkingLevel CONFIG |}) ∧
  (Forall (λ c, ¬ usable model_provider model_id modelRegistry c)
          (compactionModels CONFIG) →
   sessionModel = None ∨
   (∃ session, sessionModel = Some session ∧
               ∀ key, ¬ credential_present modelRegistry session key) →
   selectCompactionModel model_provider model_id CONFIG modelRegistry
     sessionModel = None) ∧
  (compactionModels CONFIG = [] → sessionModel = None →
   selectCompactionModel model_provider model_id CONFIG modelRegistry
     sessionModel = None).
Proof.
  unfold selectCompactionModel.
  split; [|split; [|split]].
  - intros skipped cfg rest m key -> Hskipped Hm Hkey.
    rewrite select_configured_skip by done.
    by rewrite (select_configured_hit cfg rest m key).
  - intros session key Hnone -> [Hkey Hne%truthy_true].
    rewrite <- (app_nil_r (compactionModels CONFIG)).
    rewrite select_configured_skip by done. simpl.
    by rewrite Hkey, Hne.
  - intros Hnone Hsession.
    rewrite <- (app_nil_r (compactionModels CONFIG)).
    rewrite select_configured_skip by done. simpl.
    destruct Hsession as [->|(session & -> & Hkey)]; [done|].
    destruct (getApiKey modelRegistry session) as [key|] eqn:Hget; [|done].
    destruct (Js.truthy key) eqn:Htruthy; [|done].
    destruct (Hkey key). split; [done|]. by apply truthy_true.
  - by intros -> ->.
Qed.

End ModelSelectionProofs.

Lemma selectCompactionModel_first_usable_witness :
  selectCompactionModel fst snd DEFAULT_CONFIG sample_registry None
  = Some {| model := ("anthropic", "claude-haiku-4-5");
            apiKey := "anthropic-key";
            sel_thinkingLevel := off |}.
Proof.
  apply (proj1 (selectCompactionModel_first_usable fst snd DEFAULT_CONFIG
                  sample_registry None)
           [ {| cfg_provider := "cerebras"; cfg_id := "qwen-3-32b";
                cfg_thinkingLevel := None |} ]
           {| cfg_provider := "anthropic"; cfg_id := "claude-haiku-4-5";
              cfg_thinkingLevel := None |}
           []).
  - reflexivity.
  - constructor; [|constructor].
    intros (m & key & (i & _ & [Hp _] & _) & Hget & _).
    simpl in Hp, Hget. rewrite decide_False in Hget; [done|].
    by rewrite Hp.
  - exists 1. split; [reflexivity|]. split; [done|].
    intros j m' Hj Hlt. destruct j as [|[|j]]; [|lia|lia].
    simpl in Hj. injection Hj as <-. by intros [? _].
  - split; [reflexivity|done].
Defined.

(** C6, as stated, fails.  The first candidate has a registered model and
    the registry yields a credential for it, the empty string: the
    credential is not absent, yet the code passes the candidate over and
    returns the session model, where the statement returns the
    candidate. *)
Lemma selectCompactionModel_empty_key_counterexample :
  selectCompactionModel fst snd DEFAULT_CONFIG empty_key_registry
    (Some ("openai", "gpt-session"))
  = Some {| model := ("openai", "gpt-session"); apiKey := "session-key";
            sel_thinkingLevel := off |} ∧
  claimed_selectCompactionModel fst snd empty_key_registry DEFAULT_CONFIG
    (Some ("openai", "gpt-session"))
  = Some {| model := ("cerebras", "qwen-3-32b"); apiKey := EmptyString;
            sel_thinkingLevel := off |}.
Proof. split; reflexivity. Qed.
(* ====================================================================== *)
(** * Theorems: tool execution                                             *)
(* ====================================================================== *)

Section ToolExecutionProofs.

Variable CONFIG : ExtensionConfig.
Variable exec : gmap string string → CommandValue → exec_outcome.
Variable bashFiles : gmap string string.

(** [executeSingleToolCall] fulfils as soon as [arguments] can be
    destructured: what the sandbox throws is caught. *)
Lemma executeSingleToolCall_fulfils (tc : ToolCallContent)
    (command : CommandValue) :
  tc_arguments tc = Arguments command →
  ∃ r, executeSingleToolCall CONFIG exec tc bashFiles = Fulfilled r.
Proof.
  intros Hargs. unfold executeSingleToolCall, destructure_command.
  rewrite Hargs. destruct (try_catch _ _) as [res err]. by eexists.
Qed.

(** A call that fulfils had [arguments] to destructure. *)
Lemma executeSingleToolCall_Fulfilled (tc : ToolCallContent)
    (res : ToolCallExecResult) :
  executeSingleToolCall CONFIG exec tc bashFiles = Fulfilled res →
  ∃ command, tc_arguments tc = Arguments command.
Proof.
  unfold executeSingleToolCall, destructure_command.
  destruct (tc_arguments tc) as [| |command]; [done|done|]. by exists command.
Qed.

(** A thrown error becomes an error result carrying its message. *)
Lemma executeSingleToolCall_caught (tc : ToolCallContent)
    (command : CommandValue) (message : string) :
  tc_arguments tc = Arguments command →
  exec bashFiles command = ExecThrows (ThrownError message) →
  executeSingleToolCall CONFIG exec tc bashFiles
  = Fulfilled {| result := "Error: " +:+ message; isErrorFlag := true |}.
Proof.
  intros Hargs Hexec. unfold executeSingleToolCall, destructure_command.
  by rewrite Hargs, Hexec.
Qed.

(** A non-zero exit status sets the error flag and appends the exit-code
    marker before the text is cut. *)
Lemma executeSingleToolCall_exit_code (tc : ToolCallContent)
    (command : CommandValue) (r : BashExecResult) :
  tc_arguments tc = Arguments command →
  exec bashFiles command = ExecReturns r → exitCode r ≠ 0%Z →
  executeSingleToolCall CONFIG exec tc bashFiles
  = Fulfilled
      {| result :=
           Js.slice0
             ((stdout r +:+
               (if Js.truthy (stderr r)
                then Js.LF +:+ "stderr: " +:+ stderr r else EmptyString)) +:+
              Js.LF +:+ "exit code: " +:+ pretty (exitCode r))
             (toolResultMaxChars CONFIG);
         isErrorFlag := true |}.
Proof.
  intros Hargs Hexec Hcode. unfold executeSingleToolCall, destructure_command.
  rewrite Hargs, Hexec. cbn [try_catch]. by rewrite decide_True by done.
Qed.

Lemma length_take (n : nat) (s : string) :
  String.length (Js.take n s) = Nat.min n (String.length s).
Proof.
  revert s. induction n as [|n IH]; intros [|c s]; simpl; try done.
  by rewrite IH.
Qed.

(** When the sandbox returns, the text is cut to the configured length. *)
Lemma executeSingleToolCall_truncated (tc : ToolCallContent)
    (command : CommandValue) (r : BashExecResult) (res : ToolCallExecResult)
    (maxChars : nat) :
  tc_arguments tc = Arguments command →
  exec bashFiles command = ExecReturns r →
  toolResultMaxChars CONFIG = Js.of_nat maxChars →
  executeSingleToolCall CONFIG exec tc bashFiles = Fulfilled res →
  String.length (result res) ≤ maxChars.
Proof.
  intros Hargs Hexec Hmax. unfold executeSingleToolCall, destructure_command.
  rewrite Hargs, Hexec.
  cbn [try_catch]. destruct (decide _); intros [= <-]; cbn [result];
    unfold Js.slice0; rewrite length_take, Hmax; unfold Js.of_nat;
    cbn [Js.slice_end]; rewrite Qtrunc_inject_Z;
    destruct (Z.ltb_spec (Z.of_nat maxChars) 0); lia.
Qed.

End ToolExecutionProofs.

(** C8, at the failing input.  With [toolResultMaxChars] set to 5 and a
    sandbox that throws an error with the message "command failed", the
    call fulfils with the error flag set and with the 21 characters of
    "Error: command failed": the text of a caught failure is not cut to
    the configured maximum. *)
Theorem executeSingleToolCall_error_text_not_truncated :
  executeSingleToolCall (with_limits 5 6) throwing_exec
    (sample_call "call-1" "jq ." ) sample_files
  = Fulfilled {| result := "Error: command failed"; isErrorFlag := true |} ∧
  toolResultMaxChars (with_limits 5 6) = Js.of_Z 5 ∧
  String.length "Error: command failed" = 21.
Proof. done. Qed.

(** A call whose [arguments] is missing: the destructuring at the head of
    [executeSingleToolCall] stands outside the [try], so the call
    rejects. *)
Example executeSingleToolCall_without_arguments :
  executeSingleToolCall DEFAULT_CONFIG echo_exec
    {| tc_id := "call-1"; tc_name := "bash";
       tc_arguments := ArgumentsUndefined |} sample_files
  = Rejected
      (ThrownError
         "Cannot destructure property 'command' of 'tc.arguments' as it is undefined.").
Proof. reflexivity. Qed.
(* ====================================================================== *)
(** * Theorems: the agent loop                                             *)
(* ====================================================================== *)

Lemma parsePositiveInt_not_NaN (value : jsvalue) (defaultValue : Js.jsnum) :
  defaultValue ≠ Js.NaN → parsePositiveInt value defaultValue ≠ Js.NaN.
Proof.
  intros Hdef. destruct value as [| | |x| |]; try done. simpl.
  destruct x as [q| | |]; simpl; try done.
  by destruct (negb _).
Qed.

Lemma config_loaded_not_NaN (CONFIG : ExtensionConfig) :
  config_loaded CONFIG → toolCallConcurrency CONFIG ≠ Js.NaN.
Proof. intros [value ->]. by apply parsePositiveInt_not_NaN. Qed.

Section SequentialTotal.

Context {T U E : Type}.
Variable f : T → settled U E.

(** A mapper that fulfils on every item of the list makes the sequential
    map resolve. *)
Lemma sequentialMap_from_total (i : nat) (l : list T) (acc : list (option U)) :
  Forall (λ x, ∃ u, f x = Fulfilled u) l →
  ∃ us, sequentialMap_from (λ x _, f x) i l acc
        = Resolves (acc ++ (Some <$> us)) (seq 0 (i + length l)) ∧
        Forall2 (λ x u, f x = Fulfilled u) l us.
Proof.
  intros Hl. revert i acc.
  induction Hl as [|x l [u Hu] _ IH]; intros i acc; simpl.
  - exists []. by rewrite app_nil_r, Nat.add_0_r.
  - rewrite Hu.
    destruct (IH (S i) (acc ++ [Some u])) as (us & -> & Hus).
    exists (u :: us). rewrite <- app_assoc, Nat.add_succ_r. split; [done|].
    by constructor.
Qed.

End SequentialTotal.

Section AgentLoopProofs.

Context {Meta : Type}.
Variable CONFIG : ExtensionConfig.
Variable bashFiles : gmap string string.

Implicit Types env : Environment Meta.
Implicit Types st : LoopState Meta.
Implicit Types exec : gmap string string → CommandValue → exec_outcome.

(** The synchronous part of the mapper goes through exactly for the calls
    whose command can be sliced. *)
Lemma dispatch_notification_sliceable (tc : ToolCallContent) :
  command_sliceable tc ↔
  ∃ notification, dispatch_notification CONFIG tc = inr notification.
Proof.
  unfold command_sliceable, dispatch_notification, destructure_command.
  destruct (tc_arguments tc) as [| |[s|rendered| | |b|x|]]; simpl;
    split; try done; try (by intros [? [=]]); by eexists.
Qed.


(** For such a call the mapper is [executeSingleToolCall], which
    fulfils. *)
Lemma tool_mapper_sliceable exec (tc : ToolCallContent) :
  command_sliceable tc →
  tool_mapper CONFIG exec bashFiles tc
  = executeSingleToolCall CONFIG exec tc bashFiles ∧
  ∃ r, executeSingleToolCall CONFIG exec tc bashFiles = Fulfilled r.
Proof.
  intros Htc. unfold tool_mapper.
  destruct (proj1 (dispatch_notification_sliceable tc) Htc) as [n ->].
  split; [done|]. unfold command_sliceable in Htc.
  destruct (tc_arguments tc) as [| |command] eqn:Hargs; [done|done|].
  by apply (executeSingleToolCall_fulfils CONFIG exec bashFiles tc command).
Qed.

(** For any other call the mapper rejects with what its synchronous part
    throws, before any notification. *)
Lemma tool_mapper_Rejected exec (tc : ToolCallContent) (e : thrown) :
  tool_mapper CONFIG exec bashFiles tc = Rejected e ↔
  dispatch_notification CONFIG tc = inl e.
Proof.
  unfold tool_mapper.
  destruct (dispatch_notification CONFIG tc) as [e'|n] eqn:Hd.
  - split; by intros [= ->].
  - split; [|done].
    assert (Htc : command_sliceable tc)
      by (apply dispatch_notification_sliceable; by exists n).
    destruct (tool_mapper_sliceable exec tc Htc) as (_ & r & ->). done.
Qed.

(** A batch of calls whose commands can be sliced resolves with one
    result per call, in call order, every call having been invoked,
    whatever the scheduler does. *)
Lemma executeToolCalls_resolves exec (toolCalls : list ToolCallContent)
    (sched : nat → nat) :
  toolCallConcurrency CONFIG ≠ Js.NaN →
  Forall command_sliceable toolCalls →
  ∃ rs, executeToolCalls CONFIG exec toolCalls bashFiles sched
        = Resolves (Some <$> rs) (seq 0 (length toolCalls)) ∧
        Forall2 (λ tc r, executeSingleToolCall CONFIG exec tc bashFiles
                         = Fulfilled r) toolCalls rs.
Proof.
  intros Hc Hall.
  destruct (sequentialMap_from_total
              (tool_mapper CONFIG exec bashFiles) 0 toolCalls []) as
    (rs & Hseq & Hrs).
  { eapply Forall_impl; [exact Hall|]. intros tc Htc.
    destruct (tool_mapper_sliceable exec tc Htc) as (-> & r & Hr).
    by exists r. }
  exists rs. split.
  - unfold executeToolCalls. by apply mapWithConcurrency_sequential.
  - clear Hseq. revert rs Hrs.
    induction Hall as [|tc toolCalls Htc _ IH]; intros rs Hrs.
    + by inversion Hrs.
    + inversion Hrs as [|? r ? rs' Hr Hrs']; subst. constructor.
      * by rewrite <- (proj1 (tool_mapper_sliceable exec tc Htc)).
      * by apply IH.
Qed.

Lemma result_turns_resolved exec
    (toolCalls : list ToolCallContent) (rs : list ToolCallExecResult)
    (done_ : list (option ToolCallExecResult)) :
  Forall2 (λ tc r, executeSingleToolCall CONFIG exec tc bashFiles
                   = Fulfilled r) toolCalls rs →
  ∃ turns : list (Message Meta),
    result_turns (length done_) toolCalls (done_ ++ (Some <$> rs)) = inr turns ∧
    Forall2 (tool_result_turn CONFIG exec bashFiles) toolCalls turns.
Proof.
  intros Hrs. revert done_.
  induction Hrs as [|tc r toolCalls rs Hr _ IH]; intros done_.
  - by exists [].
  - cbn [result_turns]. rewrite lookup_app_r by done.
    rewrite Nat.sub_diag. cbn [fmap list_fmap lookup list_lookup].
    destruct (IH (done_ ++ [Some r])) as (turns & Hturns & Hall).
    rewrite length_app, Nat.add_1_r, <- app_assoc in Hturns.
    cbn [app] in Hturns. change (Some r :: list_fmap _ _ Some rs)
      with (Some r :: (Some <$> rs)). rewrite Hturns.
    eexists. split; [done|]. constructor; [|done]. by exists r.
Qed.

Lemma omap_ext_in {A B : Type} (g h : A → option B) (l : list A) :
  (∀ x, x ∈ l → g x = h x) → omap g l = omap h l.
Proof.
  induction l as [|x l IH]; intros Hgh; [done|]. csimpl.
  rewrite (Hgh x) by left. rewrite IH; [done|].
  intros y Hy. apply Hgh. by right.
Qed.

(** Once every call has been invoked, the notifications sent are those of
    the calls that got as far as [notifyFn], in call order. *)
Lemma notifications_of_all (toolCalls : list ToolCallContent) :
  notifications_of CONFIG toolCalls (seq 0 (length toolCalls))
  = omap (notification_of CONFIG) toolCalls.
Proof.
  unfold notifications_of.
  induction toolCalls as [|tc toolCalls IH] using rev_ind; [done|].
  rewrite length_app, Nat.add_1_r, seq_S, !omap_app. simpl.
  rewrite lookup_app_r, Nat.sub_diag by done. simpl. f_equal.
  rewrite <- IH. apply omap_ext_in.
  intros i Hi%elem_of_seq. by rewrite lookup_app_l by lia.
Qed.


End AgentLoopProofs.

Section AgentLoopTheorems.

Context {Meta : Type}.
Variable CONFIG : ExtensionConfig.
Variable bashFiles : gmap string string.

Implicit Types env : Environment Meta.
Implicit Types st : LoopState Meta.
Implicit Types response : AssistantResponse Meta.

Local Abbreviation executing' := (executing CONFIG bashFiles).
Local Abbreviation requesting' := (requesting CONFIG bashFiles).
Local Abbreviation agent_loop' := (agent_loop CONFIG bashFiles).

(** The state [executing] hands back to the loop for a batch of calls
    whose commands can be sliced. *)
Lemma executing_continues env st response (toolCalls : list ToolCallContent) :
  toolCallConcurrency CONFIG ≠ Js.NaN →
  Forall command_sliceable toolCalls →
  ∃ turns,
    executing' env st response toolCalls
    = Continue
        {| messages :=
             (messages st ++
              [AssistantMessage (resp_content response)
                 (Some (resp_meta response))]) ++ turns;
           trajectory :=
             (trajectory st ++
              [AssistantMessage (resp_content response)
                 (Some (resp_meta response))]) ++ turns;
           notified :=
             notified st ++ omap (notification_of CONFIG) toolCalls;
           requests := requests st;
           now := now st + length toolCalls;
           polls := polls st |} ∧
    Forall2 (tool_result_turn CONFIG (bash_exec env) bashFiles)
            toolCalls turns.
Proof.
  intros Hc Hcalls. unfold executing.
  destruct (executeToolCalls_resolves CONFIG bashFiles (bash_exec env)
              toolCalls (tool_sched env (requests st)) Hc Hcalls)
    as (rs & -> & Hrs).
  destruct (result_turns_resolved (Meta:=Meta) CONFIG bashFiles
              (bash_exec env) toolCalls rs [] Hrs) as (turns & Hturns & Hall).
  cbn [app length] in Hturns. rewrite Hturns.
  exists turns. split; [|done].
  cbn [messages trajectory notified requests now polls].
  by rewrite notifications_of_all, length_seq.
Qed.

(** The two ways the executing phase ends: the batch resolves and the
    loop goes on with every result turn appended, or the mapper throws on
    a call whose command cannot be sliced and the loop fails with that
    error after the assistant turn, without any result turn. *)
Lemma executing_cases env st response (toolCalls : list ToolCallContent) :
  toolCallConcurrency CONFIG ≠ Js.NaN →
  (Forall command_sliceable toolCalls ∧
   ∃ st', executing' env st response toolCalls = Continue st') ∨
  (∃ e final tc,
     executing' env st response toolCalls = Stop (Failed e) final ∧
     tc ∈ toolCalls ∧ dispatch_notification CONFIG tc = inl e ∧
     messages final
     = messages st ++
       [AssistantMessage (resp_content response) (Some (resp_meta response))] ∧
     requests final = requests st ∧ polls final = polls st).
Proof.
  intros Hc.
  destruct (mapWithConcurrency_ends toolCalls
              (λ tc _, tool_mapper CONFIG (bash_exec env) bashFiles tc)
              (toolCallConcurrency CONFIG) (tool_sched env (requests st)) Hc)
    as [(r & invoked & _ & Hall)|(e & invoked & i & tc & Hrun & Htc & He)].
  - left.
    assert (Hcalls : Forall command_sliceable toolCalls).
    { apply Forall_forall. intros tc [i Hi]%list_elem_of_lookup_1.
      destruct (Hall i tc Hi) as [u Hu].
      apply (dispatch_notification_sliceable CONFIG).
      unfold tool_mapper in Hu.
      destruct (dispatch_notification CONFIG tc) as [e|n]; [done|].
      by exists n. }
    split; [done|].
    destruct (executing_continues env st response toolCalls Hc Hcalls)
      as (turns & -> & _).
    by eexists.
  - right. exists e. unfold executing, executeToolCalls. rewrite Hrun.
    eexists _, tc. split; [done|].
    split; [by eapply list_elem_of_lookup_2|].
    split; [by apply (tool_mapper_Rejected CONFIG bashFiles (bash_exec env))|].
    done.
Qed.

(** C4, as amended.  After the executing phase of a batch whose calls
    all carry a command that can be sliced (a string, as the interface
    declares, or an array), the transcript holds the assistant turn
    followed by one tool-result turn per tool call of that turn, in the
    order of the calls, each built from the settled execution of its own
    call and carrying that call's error flag, for every scheduler of the
    concurrent executions (every order of completion). *)
Theorem executing_appends_results_in_call_order env st response
    (toolCalls : list ToolCallContent) :
  config_loaded CONFIG →
  Forall command_sliceable toolCalls →
  ∃ st' turns,
    executing' env st response toolCalls = Continue st' ∧
    messages st'
    = messages st ++
      AssistantMessage (resp_content response) (Some (resp_meta response))
      :: turns ∧
    Forall2 (tool_result_turn CONFIG (bash_exec env) bashFiles)
            toolCalls turns.
Proof.
  intros Hc%config_loaded_not_NaN Hcalls.
  destruct (executing_continues env st response toolCalls Hc Hcalls)
    as (turns & -> & Hall).
  eexists _, turns. split; [done|]. split; [|done].
  cbn [messages]. by rewrite <- app_assoc.
Qed.

(** Every turn of the loop reads the signal once, at its start. *)
Lemma requesting_polls st env :
  match requesting' env st with
  | Continue st' | Stop _ st' => polls st' = polls st ++ [now st]
  end.
Proof.
  unfold requesting. destruct (signal_aborted env (now st)); [done|].
  destruct (complete env _ _ _) as [response|error]; [|done].
  destruct (0 <? _); [|done]. unfold executing.
  destruct (executeToolCalls _ _ _ _ _) as [results invoked|e invoked|];
    [|done|done].
  by destruct (result_turns _ _ _).
Qed.

Lemma agent_loop_polls_prefix env (fuel : nat) st :
  polls st `prefix_of` polls (agent_loop' env fuel st).2.
Proof.
  revert st. induction fuel as [|fuel IH]; intros st; [done|].
  cbn [agent_loop]. pose proof (requesting_polls st env) as Hp.
  destruct (requesting' env st) as [st'|o st'].
  - etrans; [|apply IH]. rewrite Hp. by apply prefix_app_r.
  - cbn [snd]. rewrite Hp. by apply prefix_app_r.
Qed.

Lemma agent_loop_polls_now env (fuel : nat) st :
  now st ∈ polls (agent_loop' env (S fuel) st).2.
Proof.
  cbn [agent_loop]. pose proof (requesting_polls st env) as Hp.
  destruct (requesting' env st) as [st'|o st'].
  - destruct (agent_loop_polls_prefix env fuel st') as [k ->].
    rewrite Hp. set_solver.
  - cbn [snd]. rewrite Hp. set_solver.
Qed.

(** One turn depends on the signal through the value read at its start
    and through the answer of the provider only. *)
Lemma requesting_signal env (sig1 sig2 : nat → bool) st :
  sig1 (now st) = sig2 (now st) →
  (∀ k msgs, complete env sig1 k msgs = complete env sig2 k msgs) →
  requesting' (with_signal env sig1) st = requesting' (with_signal env sig2) st.
Proof.
  intros Hsig Hcomplete. unfold requesting.
  cbn [signal_aborted complete with_signal]. by rewrite Hsig, Hcomplete.
Qed.

Lemma agent_loop_signal env (sig1 sig2 : nat → bool) (fuel : nat) st :
  (∀ k msgs, complete env sig1 k msgs = complete env sig2 k msgs) →
  (∀ t, t ∈ polls (agent_loop' (with_signal env sig1) fuel st).2 →
        sig1 t = sig2 t) →
  agent_loop' (with_signal env sig1) fuel st
  = agent_loop' (with_signal env sig2) fuel st.
Proof.
  intros Hcomplete.
  revert st. induction fuel as [|fuel IH]; intros st Hagree; [done|].
  pose proof (Hagree _ (agent_loop_polls_now _ fuel st)) as Hnow.
  cbn [agent_loop] in *.
  rewrite <- (requesting_signal env sig1 sig2 st Hnow Hcomplete).
  destruct (requesting' (with_signal env sig1) st) as [st'|o st']; [|done].
  by apply IH.
Qed.

(** A summary is only ever returned for a response without tool calls. *)
Lemma agent_loop_Done env (fuel : nat) st (summary : string)
    (final : LoopState Meta) :
  agent_loop' env fuel st = (Done summary, final) →
  ∃ last response,
    complete env (signal_aborted env) (requests last) (messages last)
    = Completes response ∧
    tool_calls_of (resp_content response) = [] ∧
    summary = summary_of response.
Proof.
  revert st. induction fuel as [|fuel IH]; intros st; [done|].
  cbn [agent_loop].
  destruct (requesting' env st) as [st'|o st'] eqn:Hreq; [by apply IH|].
  intros [= -> ->]. exists st. revert Hreq. unfold requesting.
  destruct (signal_aborted env (now st)); [done|].
  destruct (complete env _ _ _) as [response|error]; [|done].
  destruct (tool_calls_of (resp_content response)) as [|tc tcs] eqn:Htcs.
  - cbn [length Nat.ltb Nat.leb]. intros [= <- _]. by exists response.
  - cbn [length Nat.ltb Nat.leb]. unfold executing.
    destruct (executeToolCalls _ _ _ _ _) as [results invoked|e invoked|];
      [|done|done].
    by destruct (result_turns _ _ _).
Qed.

End AgentLoopTheorems.

Section AgentLoopClaims.

Context {Meta : Type}.
Variable CONFIG : ExtensionConfig.
Variable bashFiles : gmap string string.

Implicit Types env : Environment Meta.
Implicit Types st : LoopState Meta.
Implicit Types response : AssistantResponse Meta.

(** C3, as amended.  In a turn that is not cancelled and whose completion
    request is answered: when the response has no tool-call block the loop
    stops in Done and returns the text blocks of that response joined by
    line feeds and trimmed; when it has one or more tool-call blocks the
    loop does not stop in Done: the batch is dispatched, and when every
    call carries a command that can be sliced (a string, as the interface
    declares, or an array) one tool-result turn per call is appended
    after the assistant turn and the loop goes back to requesting, while
    a call whose command cannot be sliced makes the loop fail with what
    the mapper throws, after the assistant turn and without going back to
    requesting.  Conversely a loop that returns a summary returns the one
    of a response without tool-call blocks. *)
Theorem requesting_done_exactly_without_tool_calls env st response :
  config_loaded CONFIG →
  signal_aborted env (now st) = false →
  complete env (signal_aborted env) (requests st) (messages st)
  = Completes response →
  (tool_calls_of (resp_content response) = [] →
   ∀ fuel, ∃ final,
     agent_loop CONFIG bashFiles env (S fuel) st
     = (Done (summary_of response), final) ∧
     trajectory final
     = trajectory st ++ [AssistantMessage (resp_content response) None]) ∧
  (tool_calls_of (resp_content response) ≠ [] →
   Forall command_sliceable (tool_calls_of (resp_content response)) →
   ∃ st' turns,
     requesting CONFIG bashFiles env st = Continue st' ∧
     messages st'
     = messages st ++
       AssistantMessage (resp_content response) (Some (resp_meta response))
       :: turns ∧
     length turns = length (tool_calls_of (resp_content response)) ∧
     ∀ fuel, agent_loop CONFIG bashFiles env (S fuel) st
             = agent_loop CONFIG bashFiles env fuel st') ∧
  (¬ Forall command_sliceable (tool_calls_of (resp_content response)) →
   ∀ fuel, ∃ e final tc,
     agent_loop CONFIG bashFiles env (S fuel) st = (Failed e, final) ∧
     tc ∈ tool_calls_of (resp_content response) ∧
     dispatch_notification CONFIG tc = inl e ∧
     messages final
     = messages st ++
       [AssistantMessage (resp_content response)
          (Some (resp_meta response))]) ∧
  (∀ fuel summary final,
     agent_loop CONFIG bashFiles env fuel st = (Done summary, final) →
     ∃ last response',
       complete env (signal_aborted env) (requests last) (messages last)
       = Completes response' ∧
       tool_calls_of (resp_content response') = [] ∧
       summary = summary_of response').
Proof.
  intros Hc%config_loaded_not_NaN Hsig Hresp. split; [|split; [|split]].
  - intros Hnone fuel. cbn [agent_loop]. unfold requesting.
    rewrite Hsig, Hresp, Hnone. cbn [length Nat.ltb Nat.leb].
    eexists. split; [done|]. done.
  - intros Hsome Hcalls. unfold requesting at 1. rewrite Hsig, Hresp.
    destruct (tool_calls_of (resp_content response)) as [|tc tcs] eqn:Htcs;
      [done|].
    cbn [length Nat.ltb Nat.leb].
    match goal with |- context [executing _ _ _ ?s _ _] =>
      destruct (executing_continues CONFIG bashFiles env s response
                  (tc :: tcs) Hc Hcalls) as (turns & Hexec & Hall) end.
    rewrite Hexec. eexists _, turns. split; [done|].
    cbn [messages]. split; [by rewrite <- app_assoc|].
    split; [by rewrite <- (Forall2_length _ _ _ Hall)|].
    intros fuel. cbn [agent_loop]. unfold requesting.
    rewrite Hsig, Hresp, Htcs. cbn [length Nat.ltb Nat.leb].
    by rewrite Hexec.
  - intros Hbad fuel. cbn [agent_loop]. unfold requesting.
    rewrite Hsig, Hresp.
    destruct (tool_calls_of (resp_content response)) as [|tc tcs] eqn:Htcs.
    { destruct Hbad. constructor. }
    cbn [length Nat.ltb Nat.leb].
    match goal with |- context [executing _ _ _ ?s _ _] =>
      destruct (executing_cases CONFIG bashFiles env s response
                  (tc :: tcs) Hc)
        as [[Hcalls _]|(e & final & tc' & Hexec & Hin & He & Hms & _)] end;
      [done|].
    rewrite Hexec. by exists e, final, tc'.
  - intros fuel summary final. apply agent_loop_Done.
Qed.

(** C5, as amended.  The loop reads the signal once per turn, at the
    start of the requesting state.  If it is raised there, the loop ends
    in Aborted: it returns no summary and issues no completion request,
    the transcript is left as it was.  A tool batch runs to its end
    whatever the signal does: a signal that is not raised when the turn
    starts and is raised by the time a batch of calls that can be
    dispatched has settled leaves the whole batch in the transcript and
    stops the loop before the next completion request.  The signal is
    also handed to every completion request, and the run depends on it
    through the values read at the polled instants and through what the
    provider makes of it only: two signals that agree at the polled
    instants and under which the provider gives the same answers give the
    same run. *)
Theorem agent_loop_cancellation_polled_at_requesting env (fuel : nat) st :
  (signal_aborted env (now st) = true →
   agent_loop CONFIG bashFiles env (S fuel) st
   = (Aborted,
      {| messages := messages st; trajectory := trajectory st;
         notified := notified st; requests := requests st;
         now := now st; polls := polls st ++ [now st] |}) ∧
   resolved_value Aborted = Some None) ∧
  (∀ (sig1 sig2 : nat → bool) response toolCalls,
     executing CONFIG bashFiles (with_signal env sig1) st response toolCalls
     = executing CONFIG bashFiles (with_signal env sig2) st response
         toolCalls) ∧
  (config_loaded CONFIG →
   ∀ response,
     signal_aborted env (now st) = false →
     complete env (signal_aborted env) (requests st) (messages st)
     = Completes response →
     tool_calls_of (resp_content response) ≠ [] →
     Forall command_sliceable (tool_calls_of (resp_content response)) →
     signal_aborted env
       (now st + 1 + length (tool_calls_of (resp_content response))) = true →
     ∃ final turns,
       agent_loop CONFIG bashFiles env (S (S fuel)) st = (Aborted, final) ∧
       messages final
       = messages st ++
         AssistantMessage (resp_content response) (Some (resp_meta response))
         :: turns ∧
       Forall2 (tool_result_turn CONFIG (bash_exec env) bashFiles)
         (tool_calls_of (resp_content response)) turns ∧
       requests final = requests st + 1) ∧
  (∀ sig1 sig2 : nat → bool,
     (∀ k msgs, complete env sig1 k msgs = complete env sig2 k msgs) →
     (∀ t, t ∈ polls (agent_loop CONFIG bashFiles (with_signal env sig1)
                        fuel st).2 →
           sig1 t = sig2 t) →
     agent_loop CONFIG bashFiles (with_signal env sig1) fuel st
     = agent_loop CONFIG bashFiles (with_signal env sig2) fuel st).
Proof.
  split; [|split; [|split]].
  - intros Hsig. split; [|done]. cbn [agent_loop]. unfold requesting.
    by rewrite Hsig.
  - done.
  - intros Hc%config_loaded_not_NaN response Hsig Hresp Hsome Hcalls Hlater.
    cbn [agent_loop]. unfold requesting at 1. rewrite Hsig, Hresp.
    destruct (tool_calls_of (resp_content response)) as [|tc tcs] eqn:Htcs;
      [done|].
    cbn [Nat.ltb Nat.leb length].
    match goal with |- context [executing _ _ _ ?s _ _] =>
      destruct (executing_continues CONFIG bashFiles env s response
                  (tc :: tcs) Hc Hcalls) as (turns & Hexec & Hall) end.
    rewrite Hexec. unfold requesting.
    cbn [now messages trajectory notified requests polls].
    cbn [length] in Hlater. cbn [length]. rewrite Hlater.
    eexists _, turns. split; [done|]. cbn [messages requests].
    split; [by rewrite <- app_assoc|]. done.
  - intros sig1 sig2. apply agent_loop_signal.
Qed.

End AgentLoopClaims.

Lemma with_limits_loaded (maxChars : Z) :
  config_loaded (with_limits maxChars 2).
Proof. by exists (VNumber (Js.of_Z 2)). Qed.

Lemma executing_appends_results_in_call_order_witness :
  ∃ st' turns,
    executing (with_limits 50000 2) sample_files (sample_env (λ _, false))
      initial_state
      {| resp_content :=
           [ToolCall (sample_call "first" "jq length /conversation.json");
            ToolCall (sample_call "second" "false")];
         resp_meta := tt |}
      [sample_call "first" "jq length /conversation.json";
       sample_call "second" "false"]
    = Continue st' ∧
    messages st'
    = messages initial_state ++
      AssistantMessage
        [ToolCall (sample_call "first" "jq length /conversation.json");
         ToolCall (sample_call "second" "false")] (Some tt)
      :: turns ∧
    Forall2 (tool_result_turn (with_limits 50000 2) echo_exec sample_files)
      [sample_call "first" "jq length /conversation.json";
       sample_call "second" "false"] turns.
Proof.
  apply (executing_appends_results_in_call_order (with_limits 50000 2)
           sample_files (sample_env (λ _, false)) initial_state
           {| resp_content :=
                [ToolCall (sample_call "first" "jq length /conversation.json");
                 ToolCall (sample_call "second" "false")];
              resp_meta := tt |}).
  - apply with_limits_loaded.
  - repeat constructor.
Defined.

(** C4, as stated, fails.  The provider asks for two commands, and the
    [arguments] of the second is the empty object: the mapper throws on
    it, the batch rejects, and the loop fails after the assistant turn
    with no tool-result turn appended, not even that of the first call. *)
Lemma executing_call_without_command_counterexample :
  ∃ final,
    executing (with_limits 50000 2) sample_files (sample_env (λ _, false))
      initial_state
      {| resp_content := [ToolCall (sample_call "first" "jq .");
                          ToolCall (call_without_command "second")];
         resp_meta := tt |}
      [sample_call "first" "jq ."; call_without_command "second"]
    = Stop (Failed (ThrownError
                      "Cannot read properties of undefined (reading 'slice')"))
        final ∧
    messages final
    = [AssistantMessage [ToolCall (sample_call "first" "jq .");
                         ToolCall (call_without_command "second")]
         (Some tt)] ∧
    ¬ command_sliceable (call_without_command "second").
Proof. eexists. split; [reflexivity|]. split; [reflexivity|]. by intros []. Qed.

(** The batch of the sample environment: the second call settles first,
    the turns are appended in call order, the second with its error
    flag. *)
Example executing_second_settles_first :
  ∃ st',
    executing (with_limits 50000 2) sample_files (sample_env (λ _, false))
      initial_state
      {| resp_content :=
           [ToolCall (sample_call "first" "jq length /conversation.json");
            ToolCall (sample_call "second" "false")];
         resp_meta := tt |}
      [sample_call "first" "jq length /conversation.json";
       sample_call "second" "false"]
    = Continue st' ∧
    messages st'
    = [AssistantMessage
         [ToolCall (sample_call "first" "jq length /conversation.json");
          ToolCall (sample_call "second" "false")] (Some tt);
       ToolResultMessage "first" "bash" "jq length /conversation.json" false;
       ToolResultMessage "second" "bash"
         ("false" +:+ Js.LF +:+ "exit code: 1") true].
Proof. eexists. split; reflexivity. Qed.

Lemma requesting_done_exactly_without_tool_calls_witness :
  ∃ final,
    agent_loop (with_limits 50000 2) sample_files (sample_env (λ _, false)) 1
      {| messages := []; trajectory := []; notified := [];
         requests := 1; now := 3; polls := [0] |}
    = (Done (summary_of
               {| resp_content := [TextContent "## Summary";
                                   ThinkingContent "done";
                                   TextContent "All good. "];
                  resp_meta := tt |}), final) ∧
    trajectory final
    = [] ++ [AssistantMessage [TextContent "## Summary";
                               ThinkingContent "done";
                               TextContent "All good. "] None].
Proof.
  apply (proj1 (requesting_done_exactly_without_tool_calls
                  (with_limits 50000 2) sample_files
                  (sample_env (λ _, false))
                  {| messages := []; trajectory := []; notified := [];
                     requests := 1; now := 3; polls := [0] |}
                  {| resp_content := [TextContent "## Summary";
                                      ThinkingContent "done";
                                      TextContent "All good. "];
                     resp_meta := tt |}
                  (with_limits_loaded 50000) eq_refl eq_refl)).
  reflexivity.
Defined.

(** C3, as stated, fails.  The response has the two text blocks "a" and
    "b" and no tool call: the loop returns them joined by a line feed,
    not their concatenation "ab". *)
Lemma runAgentLoop_summary_counterexample :
  let env : Environment unit :=
    {| complete := λ _ _ _,
         Completes {| resp_content := [TextContent "a"; TextContent "b"];
                      resp_meta := tt |};
       bash_exec := echo_exec;
       tool_sched := λ _ _, 0;
       signal_aborted := λ _, false |} in
  (runAgentLoop DEFAULT_CONFIG sample_files env 1).1
  = Done (String "a" (String (ascii_of_nat 10) (String "b" EmptyString))) ∧
  (runAgentLoop DEFAULT_CONFIG sample_files env 1).1
  ≠ Done (concatenation ["a"; "b"]).
Proof. split; [reflexivity|]. by vm_compute. Qed.

Lemma agent_loop_cancellation_polled_at_requesting_witness :
  agent_loop (with_limits 50000 2) sample_files
    (with_signal (sample_env (λ _, false)) (λ t, 0 <? t)) 5 initial_state
  = agent_loop (with_limits 50000 2) sample_files
      (with_signal (sample_env (λ _, false)) (λ t, 3 <=? t)) 5 initial_state.
Proof.
  apply (proj2 (proj2 (proj2
           (agent_loop_cancellation_polled_at_requesting
              (with_limits 50000 2) sample_files
              (sample_env (λ _, false)) 5 initial_state)))
           (λ t, 0 <? t) (λ t, 3 <=? t)).
  { reflexivity. }
  intros t Ht. vm_compute in Ht.
  apply elem_of_cons in Ht as [->|Ht]; [reflexivity|].
  apply elem_of_cons in Ht as [->|Ht]; [reflexivity|].
  by apply elem_of_nil in Ht.
Defined.

(** The loop on a response whose tool call has no command: it fails with
    the error of the mapper and returns no summary. *)
Example runAgentLoop_call_without_command_rejects :
  let env : Environment unit :=
    {| complete := λ _ _ _,
         Completes {| resp_content := [ToolCall (call_without_command "only")];
                      resp_meta := tt |};
       bash_exec := echo_exec;
       tool_sched := λ _ _, 0;
       signal_aborted := λ _, false |} in
  (runAgentLoop DEFAULT_CONFIG sample_files env 3).1
  = Failed (ThrownError
              "Cannot read properties of undefined (reading 'slice')").
Proof. reflexivity. Qed.

(** C5, as stated, fails.  The provider asks for one command and then
    answers the second request, which is in progress between the instants
    2 and 3, unless the signal it was handed is raised at instant 3.  The
    loop polls the signal at the instants 0 and 2 only.  With a signal
    that is never raised the loop returns the summary; with a signal
    raised at instant 3 only, which the loop never reads, the request in
    progress is ended by the provider and the loop fails. *)
Lemma agent_loop_completion_preempted_counterexample :
  agent_loop DEFAULT_CONFIG sample_files
    (signal_honouring_env (λ _, false)) 3 initial_state
  = (Done "summary",
     {| messages :=
          [AssistantMessage [ToolCall (sample_call "only" "jq .")] (Some tt);
           ToolResultMessage "only" "bash" "jq ." false];
        trajectory :=
          [AssistantMessage [ToolCall (sample_call "only" "jq .")] (Some tt);
           ToolResultMessage "only" "bash" "jq ." false;
           AssistantMessage [TextContent "summary"] None];
        notified := [("bash: jq .", info)];
        requests := 2; now := 3; polls := [0; 2] |}) ∧
  (agent_loop DEFAULT_CONFIG sample_files
     (signal_honouring_env (λ t, t =? 3)) 3 initial_state).1
  = Failed (ThrownError "Request was aborted") ∧
  polls (agent_loop DEFAULT_CONFIG sample_files
           (signal_honouring_env (λ t, t =? 3)) 3 initial_state).2
  = [0; 2] ∧
  (λ t, t =? 3) 0 = false ∧ (λ t, t =? 3) 2 = false.
Proof. repeat split; reflexivity. Qed.


(* ====================================================================== *)
(** * Further theorems: conversation analysis                              *)
(* ====================================================================== *)

Section TrimFacts.

Implicit Types s : string.

Lemma trimEnd_idemp s : Js.trimEnd (Js.trimEnd s) = Js.trimEnd s.
Proof.
  induction s as [|c s IH]; [done|]. cbn [Js.trimEnd].
  destruct (Js.trimEnd s) as [|c' r] eqn:Hr.
  - destruct (Js.is_white_space c) eqn:Hc; [done|].
    cbn [Js.trimEnd]. by rewrite Hc.
  - cbn [Js.trimEnd] in *. by rewrite IH.
Qed.

Lemma trimEnd_head c s :
  Js.is_white_space c = false →
  ∃ r, Js.trimEnd (String c s) = String c r.
Proof.
  intros Hc. cbn [Js.trimEnd]. destruct (Js.trimEnd s); rewrite ?Hc; eauto.
Qed.

Lemma trimStart_head s :
  Js.trimStart s = EmptyString ∨
  ∃ c r, Js.trimStart s = String c r ∧ Js.is_white_space c = false.
Proof.
  induction s as [|c s IH]; [by left|]. cbn [Js.trimStart].
  destruct (Js.is_white_space c) eqn:Hc; [done|]. right. eauto.
Qed.

(** Trimming twice is trimming once. *)
Lemma trim_idemp s : Js.trim (Js.trim s) = Js.trim s.
Proof.
  unfold Js.trim. destruct (trimStart_head s) as [->|(c & r & -> & Hc)].
  { done. }
  destruct (trimEnd_head c r Hc) as [r' Hr']. rewrite Hr'.
  cbn [Js.trimStart]. rewrite Hc, <- Hr'. apply trimEnd_idemp.
Qed.

End TrimFacts.

Section UniqStrings.

Implicit Types l : list string.

Lemma dedup_first_NoDup_id l : NoDup l → dedup_first l = l.
Proof.
  induction 1 as [|x l Hx _ IH]; [done|]. simpl. rewrite IH. f_equal.
  apply filter_all. intros y Hy ->. done.
Qed.

Lemma uniqStrings_dedup l :
  uniqStrings l
  = dedup_first (filter (λ v, Js.truthy v = true) (Js.trim <$> l)).
Proof. unfold uniqStrings. apply Set_of_dedup_first. Qed.

Lemma elem_of_uniqStrings l x :
  x ∈ uniqStrings l ↔ x ≠ EmptyString ∧ ∃ v, v ∈ l ∧ Js.trim v = x.
Proof.
  rewrite uniqStrings_dedup, elem_of_dedup_first, list_elem_of_filter,
    list_elem_of_fmap, truthy_true.
  naive_solver.
Qed.

(** X4.  [uniqStrings] returns the distinct non-empty trimmed forms of its
    arguments, each once, and applying it again changes nothing. *)
Theorem uniqStrings_distinct_trimmed l :
  NoDup (uniqStrings l) ∧
  (∀ x, x ∈ uniqStrings l ↔ x ≠ EmptyString ∧ ∃ v, v ∈ l ∧ Js.trim v = x) ∧
  (∀ x, x ∈ uniqStrings l → Js.trim x = x) ∧
  uniqStrings (uniqStrings l) = uniqStrings l.
Proof.
  assert (Htrimmed : ∀ x, x ∈ uniqStrings l → Js.trim x = x).
  { intros x (_ & v & _ & <-)%elem_of_uniqStrings. apply trim_idemp. }
  split; [rewrite uniqStrings_dedup; apply NoDup_dedup_first|].
  split; [apply elem_of_uniqStrings|]. split; [done|].
  rewrite (uniqStrings_dedup (uniqStrings l)).
  assert (Js.trim <$> uniqStrings l = uniqStrings l) as ->.
  { rewrite <- (list_fmap_id (uniqStrings l)) at 2.
    apply list_fmap_ext. intros i x Hx%list_elem_of_lookup_2. by apply Htrimmed. }
  rewrite filter_all.
  - apply dedup_first_NoDup_id.
    rewrite uniqStrings_dedup. apply NoDup_dedup_first.
  - intros x (Hne & _)%elem_of_uniqStrings. by apply truthy_true.
Qed.

End UniqStrings.

Section DetectionFacts.

Implicit Types index : gmap string ToolCallInfo.
Implicit Types entries : list (string * ToolCallInfo).

Lemma index_block_entry index (block : LlmContentBlock) :
  index_block index block
  = match block_entry block with
    | Some e => <[e.1 := e.2]> index
    | None => index
    end.
Proof.
  unfold index_block, block_entry. case_decide; [|done].
  destruct (block_id block), (block_name block); done.
Qed.

Lemma foldl_index_block index (blocks : list LlmContentBlock) :
  foldl index_block index blocks
  = foldl (λ m e, <[e.1 := e.2]> m) index (omap block_entry blocks).
Proof.
  revert index. induction blocks as [|b blocks IH]; intros index; [done|].
  cbn [foldl]. rewrite IH, index_block_entry. csimpl.
  by destruct (block_entry b).
Qed.

(** The index is the entries inserted one after the other. *)
Lemma extractToolCallsFromMessages_entries (llmMessages : list LlmMessage) :
  extractToolCallsFromMessages llmMessages
  = foldl (λ m e, <[e.1 := e.2]> m) ∅ (tool_call_entries llmMessages).
Proof.
  unfold extractToolCallsFromMessages, tool_call_entries.
  generalize (∅ : gmap string ToolCallInfo).
  induction llmMessages as [|msg l IH]; intros index; [done|].
  cbn [foldl]. rewrite IH. csimpl. rewrite foldl_app.
  case_decide; [|done]. by rewrite foldl_index_block.
Qed.

Lemma foldl_insert_absent index entries (id : string) :
  Forall (λ e, e.1 ≠ id) entries →
  foldl (λ m e, <[e.1 := e.2]> m) index entries !! id = index !! id.
Proof.
  intros Hall. revert index.
  induction Hall as [|e entries He _ IH]; intros index; [done|].
  cbn [foldl]. rewrite IH. by rewrite lookup_insert_ne.
Qed.

(** X5.  Lookup after indexing.  An id that no tool-call block of an assistant
    message carries is not in the index, and an id that several blocks
    carry maps to the last of them. *)
Theorem extractToolCallsFromMessages_last_wins
    (llmMessages : list LlmMessage) (id : string) :
  (Forall (λ e, e.1 ≠ id) (tool_call_entries llmMessages) →
   extractToolCallsFromMessages llmMessages !! id = None) ∧
  (∀ before info after,
     tool_call_entries llmMessages = before ++ (id, info) :: after →
     Forall (λ e, e.1 ≠ id) after →
     extractToolCallsFromMessages llmMessages !! id = Some info).
Proof.
  rewrite extractToolCallsFromMessages_entries. split.
  - intros Hall. by rewrite foldl_insert_absent.
  - intros before info after -> Hafter.
    rewrite foldl_app. cbn [foldl]. rewrite foldl_insert_absent by done.
    apply lookup_insert_eq.
Qed.

End DetectionFacts.

Lemma extractToolCallsFromMessages_last_wins_witness :
  extractToolCallsFromMessages
    [assistant_message [tool_call_block "call-1" "write" "/a.ts"];
     user_message "again";
     assistant_message [tool_call_block "call-1" "read" "/b.ts";
                        tool_call_block "call-2" "edit" "/c.ts"]]
  !! "call-1"
  = Some {| name := "read"; args := {[ "path" := VString "/b.ts" ]} |}.
Proof.
  apply (proj2 (extractToolCallsFromMessages_last_wins _ "call-1")
           [("call-1", {| name := "write";
                          args := {[ "path" := VString "/a.ts" ]} |})]
           _
           [("call-2", {| name := "edit";
                          args := {[ "path" := VString "/c.ts" ]} |})]).
  - reflexivity.
  - repeat constructor. done.
Defined.

Section UserNote.

Lemma note_of_trimmed (trimmed note : string) :
  note_of trimmed = Some note → note ≠ EmptyString ∧ Js.trim note = note.
Proof.
  unfold note_of. destruct (Js.truthy _) eqn:Ht; [|done].
  intros [= <-]. split; [by apply truthy_true|apply trim_idemp].
Qed.

Lemma scan_for_note_trimmed (reversed : list LlmMessage) (note : string) :
  scan_for_note reversed = Some note →
  note ≠ EmptyString ∧ Js.trim note = note.
Proof.
  induction reversed as [|msg rest IH]; [done|].
  rewrite scan_for_note_cons.
  destruct (is_compact_command _); [apply note_of_trimmed|apply IH].
Qed.

Lemma getUserCompactionNote_Some (customInstructions : jsvalue)
    (llmMessages : list LlmMessage) (note : string) :
  getUserCompactionNote customInstructions llmMessages = Some note →
  note ≠ EmptyString ∧ Js.trim note = note.
Proof.
  unfold getUserCompactionNote.
  destruct customInstructions as [| | | |s|]; try apply scan_for_note_trimmed.
  rewrite length_pos_truthy. destruct (Js.truthy (Js.trim s)) eqn:Ht.
  - intros [= <-]. split; [by apply truthy_true|apply trim_idemp].
  - apply scan_for_note_trimmed.
Qed.

(** X6.  The note handed to the prompts.  Whatever the custom instructions
    and the conversation, a note that is returned is not empty and has no
    surrounding white space; custom instructions that are a non-blank
    string are returned trimmed, whatever the conversation holds; blank
    or non-string custom instructions leave the decision to the
    conversation. *)
Theorem getUserCompactionNote_trimmed_override
    (customInstructions : jsvalue) (llmMessages : list LlmMessage) :
  (∀ note, getUserCompactionNote customInstructions llmMessages = Some note →
           note ≠ EmptyString ∧ Js.trim note = note) ∧
  (∀ s, customInstructions = VString s → Js.trim s ≠ EmptyString →
        getUserCompactionNote customInstructions llmMessages
        = Some (Js.trim s)) ∧
  ((∀ s, customInstructions = VString s → Js.trim s = EmptyString) →
   getUserCompactionNote customInstructions llmMessages
   = extractUserCompactionNote llmMessages).
Proof.
  split; [|unfold getUserCompactionNote; split].
  - intros note. apply getUserCompactionNote_Some.
  - intros s -> Hs%truthy_true. by rewrite length_pos_truthy, Hs.
  - intros Hblank. destruct customInstructions as [| | | |s|]; try done.
    by rewrite (Hblank s eq_refl).
Qed.

End UserNote.

Lemma getUserCompactionNote_trimmed_override_witness :
  getUserCompactionNote (VString "  focus on auth  ")
    [user_message "/compact something else"]
  = Some (Js.trim "  focus on auth  ").
Proof.
  apply (proj1 (proj2 (getUserCompactionNote_trimmed_override
                         (VString "  focus on auth  ")
                         [user_message "/compact something else"]))
           "  focus on auth  ").
  - reflexivity.
  - discriminate.
Defined.

(* ====================================================================== *)
(** * Further theorems: tool execution                                     *)
(* ====================================================================== *)

Section ToolResults.

Variable CONFIG : ExtensionConfig.
Variable exec : gmap string string → CommandValue → exec_outcome.
Variable bashFiles : gmap string string.

(** X7.  The error flag of a result is set exactly when the sandbox threw or
    the command ended with a non-zero exit status: output on standard
    error alone does not set it, and cutting the text does not clear
    it. *)
Theorem executeSingleToolCall_error_flag (tc : ToolCallContent)
    (res : ToolCallExecResult) :
  executeSingleToolCall CONFIG exec tc bashFiles = Fulfilled res →
  ∃ command,
    tc_arguments tc = Arguments command ∧
    (isErrorFlag res = true ↔
     (∃ error, exec bashFiles command = ExecThrows error) ∨
     (∃ r, exec bashFiles command = ExecReturns r ∧ exitCode r ≠ 0%Z)).
Proof.
  unfold executeSingleToolCall, destructure_command.
  destruct (tc_arguments tc) as [| |command]; [done|done|].
  intros Hres. exists command. split; [done|]. revert Hres.
  destruct (exec bashFiles command) as [r|error] eqn:Hexec;
    cbn [try_catch].
  - destruct (decide (exitCode r ≠ 0%Z)) as [Hcode|Hcode];
      intros [= <-]; cbn [isErrorFlag].
    + split; [|done]. intros _. right. by exists r.
    + split; [done|]. intros [[error [=]]|(r' & [= <-] & ?)]. done.
  - intros [= <-]. cbn [isErrorFlag]. split; [|done].
    intros _. left. by exists error.
Qed.

Lemma append_nil_r (s : string) : s +:+ EmptyString = s.
Proof.
  induction s as [|c s IH]; [done|]. rewrite append_cons. by f_equal.
Qed.

Lemma take_all (n : nat) (s : string) :
  String.length s ≤ n → Js.take n s = s.
Proof.
  revert n. induction s as [|c s IH]; intros [|n] Hn; simpl in *;
    try done; try lia.
  rewrite IH; [done|lia].
Qed.

Lemma take_take_min (n m : nat) (s : string) :
  Js.take (Nat.min n m) s = Js.take n (Js.take m s).
Proof.
  revert n m. induction s as [|c s IH]; intros [|n] [|m]; simpl; try done.
  by rewrite IH.
Qed.

Lemma slice0_of_nat (s : string) (n : nat) :
  Js.slice0 s (Js.of_nat n) = Js.take n s.
Proof.
  unfold Js.slice0, Js.of_nat. cbn [Js.slice_end]. rewrite Qtrunc_inject_Z.
  destruct (Z.ltb_spec (Z.of_nat n) 0); [lia|]. rewrite Nat2Z.id.
  rewrite Nat.min_comm, take_take_min. f_equal. by apply take_all.
Qed.

Lemma gt_of_nat (a b : nat) : Js.gt (Js.of_nat a) (Js.of_nat b) = (b <? a).
Proof.
  unfold Js.gt, Js.of_nat. rewrite Qle_bool_inject_Z.
  destruct (Z.leb_spec (Z.of_nat a) (Z.of_nat b)),
    (Nat.ltb_spec b a); simpl; try done; lia.
Qed.

(** X8.  The notification sent before a command is dispatched, for a preview
    length of [n] characters: the tool name and the whole command when the
    command has at most [n] characters, else its first [n] characters
    followed by three dots; the severity is always info. *)
Theorem dispatch_notification_preview (tc : ToolCallContent)
    (command : string) (n : nat) :
  tc_arguments tc = Arguments (CommandString command) →
  toolCallPreviewChars CONFIG = Js.of_nat n →
  dispatch_notification CONFIG tc
  = inr (tc_name tc +:+ ": " +:+
         (if String.length command <=? n
          then command
          else Js.take n command +:+ "..."),
         info).
Proof.
  intros Hargs Hn. unfold dispatch_notification, destructure_command.
  rewrite Hargs, Hn. cbn [and_then slice_preview].
  rewrite slice0_of_nat, gt_of_nat. do 4 f_equal.
  destruct (Nat.leb_spec (String.length command) n) as [Hle|Hgt].
  - rewrite (proj2 (Nat.ltb_ge _ _) Hle), take_all by done.
    apply append_nil_r.
  - by rewrite (proj2 (Nat.ltb_lt _ _) Hgt).
Qed.


End ToolResults.

Lemma executeSingleToolCall_error_flag_witness :
  ∃ command,
    tc_arguments (sample_call "call-1" "false") = Arguments command ∧
    (isErrorFlag
       {| result := "false" +:+ Js.LF +:+ "exit code: 1";
          isErrorFlag := true |}
     = true ↔
     (∃ error, echo_exec sample_files command = ExecThrows error) ∨
     (∃ r, echo_exec sample_files command = ExecReturns r ∧
           exitCode r ≠ 0%Z)).
Proof.
  apply (executeSingleToolCall_error_flag (with_limits 50000 6) echo_exec
           sample_files (sample_call "call-1" "false")).
  reflexivity.
Defined.

Lemma dispatch_notification_preview_witness :
  dispatch_notification DEFAULT_CONFIG
    (sample_call "call-1" "jq length /conversation.json")
  = inr ("bash" +:+ ": " +:+
         (if String.length "jq length /conversation.json" <=? 60
          then "jq length /conversation.json"
          else Js.take 60 "jq length /conversation.json" +:+ "..."),
         info).
Proof.
  apply (dispatch_notification_preview DEFAULT_CONFIG
           (sample_call "call-1" "jq length /conversation.json")
           "jq length /conversation.json" 60).
  - reflexivity.
  - reflexivity.
Defined.


(** A batch with a call whose [arguments] is the empty object, under the
    scheduler that lets the throwing call be seen first: the batch
    rejects, and the only notification sent is that of the first call. *)
Example executeToolCalls_call_without_command :
  executeToolCalls (with_limits 50000 2) echo_exec
    [sample_call "first" "jq ."; call_without_command "second"]
    sample_files (λ _, 1)
  = Rejects (ThrownError
               "Cannot read properties of undefined (reading 'slice')")
      [0; 1] ∧
  notifications_of (with_limits 50000 2)
    [sample_call "first" "jq ."; call_without_command "second"] [0; 1]
  = [("bash: jq .", info)].
Proof. split; reflexivity. Qed.

(* ====================================================================== *)
(** * Further theorems: the agent loop                                     *)
(* ====================================================================== *)

Section AgentLoopInvariants.

Context {Meta : Type}.
Variable CONFIG : ExtensionConfig.
Variable bashFiles : gmap string string.
Variable env : Environment Meta.

Implicit Types st final : LoopState Meta.

Local Abbreviation paired :=
  (paired_transcript CONFIG (bash_exec env) bashFiles).
Local Abbreviation notes := (notifications_for (Meta:=Meta) CONFIG).

(** What one turn of the loop does to the transcript and to the
    notifications: it goes on after a whole round; it stops without
    touching the transcript when it is cancelled, when the provider
    throws and when the response is a summary; and it fails after the
    assistant turn when the mapper throws on a call of the response. *)
Lemma requesting_round st :
  toolCallConcurrency CONFIG ≠ Js.NaN →
  match requesting CONFIG bashFiles env st with
  | Continue st' =>
      ∃ response turns,
        tool_calls_of (resp_content response) ≠ [] ∧
        Forall command_sliceable (tool_calls_of (resp_content response)) ∧
        messages st'
        = messages st ++
          AssistantMessage (resp_content response)
            (Some (resp_meta response)) :: turns ∧
        Forall2 (tool_result_turn CONFIG (bash_exec env) bashFiles)
                (tool_calls_of (resp_content response)) turns ∧
        notified st'
        = notified st ++
          omap (notification_of CONFIG)
               (tool_calls_of (resp_content response))
  | Stop o st' =>
      o ≠ Running ∧
      ((messages st' = messages st ∧ notified st' = notified st ∧
        ∀ e, o = Failed e →
             complete env (signal_aborted env) (requests st) (messages st)
             = CompleteThrows e) ∨
       (∃ e response tc,
          o = Failed e ∧
          complete env (signal_aborted env) (requests st) (messages st)
          = Completes response ∧
          tc ∈ tool_calls_of (resp_content response) ∧
          dispatch_notification CONFIG tc = inl e ∧
          messages st'
          = messages st ++
            [AssistantMessage (resp_content response)
               (Some (resp_meta response))]))
  end.
Proof.
  intros Hc. unfold requesting.
  destruct (signal_aborted env (now st)); [split; [done|by left]|].
  destruct (complete env _ _ _) as [response|error].
  2:{ split; [done|]. left. repeat split; try done. by intros e [= ->]. }
  destruct (tool_calls_of (resp_content response)) as [|tc tcs] eqn:Htcs.
  { cbn [length Nat.ltb Nat.leb]. split; [done|]. by left. }
  cbn [length Nat.ltb Nat.leb].
  match goal with
  | |- context [executing _ _ _ ?s _ _] =>
      destruct (executing_cases CONFIG bashFiles env s response
                  (tc :: tcs) Hc)
        as [[Hcalls _]|(e & final & tc' & Hexec & Hin & He & Hms & _)];
      [destruct (executing_continues CONFIG bashFiles env s response
                   (tc :: tcs) Hc Hcalls) as (turns & -> & Hall)
      |rewrite Hexec]
  end.
  - exists response, turns. rewrite Htcs.
    cbn [messages notified]. by rewrite <- app_assoc.
  - split; [done|]. right. exists e, response, tc'. by rewrite Htcs.
Qed.

Lemma tool_result_turn_notes (tcs : list ToolCallContent)
    (turns : list (Message Meta)) :
  Forall2 (tool_result_turn CONFIG (bash_exec env) bashFiles) tcs turns →
  notes turns = [].
Proof.
  induction 1 as [|tc turn tcs turns (r & _ & ->) _ IH]; [done|].
  unfold notifications_for in *. by rewrite bind_cons, IH.
Qed.

(** X10.  The transcript is made of whole rounds whenever the loop is about to
    ask the provider, and when it has ended without failing.  Starting
    from such a transcript, the state reached with any number of turns
    holds such a transcript again: every assistant turn in it asks for at
    least one command, all of which can be dispatched, and is followed by
    the result turns of exactly its calls, in call order, before the next
    assistant turn.  A loop that has failed holds such a transcript too,
    or such a transcript followed by the assistant turn on one of whose
    calls the mapper threw. *)
Theorem agent_loop_transcript_paired (fuel : nat) st :
  config_loaded CONFIG →
  paired (messages st) →
  match agent_loop CONFIG bashFiles env fuel st with
  | (Failed e, final) =>
      paired (messages final) ∨
      ∃ ms content meta tc,
        messages final = ms ++ [AssistantMessage content (Some meta)] ∧
        paired ms ∧ tc ∈ tool_calls_of content ∧
        dispatch_notification CONFIG tc = inl e
  | (_, final) => paired (messages final)
  end.
Proof.
  intros Hc%config_loaded_not_NaN. revert st.
  induction fuel as [|fuel IH]; intros st Hst; [done|].
  cbn [agent_loop]. pose proof (requesting_round st Hc) as Hround.
  destruct (requesting CONFIG bashFiles env st) as [st'|o st'].
  - destruct Hround as (response & turns & Hne & Hcalls & Hms & Hall & _).
    apply IH.
    pose proof (paired_round CONFIG (bash_exec env) bashFiles _ _
                  (resp_meta response) _ Hst Hne Hall) as Hpaired.
    by rewrite <- Hms in Hpaired.
  - destruct Hround as
      [Hrun [(Hms & _)|(e & response & tc & -> & _ & Hin & He & Hms)]].
    + rewrite <- Hms in Hst. destruct o; try done. by left.
    + right. by exists (messages st), (resp_content response),
                       (resp_meta response), tc.
Qed.


(** X12.  Whenever the loop is about to ask the provider, and when it has
    ended without failing, the notifications sent are those of the
    commands in the transcript: one per tool call of every assistant
    turn, in transcript order. *)
Theorem agent_loop_notifies_every_command (fuel : nat) st :
  config_loaded CONFIG →
  notified st = notes (messages st) →
  match agent_loop CONFIG bashFiles env fuel st with
  | (Failed _, _) => True
  | (_, final) => notified final = notes (messages final)
  end.
Proof.
  intros Hc%config_loaded_not_NaN. revert st.
  induction fuel as [|fuel IH]; intros st Hst; [done|].
  cbn [agent_loop]. pose proof (requesting_round st Hc) as Hround.
  destruct (requesting CONFIG bashFiles env st) as [st'|o st'].
  - destruct Hround as (response & turns & Hne & _ & Hms & Hall & Hnotes).
    apply IH. rewrite Hms, Hnotes, Hst. unfold notifications_for.
    rewrite bind_app, bind_cons. f_equal.
    fold (notes turns). rewrite (tool_result_turn_notes _ _ Hall).
    by rewrite app_nil_r.
  - destruct Hround as [Hrun [(Hms & Hnotes & _)|(e & ? & ? & -> & _)]];
      [|done].
    destruct o; try done; by rewrite Hms, Hnotes.
Qed.

End AgentLoopInvariants.

Lemma agent_loop_transcript_paired_witness :
  match agent_loop (with_limits 50000 2) sample_files
          (sample_env (λ _, false)) 1 initial_state with
  | (Failed e, final) =>
      paired_transcript (with_limits 50000 2) echo_exec sample_files
        (messages final) ∨
      ∃ ms content meta tc,
        messages final = ms ++ [AssistantMessage content (Some meta)] ∧
        paired_transcript (with_limits 50000 2) echo_exec sample_files ms ∧
        tc ∈ tool_calls_of content ∧
        dispatch_notification (with_limits 50000 2) tc = inl e
  | (_, final) =>
      paired_transcript (with_limits 50000 2) echo_exec sample_files
        (messages final)
  end.
Proof.
  apply (agent_loop_transcript_paired (with_limits 50000 2) sample_files
           (sample_env (λ _, false)) 1 initial_state).
  - apply with_limits_loaded.
  - apply paired_empty.
Defined.

Lemma agent_loop_notifies_every_command_witness :
  match agent_loop (with_limits 50000 2) sample_files
          (sample_env (λ _, false)) 2 initial_state with
  | (Failed _, _) => True
  | (_, final) =>
      notified final
      = notifications_for (with_limits 50000 2) (messages final)
  end.
Proof.
  apply (agent_loop_notifies_every_command (with_limits 50000 2)
           sample_files (sample_env (λ _, false)) 2 initial_state).
  - apply with_limits_loaded.
  - reflexivity.
Defined.


(* ====================================================================== *)
(** * Further theorems: loading the configuration                          *)
(* ====================================================================== *)

Section ConfigFacts.

Lemma parsePositiveNumber_positive (value : jsvalue) (d : Js.jsnum) :
  Js.gt d (Js.of_nat 0) = true →
  Js.gt (parsePositiveNumber value d) (Js.of_nat 0) = true.
Proof.
  intros Hd. destruct value as [| | |x| |]; try done. simpl.
  by destruct (Js.gt x (Js.of_nat 0)) eqn:Hx.
Qed.

Lemma Qfloor_positive (q : Q) :
  Qle_bool q (inject_Z 0) = false → (0 ≤ Qfloor q)%Z.
Proof.
  intros Hq. rewrite <- (Qfloor_Z 0). apply Qfloor_resp_le.
  destruct (Qlt_le_dec (inject_Z 0) q) as [Hlt|Hle].
  - by apply Qlt_le_weak.
  - apply Qle_bool_iff in Hle. congruence.
Qed.

Lemma parsePositiveInt_natural (value : jsvalue) (n : nat) :
  parsePositiveInt value (Js.of_nat n) = Js.PosInf ∨
  ∃ k : nat, parsePositiveInt value (Js.of_nat n) = Js.of_nat k.
Proof.
  destruct value as [| | |x| |]; try (right; by exists n).
  simpl. destruct x as [q| | |]; simpl; try (right; by exists n).
  - destruct (Qle_bool q _) eqn:Hq; simpl; [right; by exists n|].
    right. exists (Z.to_nat (Qfloor q)). unfold Js.of_nat.
    rewrite Z2Nat.id; [done|]. by apply Qfloor_positive.
  - by left.
Qed.

(** The settings of a loaded configuration, one by one. *)
Lemma loadConfig_fields (file : config_file) :
  loadConfig file = DEFAULT_CONFIG ∨
  ∃ parsed,
    file = Parsed parsed ∧
    loadConfig file
    = {| compactionModels :=
           parseCompactionModels (member parsed "compactionModels");
         thinkingLevel :=
           default (thinkingLevel DEFAULT_CONFIG)
             (normalizeThinkingLevel (member parsed "thinkingLevel"));
         debugCompactions :=
           parseBoolean (as_value (member parsed "debugCompactions"))
             (debugCompactions DEFAULT_CONFIG);
         toolResultMaxChars :=
           parsePositiveNumber (as_value (member parsed "toolResultMaxChars"))
             (toolResultMaxChars DEFAULT_CONFIG);
         toolCallPreviewChars :=
           parsePositiveNumber
             (as_value (member parsed "toolCallPreviewChars"))
             (toolCallPreviewChars DEFAULT_CONFIG);
         toolCallConcurrency :=
           parsePositiveInt (as_value (member parsed "toolCallConcurrency"))
             (toolCallConcurrency DEFAULT_CONFIG);
         minSummaryChars :=
           parsePositiveNumber (as_value (member parsed "minSummaryChars"))
             (minSummaryChars DEFAULT_CONFIG) |}.
Proof.
  destruct file as [|error|parsed]; [by left|by left|].
  destruct parsed; [by left|right; by eexists..].
Qed.

End ConfigFacts.

(** X13.  Whatever the configuration file holds, the loaded limits are usable:
    the concurrency limit comes out of [parsePositiveInt] and is a
    natural number or +Infinity (never NaN, never negative, never
    fractional), and the three character limits are greater than zero. *)
Theorem loadConfig_limits (file : config_file) :
  config_loaded (loadConfig file) ∧
  (toolCallConcurrency (loadConfig file) = Js.PosInf ∨
   ∃ n : nat, toolCallConcurrency (loadConfig file) = Js.of_nat n) ∧
  Js.gt (toolResultMaxChars (loadConfig file)) (Js.of_nat 0) = true ∧
  Js.gt (toolCallPreviewChars (loadConfig file)) (Js.of_nat 0) = true ∧
  Js.gt (minSummaryChars (loadConfig file)) (Js.of_nat 0) = true.
Proof.
  destruct (loadConfig_fields file) as [->|(parsed & _ & ->)].
  - split; [by exists VUndefined|]. split; [right; by exists 6|done].
  - cbn [toolCallConcurrency toolResultMaxChars toolCallPreviewChars
         minSummaryChars].
    split; [by eexists|]. split.
    + apply (parsePositiveInt_natural _ 6).
    + by repeat split; apply parsePositiveNumber_positive.
Qed.

(** X14.  The defaults are used as a whole when there is no configuration file,
    when it cannot be read or parsed, and when it holds anything but an
    object with one of the seven settings: [null] (reading a property of
    it throws, which is caught), a number, a string, a boolean, an array,
    or an object with other members only. *)
Theorem loadConfig_falls_back_to_defaults (file : config_file) :
  (∀ members key,
     file = Parsed (JObject members) → key ∈ config_keys →
     own_property members key = None) →
  loadConfig file = DEFAULT_CONFIG.
Proof.
  intros Hnone. destruct file as [|error|parsed]; [done|done|].
  destruct parsed as [|b|x|s|elements|members]; try done.
  unfold loadConfig, get_property, member.
  rewrite !(Hnone members _ eq_refl) by (unfold config_keys; set_solver).
  done.
Qed.

(** X15.  A thinking level is accepted exactly when, lower-cased and trimmed, it
    is one of the six level names; anything that is not a string is
    rejected. *)
Theorem normalizeThinkingLevel_accepts (value : option json)
    (l : ThinkingLevel) :
  normalizeThinkingLevel value = Some l ↔
  ∃ s, value = Some (JString s) ∧
       Js.trim (Js.toLowerCase s) = level_name l.
Proof.
  split.
  - destruct value as [[| | |s| |]|]; try done.
    unfold normalizeThinkingLevel. cbv zeta.
    destruct (list_find _ _) as [[i l']|] eqn:Hfind; [|done].
    intros [= <-]. apply list_find_Some in Hfind as (_ & Hname & _).
    by exists s.
  - intros (s & -> & Hname). unfold normalizeThinkingLevel. cbv zeta.
    rewrite Hname. by destruct l.
Qed.

(** X16.  From an array of models, the entries kept are exactly the objects
    with a string [provider] and a string [id], in the order of the
    array; every other entry is dropped without failing, and a thinking
    level that is not accepted is left out of its entry. *)
Theorem parseCompactionModels_keeps_valid_entries (elements : list json) :
  (∀ cfg,
     cfg ∈ parseCompactionModels (Some (JArray elements)) ↔
     ∃ members provider id,
       JObject members ∈ elements ∧
       own_property members "provider" = Some (JString provider) ∧
       own_property members "id" = Some (JString id) ∧
       cfg = {| cfg_provider := provider; cfg_id := id;
                cfg_thinkingLevel :=
                  normalizeThinkingLevel
                    (own_property members "thinkingLevel") |}) ∧
  (∀ before after,
     elements = before ++ after →
     parseCompactionModels (Some (JArray elements))
     = parseCompactionModels (Some (JArray before)) ++
       parseCompactionModels (Some (JArray after))).
Proof.
  split.
  - intros cfg. unfold parseCompactionModels.
    rewrite list_elem_of_fmap. split.
    + intros (m & -> & [Hvalid Hin]%list_elem_of_filter).
      destruct m as [| | | | |members]; try done.
      unfold isValidModelConfig in Hvalid.
      destruct (own_property members "provider") as [[| | |provider| |]|]
        eqn:Hprovider; try done.
      destruct (own_property members "id") as [[| | |id| |]|] eqn:Hid;
        try done.
      exists members, provider, id. repeat split; try done.
      unfold string_member, member. by rewrite Hprovider, Hid.
    + intros (members & provider & id & Hin & Hprovider & Hid & ->).
      exists (JObject members). split.
      * unfold string_member, member. by rewrite Hprovider, Hid.
      * apply list_elem_of_filter. split; [|done].
        unfold isValidModelConfig. by rewrite Hprovider, Hid.
  - intros before after ->. unfold parseCompactionModels.
    by rewrite filter_app, fmap_app.
Qed.

Lemma loadConfig_falls_back_to_defaults_witness :
  loadConfig (Parsed (JObject [("models", JArray [])])) = DEFAULT_CONFIG.
Proof.
  apply (loadConfig_falls_back_to_defaults
           (Parsed (JObject [("models", JArray [])]))).
  intros members key [= <-] Hkey. unfold config_keys in Hkey.
  repeat (apply elem_of_cons in Hkey as [->|Hkey]; [reflexivity|]).
  by apply elem_of_nil in Hkey.
Defined.

(** The sample configuration: one model is kept, with its level
    normalised; the fractional concurrency is rounded down; the negative
    limit and the ill-typed flag give way to the defaults. *)
Example loadConfig_sample :
  loadConfig (Parsed sample_config)
  = {| compactionModels :=
         [{| cfg_provider := "openai"; cfg_id := "gpt-5-mini";
             cfg_thinkingLevel := Some high |}];
       thinkingLevel := off;
       debugCompactions := false;
       toolResultMaxChars := Js.of_Z 50000;
       toolCallPreviewChars := Js.of_Z 60;
       toolCallConcurrency := Js.of_Z 2;
       minSummaryChars := Js.of_Z 100 |}.
Proof. reflexivity. Qed.

(* ====================================================================== *)
(** * Further theorems: prompt building                                    *)
(* ====================================================================== *)

Section PromptFacts.

Implicit Types s p r : string.

Lemma append_assoc s p r : (s +:+ p) +:+ r = s +:+ p +:+ r.
Proof. induction s as [|c s IH]; [done|]. rewrite !append_cons. by f_equal. Qed.

Lemma contains_middle (a b s p : string) :
  contains s p → contains (a +:+ s +:+ b) p.
Proof.
  intros (x & y & ->). exists (a +:+ x), (y +:+ b).
  by rewrite !append_assoc.
Qed.

Lemma contains_app_r (a s p : string) :
  contains s p → contains (a +:+ s) p.
Proof.
  intros (x & y & ->). exists (a +:+ x), y. by rewrite !append_assoc.
Qed.

Lemma contains_prefix (a b c rest p : string) :
  contains (a +:+ b +:+ c) p → contains (a +:+ b +:+ c +:+ rest) p.
Proof.
  intros (x & y & Heq). exists x, (y +:+ rest).
  rewrite <- !append_assoc. rewrite <- !append_assoc in Heq.
  by rewrite Heq.
Qed.

Lemma ends_with_app_r (a s p : string) :
  ends_with s p → ends_with (a +:+ s) p.
Proof. intros (x & ->). exists (a +:+ x). by rewrite append_assoc. Qed.

Lemma join_cons_cons (sep x y : string) (l : list string) :
  Js.join sep (x :: y :: l) = x +:+ sep +:+ Js.join sep (y :: l).
Proof. reflexivity. Qed.

(** Every element of a joined list has a line of its own. *)
Lemma join_line (lines : list string) (line : string) :
  line ∈ lines →
  contains (Js.LF +:+ Js.join Js.LF lines +:+ Js.LF)
           (Js.LF +:+ line +:+ Js.LF).
Proof.
  induction lines as [|x [|y rest] IH].
  - by intros ?%elem_of_nil.
  - intros ->%list_elem_of_singleton.
    exists EmptyString, EmptyString. cbn [Js.join String.concat].
    by rewrite !append_assoc, append_nil_r.
  - intros [->|Hin]%elem_of_cons.
    + exists EmptyString, (Js.join Js.LF (y :: rest) +:+ Js.LF).
      rewrite join_cons_cons, append_nil_l. by rewrite !append_assoc.
    + destruct (IH Hin) as (a & b & Heq).
      exists (Js.LF +:+ x +:+ a), b. rewrite join_cons_cons.
      rewrite !append_assoc.
      rewrite !append_assoc in Heq. by rewrite Heq.
Qed.

Lemma formatFileList_line (files : list string) (defaultText p : string) :
  p ∈ files →
  contains (Js.LF +:+ formatFileList files defaultText +:+ Js.LF)
           (Js.LF +:+ "- " +:+ p +:+ Js.LF).
Proof.
  intros Hin. unfold formatFileList.
  destruct files as [|x rest]; [by apply elem_of_nil in Hin|].
  cbn [length Nat.ltb Nat.leb].
  apply (join_line _ ("- " +:+ p)).
  apply list_elem_of_fmap. by exists p.
Qed.

End PromptFacts.

(** X17.  The file section of the system prompt.  Every file the conversation
    is found to have modified has a line of its own, a dash followed by
    the path, and the section always ends by reporting that no deleted
    path was detected, whatever the conversation holds. *)
Theorem buildFileOpsContext_lists_modified_never_deleted
    (llmMessages : list LlmMessage) :
  (∀ p, p ∈ modifiedFiles (detectFileOpsFromConversation llmMessages) →
        contains (buildFileOpsContext llmMessages)
                 (Js.LF +:+ "- " +:+ p +:+ Js.LF)) ∧
  ends_with (buildFileOpsContext llmMessages)
            ("### Deleted paths (best effort)" +:+ Js.LF +:+
             "- (none detected)").
Proof.
  unfold buildFileOpsContext. cbv zeta. rewrite detect_deletedFiles.
  split.
  - intros p Hp.
    destruct (isLikelyTempArtifactPath p) eqn:Htemp.
    + do 13 apply contains_app_r. apply contains_prefix.
      apply formatFileList_line, list_elem_of_filter. by split.
    + do 8 apply contains_app_r. apply contains_prefix.
      apply formatFileList_line, list_elem_of_filter. split; [|done].
      by rewrite Htemp.
  - do 17 apply ends_with_app_r. by exists EmptyString.
Qed.

(** X18.  A note that [getUserCompactionNote] returns is never taken for a
    missing one by the prompt builders: the user-note section built for
    the system prompt ends with the note between double quotes, and the
    initial user prompt ends with it as a list item. *)
Theorem user_note_quoted_in_prompts (customInstructions : jsvalue)
    (llmMessages : list LlmMessage) (note : string) :
  getUserCompactionNote customInstructions llmMessages = Some note →
  ends_with (buildUserNoteContext (Some note))
            (DQ +:+ note +:+ DQ +:+ Js.LF) ∧
  ends_with (buildInitialUserPrompt (Some note))
            (Js.LF +:+ "- " +:+ note).
Proof.
  intros [Hne _]%getUserCompactionNote_Some.
  unfold buildUserNoteContext, buildInitialUserPrompt, note_given.
  destruct note as [|c note]; [done|]. cbn [Js.truthy]. split.
  - do 7 apply ends_with_app_r. by exists EmptyString.
  - do 4 apply ends_with_app_r. by exists EmptyString.
Qed.

Lemma buildFileOpsContext_lists_modified_never_deleted_witness :
  contains
    (buildFileOpsContext
       [assistant_message [tool_call_block "call-1" "write" "/src/app.ts"];
        tool_result_message "call-1" false])
    (Js.LF +:+ "- " +:+ "/src/app.ts" +:+ Js.LF).
Proof.
  apply (proj1 (buildFileOpsContext_lists_modified_never_deleted
                  [assistant_message
                     [tool_call_block "call-1" "write" "/src/app.ts"];
                   tool_result_message "call-1" false])).
  vm_compute. apply list_elem_of_singleton. reflexivity.
Defined.

Lemma user_note_quoted_in_prompts_witness :
  ends_with (buildUserNoteContext (Some "focus on auth"))
            (DQ +:+ "focus on auth" +:+ DQ +:+ Js.LF) ∧
  ends_with (buildInitialUserPrompt (Some "focus on auth"))
            (Js.LF +:+ "- " +:+ "focus on auth").
Proof.
  apply (user_note_quoted_in_prompts (VString " focus on auth ") []).
  reflexivity.
Defined.

(* ====================================================================== *)
(** * Further theorems: the compaction handler                             *)
(* ====================================================================== *)

Section HandlerTheorems.

Context {Model Meta SessionMessage : Type}.
Variable model_provider : Model → string.
Variable model_id : Model → string.
Variable CONFIG : ExtensionConfig.
Variable convertToLlm : list SessionMessage → list LlmMessage.
Variable stringify : list LlmMessage → string.
Variable buildSystemPrompt : string → string → option string → string.
Variable complete_with :
  Model → string → ThinkingLevel → string →
  (nat → bool) → nat → list (Message Meta) → completion Meta.
Variable sandbox : gmap string string → CommandValue → exec_outcome.
Variable scheduler : nat → nat → nat.

(** X19.  The handler replaces the default compaction only with a full summary.
    When it returns a compaction, the branch held at least one message,
    a model with a key was selected, the summary is not empty, has no
    surrounding white space and is not shorter than [minSummaryChars],
    and [firstKeptEntryId] and [tokensBefore] are those of the event. *)
Theorem handleCompaction_returns_only_full_summaries
    (event : CompactEvent SessionMessage) (ctx : SessionContext Model)
    (fuel : nat) (c : CompactionResult) (shown : list (string * level)) :
  handleCompaction model_provider model_id CONFIG convertToLlm stringify
    buildSystemPrompt complete_with sandbox scheduler event ctx fuel
  = (Returns (Some c), shown) →
  extractMessages (ev_branchEntries event) ≠ [] ∧
  is_Some (selectCompactionModel model_provider model_id CONFIG
             (ctx_modelRegistry ctx) (ctx_model ctx)) ∧
  cr_summary c ≠ EmptyString ∧
  Js.trim (cr_summary c) = cr_summary c ∧
  Js.gt (minSummaryChars CONFIG) (Js.of_nat (String.length (cr_summary c)))
  = false ∧
  cr_firstKeptEntryId c = ev_firstKeptEntryId event ∧
  cr_tokensBefore c = ev_tokensBefore event.
Proof.
  unfold handleCompaction. cbv zeta.
  destruct (extractMessages (ev_branchEntries event)) as [|m ms] eqn:Hms;
    [done|].
  cbn [length Nat.eqb].
  destruct (selectCompactionModel _ _ _ _ _) as [selection|] eqn:Hsel;
    [|done].
  destruct (runAgentLoop _ _ _ _) as [o final] eqn:Hrun.
  destruct o as [summary| |error|]; try done.
  destruct (ev_signal event (now final)); [done|].
  destruct (Js.truthy summary) eqn:Htruthy; [|done].
  destruct (Js.gt _ _) eqn:Hshort; [done|].
  cbn [negb orb]. intros [= <- _]. cbn [cr_summary cr_firstKeptEntryId
                                         cr_tokensBefore].
  repeat split; try done.
  - by apply truthy_true.
  - apply agent_loop_Done in Hrun as (last & response & _ & _ & ->).
    apply trim_idemp.
Qed.

End HandlerTheorems.

Lemma handleCompaction_returns_only_full_summaries_witness :
  extractMessages (ev_branchEntries sample_event) ≠ [] ∧
  is_Some (selectCompactionModel fst snd short_summaries
             (ctx_modelRegistry sample_session) (ctx_model sample_session)) ∧
  "## Summary" +:+ Js.LF +:+ "All good." ≠ EmptyString ∧
  Js.trim ("## Summary" +:+ Js.LF +:+ "All good.")
  = "## Summary" +:+ Js.LF +:+ "All good." ∧
  Js.gt (minSummaryChars short_summaries)
    (Js.of_nat (String.length ("## Summary" +:+ Js.LF +:+ "All good.")))
  = false ∧
  "entry-7" = ev_firstKeptEntryId sample_event ∧
  Js.of_Z 1200 = ev_tokensBefore sample_event.
Proof.
  eapply (handleCompaction_returns_only_full_summaries fst snd
            short_summaries (λ ms, ms) (λ _, "[]")
            (λ fileOps note _, fileOps +:+ note)
            (λ _ _ _ _, complete (sample_env (λ _, false)))
            echo_exec (λ _ _, 1)
            sample_event sample_session 3
            {| cr_summary := "## Summary" +:+ Js.LF +:+ "All good.";
               cr_firstKeptEntryId := "entry-7";
               cr_tokensBefore := Js.of_Z 1200 |}).
  vm_compute. reflexivity.
Defined.

(* ====================================================================== *)
(** * Further theorems: model selection                                    *)
(* ====================================================================== *)

Section ModelSelectionSound.

Context {Model : Type}.
Variable model_provider : Model → string.
Variable model_id : Model → string.
Variable CONFIG : ExtensionConfig.
Variable modelRegistry : ModelRegistry Model.

Lemma select_configured_sound (candidates : list CompactionModelConfig)
    (sel : ModelSelection Model) :
  select_configured model_provider model_id CONFIG modelRegistry candidates
  = Some sel →
  credential_present modelRegistry (model sel) (apiKey sel) ∧
  ∃ cfg, cfg ∈ candidates ∧
         registered_match model_provider model_id modelRegistry cfg
           (model sel) ∧
         sel_thinkingLevel sel
         = default (thinkingLevel CONFIG) (cfg_thinkingLevel cfg).
Proof.
  induction candidates as [|cfg rest IH]; [done|]. cbn [select_configured].
  assert (Hrest :
    select_configured model_provider model_id CONFIG modelRegistry rest
    = Some sel →
    credential_present modelRegistry (model sel) (apiKey sel) ∧
    ∃ cfg', cfg' ∈ cfg :: rest ∧
            registered_match model_provider model_id modelRegistry cfg'
              (model sel) ∧
            sel_thinkingLevel sel
            = default (thinkingLevel CONFIG) (cfg_thinkingLevel cfg')).
  { intros (Hkey & cfg' & Hin & Hrest)%IH. split; [done|].
    exists cfg'. split; [by apply elem_of_cons; right|done]. }
  destruct (find_registered _ _ _ cfg) as [m|] eqn:Hfind; [|done].
  destruct (getApiKey modelRegistry m) as [key|] eqn:Hget; [|done].
  destruct (Js.truthy key) eqn:Htruthy; [|done].
  intros [= <-]. cbn [model apiKey sel_thinkingLevel]. split.
  - split; [done|]. by apply truthy_true.
  - exists cfg. split; [by apply elem_of_cons; left|].
    split; [|done]. by apply find_registered_Some.
Qed.

(** X20.  Whatever is selected can be used: the key is the one the registry
    holds for the selected model and is not empty, and the model is
    either the registered match of a configured candidate, taken with
    that candidate's thinking level or else the global one, or the
    session model, taken with the global thinking level. *)
Theorem selectCompactionModel_selection_usable (sessionModel : option Model)
    (sel : ModelSelection Model) :
  selectCompactionModel model_provider model_id CONFIG modelRegistry
    sessionModel = Some sel →
  credential_present modelRegistry (model sel) (apiKey sel) ∧
  ((∃ cfg, cfg ∈ compactionModels CONFIG ∧
           registered_match model_provider model_id modelRegistry cfg
             (model sel) ∧
           sel_thinkingLevel sel
           = default (thinkingLevel CONFIG) (cfg_thinkingLevel cfg)) ∨
   (sessionModel = Some (model sel) ∧
    sel_thinkingLevel sel = thinkingLevel CONFIG)).
Proof.
  unfold selectCompactionModel.
  destruct (select_configured _ _ _ _ _) as [configured|] eqn:Hconf.
  - intros [= <-]. apply select_configured_sound in Hconf as [Hkey Hcfg].
    split; [done|by left].
  - destruct sessionModel as [session|]; [|done].
    destruct (getApiKey modelRegistry session) as [key|] eqn:Hget; [|done].
    destruct (Js.truthy key) eqn:Htruthy; [|done].
    intros [= <-]. cbn [model apiKey sel_thinkingLevel]. split.
    + split; [done|]. by apply truthy_true.
    + by right.
Qed.

End ModelSelectionSound.

Lemma selectCompactionModel_selection_usable_witness :
  credential_present empty_key_registry ("openai", "gpt-5")
    "session-key" ∧
  ((∃ cfg, cfg ∈ compactionModels DEFAULT_CONFIG ∧
           registered_match fst snd empty_key_registry cfg
             ("openai", "gpt-5") ∧
           thinkingLevel DEFAULT_CONFIG
           = default (thinkingLevel DEFAULT_CONFIG) (cfg_thinkingLevel cfg)) ∨
   (Some ("openai", "gpt-5") = Some ("openai", "gpt-5") ∧
    thinkingLevel DEFAULT_CONFIG = thinkingLevel DEFAULT_CONFIG)).
Proof.
  apply (selectCompactionModel_selection_usable fst snd DEFAULT_CONFIG
           empty_key_registry (Some ("openai", "gpt-5"))
           {| model := ("openai", "gpt-5"); apiKey := "session-key";
              sel_thinkingLevel := thinkingLevel DEFAULT_CONFIG |}).
  reflexivity.
Defined.
